(** * ZEPTO-8 cartridge codec: [src/pico8/memory.h] and [src/pico8/cart.cpp]

    A shallow embedding of the PICO-8 memory layout and of the cartridge
    loaders and savers, with the properties of the codec proved over it.

    Conventions.  A byte, a character and a machine integer are all [Z];
    every narrowing conversion of the C++ code ([uint8_t(x)], a store into a
    [uint8_t] or into a bit-field) is written out with [Z.modulo] or
    [Z.land].  A [std::vector<uint8_t>], a [std::string] and the raw bytes of
    [m_rom] are [list Z]. *)

From Stdlib Require Import ZArith Lia String Ascii.
From stdpp Require Import base list gmap.

Local Open Scope Z_scope.

(** ** Struct layout of [memory.h] *)

Module Layout.

(** The C++ types that [memory.h] declares, as far as [sizeof] and
    [offsetof] see them.  [Blob size align] is a type known by its size and
    alignment only; [Bitfields u ws] is a run of bit-fields of widths [ws]
    declared with a [u]-byte integer type. *)
Inductive ctype : Type :=
| Blob (size align : Z)
| Array (elt : ctype) (count : Z)
| Bitfields (unit_bytes : Z) (widths : list Z)
| Struct (packed : bool) (members : fields)
| Union (members : fields)
with fields : Type :=
| FNil
| FCons (name : option string) (t : ctype) (rest : fields).

Definition uint8_t := Blob 1 1.
Definition uint16_t := Blob 2 2.
Definition int16_t := Blob 2 2.
Definition uint32_t := Blob 4 4.

Definition align_up (off a : Z) : Z := (off + a - 1) / a * a.

(** Bit-fields fill one unit after the other; a field that does not fit in
    what is left of the current unit starts the next one.  [bits_used] is
    the number of bits taken in the current unit. *)
Fixpoint bitfield_units (unit_bits : Z) (widths : list Z) (units bits_used : Z) : Z :=
  match widths with
  | [] => units
  | w :: ws =>
      if bits_used + w <=? unit_bits
      then bitfield_units unit_bits ws (Z.max units 1) (bits_used + w)
      else bitfield_units unit_bits ws (units + 1) w
  end.

Fixpoint alignof (t : ctype) : Z :=
  match t with
  | Blob _ a => a
  | Array e _ => alignof e
  | Bitfields u _ => u
  | Struct packed fs => if packed then 1 else fields_align fs
  | Union fs => fields_align fs
  end
with fields_align (fs : fields) : Z :=
  match fs with
  | FNil => 1
  | FCons _ t rest => Z.max (alignof t) (fields_align rest)
  end.

(** [struct_end packed fs off] is the offset after the last member of [fs]
    when the first one is placed at or after [off]. *)
Fixpoint sizeof (t : ctype) : Z :=
  match t with
  | Blob s _ => s
  | Array e n => n * sizeof e
  | Bitfields u ws => u * bitfield_units (8 * u) ws 0 (8 * u)
  | Struct packed fs =>
      let e := struct_end packed fs 0 in
      if e =? 0 then 1 else align_up e (if packed then 1 else fields_align fs)
  | Union fs =>
      let e := union_max fs in
      if e =? 0 then 1 else align_up e (fields_align fs)
  end
with struct_end (packed : bool) (fs : fields) (off : Z) : Z :=
  match fs with
  | FNil => off
  | FCons _ t rest =>
      struct_end packed rest (align_up off (if packed then 1 else alignof t) + sizeof t)
  end
with union_max (fs : fields) : Z :=
  match fs with
  | FNil => 0
  | FCons _ t rest => Z.max (sizeof t) (union_max rest)
  end.

(** Where a named member lives: its offset from the start of the enclosing
    type and its own type.  The members of an anonymous struct or union are
    members of the type that encloses it. *)
Fixpoint find_member (nm : string) (t : ctype) : option (Z * ctype) :=
  match t with
  | Struct packed fs => find_in_struct nm packed fs 0
  | Union fs => find_in_union nm fs
  | _ => None
  end
with find_in_struct (nm : string) (packed : bool) (fs : fields) (off : Z)
    : option (Z * ctype) :=
  match fs with
  | FNil => None
  | FCons name t rest =>
      let o := align_up off (if packed then 1 else alignof t) in
      let here :=
        match name with
        | Some n => if String.eqb n nm then Some (o, t) else None
        | None =>
            match find_member nm t with
            | Some (o', t') => Some (o + o', t')
            | None => None
            end
        end in
      match here with
      | Some r => Some r
      | None => find_in_struct nm packed rest (o + sizeof t)
      end
  end
with find_in_union (nm : string) (fs : fields) : option (Z * ctype) :=
  match fs with
  | FNil => None
  | FCons name t rest =>
      let here :=
        match name with
        | Some n => if String.eqb n nm then Some (0, t) else None
        | None => find_member nm t
        end in
      match here with
      | Some r => Some r
      | None => find_in_union nm rest
      end
  end.

Definition offsetof (t : ctype) (nm : string) : Z :=
  match find_member nm t with Some (o, _) => o | None => -1 end.

(** [sizeof(T::name)] *)
Definition sizeof_member (t : ctype) (nm : string) : Z :=
  match find_member nm t with Some (_, t') => sizeof t' | None => -1 end.

Declare Scope fields_scope.
Delimit Scope fields_scope with fields.
Notation "'field' n ':' t ';' rest" := (FCons (Some n%string) t rest%fields)
  (at level 60, n at level 0, t at level 9, right associativity) : fields_scope.
Notation "'anon' t ';' rest" := (FCons None t rest%fields)
  (at level 60, t at level 9, right associativity) : fields_scope.
Notation "'end_fields'" := FNil : fields_scope.

(** [struct note_t] *)
Definition note_t : ctype := Bitfields 2 [6; 3; 3; 4].

(** [struct sfx_t] *)
Definition sfx_t : ctype :=
  Struct false
    (field "notes" : (Array note_t 32);
     field "editor_mode" : uint8_t;
     field "speed" : uint8_t;
     field "loop_start" : uint8_t;
     field "loop_end" : uint8_t;
     end_fields)%fields.

(** [struct song_t] *)
Definition song_t : ctype :=
  Struct false
    (anon (Union
       (anon (Bitfields 1 [7; 1; 7; 1; 7; 1; 7; 1]);
        field "data" : (Array uint8_t 4);
        end_fields)%fields);
     end_fields)%fields.

(** [struct code_t : std::array<uint8_t, 0x3d00>] *)
Definition code_t : ctype := Array uint8_t 0x3d00.

(** The vector types of the [lol] library used by the register blocks. *)
Definition u8vec2 : ctype := Array uint8_t 2.
Definition i16vec2 : ctype := Array int16_t 2.

(** Modelled from the spec: the declaration of [u4mat2<128, 128>] is in
    [zepto8.h], which is not part of the sources at hand.  The spec calls
    it a 128x128 bitmap of 4 bits per pixel, and [save_p8] reads it as
    [gfx.data[i / 64][i % 64]]: 128 rows of 64 bytes. *)
Definition u4mat2_128_128 : ctype :=
  Struct false (field "data" : (Array (Array uint8_t 64) 128); end_fields)%fields.

(** [std::bitset<128>]: two 64-bit words. *)
Definition bitset_128 : ctype := Blob 16 8.

(** [struct draw_state_t] *)
Definition draw_state_t : ctype :=
  Struct false
    (field "draw_palette" : (Array uint8_t 16);
     field "screen_palette" : (Array uint8_t 16);
     field "clip" : (Struct false
        (field "x1" : uint8_t; field "y1" : uint8_t;
         field "x2" : uint8_t; field "y2" : uint8_t; end_fields)%fields);
     field "undocumented1" : (Array uint8_t 1);
     field "pen" : uint8_t;
     field "cursor" : u8vec2;
     field "camera" : i16vec2;
     field "screen_mode" : uint8_t;
     field "mouse_flag" : uint8_t;
     field "palette_flag" : uint8_t;
     field "undocumented2" : (Array uint8_t 1);
     field "pause_flag" : uint8_t;
     field "fillp" : (Array uint8_t 2);
     field "fillp_trans" : uint8_t;
     field "fillp_flag" : uint8_t;
     field "polyline_flag" : uint8_t;
     field "undocumented3" : (Array uint8_t 2);
     field "tline" : (Struct false
        (field "mask" : u8vec2; field "offset" : u8vec2; end_fields)%fields);
     field "polyline" : i16vec2;
     end_fields)%fields.

(** [struct hw_state_t]; its [raster] member is declared under
    [#pragma pack(push,1)]. *)
Definition hw_state_t : ctype :=
  Struct false
    (field "half_rate" : uint8_t;
     field "reverb" : uint8_t;
     field "distort" : uint8_t;
     field "lowpass" : uint8_t;
     field "prng" : (Struct false
        (field "a" : uint32_t; field "b" : uint32_t; end_fields)%fields);
     field "btn_state" : (Array uint8_t 8);
     field "undocumented2" : (Array uint8_t 8);
     field "btnp_delay" : uint8_t;
     field "btnp_rate" : uint8_t;
     field "bit_mask" : uint8_t;
     field "raster" : (Struct true
        (field "mode" : uint8_t;
         field "palette" : (Array uint8_t 16);
         field "bits" : bitset_128;
         end_fields)%fields);
     end_fields)%fields.

(** [struct memory] *)
Definition memory : ctype :=
  Struct false
    (anon (Union
       (field "gfx" : u4mat2_128_128;
        anon (Struct false
          (field "padding" : (Array uint8_t 0x1000);
           field "map2" : (Array uint8_t 0x1000);
           field "map" : (Struct false
              (field "b" : (Array uint8_t 0x1000); end_fields)%fields);
           end_fields)%fields);
        end_fields)%fields);
     field "gfx_props" : (Array uint8_t 0x100);
     field "song" : (Array song_t 0x40);
     field "sfx" : (Array sfx_t 0x40);
     anon (Union
       (field "code" : (Struct false FNil);
        field "user_data" : (Array uint8_t 0x1b00);
        end_fields)%fields);
     field "persistent" : (Array uint8_t 0x100);
     field "draw_state" : draw_state_t;
     field "hw_state" : hw_state_t;
     field "gpio_pins" : (Array uint8_t 0x80);
     field "screen" : u4mat2_128_128;
     end_fields)%fields.

(** The macro [static_check_section(name, offset, size)]: both of its
    [static_assert] conditions. *)
Definition static_check_section (nm : string) (offset size : Z) : bool :=
  (offsetof memory nm =? offset)
  && ((sizeof_member memory nm =? size) || (size =? -1)).

End Layout.

(** ** The raw bytes of a [memory] object and its accessors *)

Module Memory.

(** Offsets and sizes of the sections, as the layout of [struct memory]
    gives them. *)
Definition size : Z := Eval vm_compute in Layout.sizeof Layout.memory.
Definition gfx_off : Z := Eval vm_compute in Layout.offsetof Layout.memory "gfx".
Definition gfx_size : Z := Eval vm_compute in Layout.sizeof_member Layout.memory "gfx".
Definition map2_off : Z := Eval vm_compute in Layout.offsetof Layout.memory "map2".
Definition map2_size : Z := Eval vm_compute in Layout.sizeof_member Layout.memory "map2".
Definition map_off : Z := Eval vm_compute in Layout.offsetof Layout.memory "map".
Definition map_size : Z := Eval vm_compute in Layout.sizeof_member Layout.memory "map".
Definition gfx_props_off : Z := Eval vm_compute in Layout.offsetof Layout.memory "gfx_props".
Definition gfx_props_size : Z := Eval vm_compute in Layout.sizeof_member Layout.memory "gfx_props".
Definition song_off : Z := Eval vm_compute in Layout.offsetof Layout.memory "song".
Definition song_size : Z := Eval vm_compute in Layout.sizeof_member Layout.memory "song".
Definition sfx_off : Z := Eval vm_compute in Layout.offsetof Layout.memory "sfx".
Definition sfx_size : Z := Eval vm_compute in Layout.sizeof_member Layout.memory "sfx".
Definition code_off : Z := Eval vm_compute in Layout.offsetof Layout.memory "code".
Definition sizeof_song_t : Z := Eval vm_compute in Layout.sizeof Layout.song_t.
Definition sizeof_sfx_t : Z := Eval vm_compute in Layout.sizeof Layout.sfx_t.
Definition sizeof_code_t : Z := Eval vm_compute in Layout.sizeof Layout.code_t.
Definition sizeof_note_t : Z := Eval vm_compute in Layout.sizeof Layout.note_t.
Definition editor_mode_off : Z := Eval vm_compute in Layout.offsetof Layout.sfx_t "editor_mode".
Definition speed_off : Z := Eval vm_compute in Layout.offsetof Layout.sfx_t "speed".
Definition loop_start_off : Z := Eval vm_compute in Layout.offsetof Layout.sfx_t "loop_start".
Definition loop_end_off : Z := Eval vm_compute in Layout.offsetof Layout.sfx_t "loop_end".

(** A [memory] object seen as [uint8_t[sizeof(memory)]]. *)
Definition wf (m : list Z) : Prop :=
  Z.of_nat (length m) = size /\ Forall (fun b => 0 <= b < 256) m.

Definition wfb (m : list Z) : bool :=
  (Z.of_nat (length m) =? size) && forallb (fun b => (0 <=? b) && (b <? 256)) m.

(** [p[n]] for a byte pointer [p] to the start of [m]; reading outside the
    object is undefined in C++ and reads 0 here. *)
Definition peek (m : list Z) (n : Z) : Z :=
  if n <? 0 then 0 else default 0 (m !! Z.to_nat n).

(** [p[n] = v] *)
Definition poke (m : list Z) (n : Z) (v : Z) : list Z :=
  if n <? 0 then m else <[Z.to_nat n := v mod 256]> m.

(** [memory::operator[](int n)]: the address it returns a reference to,
    [None] when its [assert] fails. *)
Definition at_ref (n : Z) : option Z :=
  if (0 <=? n) && (n <? size) then Some n else None.

(** [memory::map::operator[](int n)], const and non-const alike:
    [return b[(n ^ 0x1000) - 0x1000]], where [b] is at [offsetof(memory, map)]. *)
Definition map_ref (n : Z) : option Z :=
  if (0 <=? n) && (n <? map_size + map2_size)
  then Some (map_off + (Z.lxor n 0x1000 - 0x1000))
  else None.

(** [m.map2[n]] is a plain array member. *)
Definition map2_ref (n : Z) : Z := map2_off + n.

(** The bit-field of [width] bits from bit [lo] of the unit [w]. *)
Definition bits (w lo width : Z) : Z := (w / 2 ^ lo) mod 2 ^ width.

(** The unit [w] after an assignment of [v] to that bit-field: [v] is cut
    to the width of the field and the other bits of the unit stay. *)
Definition set_bits (w lo width v : Z) : Z :=
  w - bits w lo width * 2 ^ lo + (v mod 2 ^ width) * 2 ^ lo.

(** An assignment to a bit-field of the 16-bit unit at address [n],
    little-endian as on the machines that [static_assert(sizeof(sfx_t) ==
    68)] and the byte-wise reading of the notes in [save_p8] are written
    for. *)
Definition store_bits16 (m : list Z) (n lo width v : Z) : list Z :=
  let w := peek m n + 256 * peek m (n + 1) in
  let w' := set_bits w lo width v in
  poke (poke m n (w' mod 256)) (n + 1) (w' / 256).

(** The assignments [n.key = key; n.instrument = instrument; n.volume =
    volume; n.effect = effect] for the [note_t] at address [note]. *)
Definition store_note (m : list Z) (note key instrument volume effect : Z) : list Z :=
  let m := store_bits16 m note 0 6 key in
  let m := store_bits16 m note 6 3 instrument in
  let m := store_bits16 m note 9 3 volume in
  store_bits16 m note 12 4 effect.

(** The four bit-fields of the [note_t] in the bytes [d0] and [d1]. *)
Definition note_fields (d0 d1 : Z) : Z * Z * Z * Z :=
  let w := d0 + 256 * d1 in
  (bits w 0 6, bits w 6 3, bits w 9 3, bits w 12 4).

(** Reading and writing through a reference. *)
Definition load_ref (m : list Z) (r : option Z) : option Z :=
  match r with Some a => Some (peek m a) | None => None end.

Definition store_ref (m : list Z) (r : option Z) (v : Z) : option (list Z) :=
  match r with Some a => Some (poke m a v) | None => None end.

End Memory.

(** ** Characters, C strings and the C library *)

Module Text.

(** The code of a character literal. *)
Definition ch (a : ascii) : Z := Z.of_N (N_of_ascii a).

(** A string literal, as the list of its bytes. *)
Definition str (s : string) : list Z := map ch (list_ascii_of_string s).

(** [uint8_t(x)] *)
Definition uint8 (x : Z) : Z := x mod 256.

(** [std::string(p)] for a [char const *p]: the bytes before the first NUL. *)
Fixpoint c_str (s : list Z) : list Z :=
  match s with
  | [] => []
  | c :: t => if c =? 0 then [] else c :: c_str t
  end.

(** [isspace] in the C locale. *)
Definition isspace (c : Z) : bool :=
  (c =? ch " ") || ((9 <=? c) && (c <=? 13)).

Definition isdigit (c : Z) : bool := (ch "0" <=? c) && (c <=? ch "9").

(** The value of a digit in base 16, [-1] for any other character. *)
Definition xdigit_val (c : Z) : Z :=
  if isdigit c then c - ch "0"
  else if (ch "a" <=? c) && (c <=? ch "f") then c - ch "a" + 10
  else if (ch "A" <=? c) && (c <=? ch "F") then c - ch "A" + 10
  else -1.

Fixpoint skip_space (s : list Z) : list Z :=
  match s with
  | c :: t => if isspace c then skip_space t else s
  | [] => []
  end.

(** The digits at the head of [s] in base [base], accumulated from [acc];
    the result is the value and the number of digits read. *)
Fixpoint read_digits (base : Z) (val : Z -> Z) (s : list Z) (acc : Z) (n : nat) : Z * nat :=
  match s with
  | c :: t =>
      if (0 <=? val c) && (val c <? base)
      then read_digits base val t (acc * base + val c) (S n)
      else (acc, n)
  | [] => (acc, n)
  end.

Definition ULONG_MAX : Z := 2 ^ 64 - 1.

(** [strtoul(s, nullptr, 16)] of the C library on the C string [s]: white
    space, an optional sign, an optional [0x] that hexadecimal digits
    follow, then the digits.  No digit gives 0, a value that does not fit
    gives [ULONG_MAX], and a minus sign negates in [unsigned long]. *)
Definition strtoul16 (s : list Z) : Z :=
  let s := skip_space s in
  let '(neg, s) :=
    match s with
    | c :: t => if c =? ch "-" then (true, t) else if c =? ch "+" then (false, t) else (false, s)
    | [] => (false, s)
    end in
  let s :=
    match s with
    | c0 :: c1 :: c2 :: t =>
        if (c0 =? ch "0") && ((c1 =? ch "x") || (c1 =? ch "X")) && (0 <=? xdigit_val c2)
        then c2 :: t else s
    | _ => s
    end in
  let '(v, _) := read_digits 16 xdigit_val s 0 0 in
  if ULONG_MAX <? v then ULONG_MAX
  else if neg then (2 ^ 64 - v) mod 2 ^ 64 else v.

Definition LONG_MAX : Z := 2 ^ 63 - 1.
Definition LONG_MIN : Z := - 2 ^ 63.

(** The conversion of an integer to [int]: its low 32 bits, read in two's
    complement. *)
Definition int32 (x : Z) : Z := (x + 2 ^ 31) mod 2 ^ 32 - 2 ^ 31.

(** [atoi(s)]: white space, an optional sign, decimal digits; the result
    is an [int].  A value that fits an [int] is returned as it is.  For a
    value that does not fit, the C standard leaves the result open; the
    model follows the C library of the GNU system, where [atoi(s)] is
    [(int) strtol(s, nullptr, 10)]: [strtol] stops at [LONG_MAX] and at
    [LONG_MIN], and the conversion to [int] keeps the low 32 bits.  So
    2147483648 gives -2147483648 and 4294967296 gives 0. *)
Definition atoi (s : list Z) : Z :=
  let s := skip_space s in
  let '(neg, s) :=
    match s with
    | c :: t => if c =? ch "-" then (true, t) else if c =? ch "+" then (false, t) else (false, s)
    | [] => (false, s)
    end in
  let '(v, _) := read_digits 10 (fun c => if isdigit c then c - ch "0" else -1) s 0 0 in
  let v := if neg then - v else v in
  int32 (Z.max LONG_MIN (Z.min LONG_MAX v)).

(** The digit characters of [lol::format]. *)
Definition digit_char (d : Z) : Z :=
  if d <? 10 then ch "0" + d else ch "a" + (d - 10).

(** The digits of [v >= 0] in base [base], most significant first; [n]
    bounds their number. *)
Fixpoint digits (n : nat) (base v : Z) (acc : list Z) : list Z :=
  match n with
  | O => acc
  | S n' =>
      if v <? base then digit_char v :: acc
      else digits n' base (v / base) (digit_char (v mod base) :: acc)
  end.

(** [lol::format("%0<width>x", v)] and ["%<width>x"] for a width that the
    digits reach or that is padded with ['0'].  The argument is an
    [unsigned int]: 8 digits at most. *)
Definition format_x (width : nat) (v : Z) : list Z :=
  let d := digits 8 16 (v mod 2 ^ 32) [] in
  replicate (width - length d) (ch "0") ++ d.

(** [lol::format("%d", v)]: the argument is passed as an [int]. *)
Definition format_d (v : Z) : list Z :=
  let v := int32 v in
  if v <? 0 then ch "-" :: digits 10 10 (- v) [] else digits 10 10 v [].

(** [std::regex_replace(s, std::regex("\r\n"), "\n")] *)
Fixpoint remove_crlf (s : list Z) : list Z :=
  match s with
  | [] => []
  | c :: t =>
      match t with
      | c' :: _ => if (c =? 13) && (c' =? 10) then remove_crlf t else c :: remove_crlf t
      | [] => [c]
      end
  end.

(** Whether [w] is a prefix of [s]. *)
Fixpoint starts_with (w s : list Z) : bool :=
  match w, s with
  | [], _ => true
  | a :: w', b :: s' => (a =? b) && starts_with w' s'
  | _ :: _, [] => false
  end.

(** The first position of [w] in [s] at or after position [k] of the
    string that [s] is the tail of. *)
Fixpoint find_in (w s : list Z) (k : nat) : option nat :=
  if starts_with w s then Some k
  else match s with
       | [] => None
       | _ :: t => find_in w t (S k)
       end.

(** [s.find(w, pos)] of [std::string], with [None] for [npos], also as the
    position to start from; a start beyond the end finds nothing. *)
Definition string_find (s w : list Z) (pos : option nat) : option nat :=
  match pos with
  | None => None
  | Some p => if (length s <? p)%nat then None else find_in w (drop p s) p
  end.

(** [lol::ends_with(s, w)] *)
Definition ends_with (s w : list Z) : bool :=
  (length w <=? length s)%nat && starts_with w (drop (length s - length w) s).

(** [lol::tolower(s)] *)
Definition tolower (s : list Z) : list Z :=
  map (fun c => if (ch "A" <=? c) && (c <=? ch "Z") then c + 32 else c) s.

End Text.

(** ** The PEGTL combinators that the grammar of [p8_reader] uses *)

Module Peg.
Import Text.

Section Rules.

(** The parser state that the actions update. *)
Context {St : Type}.

(** A rule is run on the state and on the rest of the input.  It gives the
    state that its actions leave, also when it fails (PEGTL rewinds the
    input of a failed rule, never the effects of the actions that ran), and
    the input that remains when it matches. *)
Definition rule : Type := St -> list Z -> St * option (list Z).

Definition one (c : Z) : rule := fun st s =>
  match s with
  | x :: t => if x =? c then (st, Some t) else (st, None)
  | [] => (st, None)
  end.

(** [pegtl::ranges<lo1, hi1, lo2, hi2, ...>] *)
Definition ranges (rs : list (Z * Z)) : rule := fun st s =>
  match s with
  | x :: t =>
      if existsb (fun r => (fst r <=? x) && (x <=? snd r)) rs
      then (st, Some t) else (st, None)
  | [] => (st, None)
  end.

Definition digit : rule := ranges [(ch "0", ch "9")].
Definition alnum : rule := ranges [(ch "a", ch "z"); (ch "A", ch "Z"); (ch "0", ch "9")].

(** [TAO_PEGTL_STRING(w)] *)
Definition lit (w : list Z) : rule := fun st s =>
  if starts_with w s then (st, Some (drop (length w) s)) else (st, None).

(** [pegtl::two<c>] *)
Definition two (c : Z) : rule := lit [c; c].

Definition eof : rule := fun st s =>
  match s with [] => (st, Some []) | _ => (st, None) end.

(** [pegtl::eol], a line feed or a carriage return and a line feed. *)
Definition eol : rule := fun st s =>
  match s with
  | c :: t =>
      if c =? 10 then (st, Some t)
      else if c =? 13 then
        match t with
        | c' :: t' => if c' =? 10 then (st, Some t') else (st, None)
        | [] => (st, None)
        end
      else (st, None)
  | [] => (st, None)
  end.

Definition eolf : rule := fun st s =>
  match s with
  | [] => (st, Some [])
  | _ => eol st s
  end.

(** [pegtl::utf8::bom] *)
Definition bom : rule := lit [0xef; 0xbb; 0xbf].

Fixpoint seq (rs : list rule) : rule := fun st s =>
  match rs with
  | [] => (st, Some s)
  | r :: rs' =>
      match r st s with
      | (st', Some s') => seq rs' st' s'
      | (st', None) => (st', None)
      end
  end.

Fixpoint sor (rs : list rule) : rule := fun st s =>
  match rs with
  | [] => (st, None)
  | r :: rs' =>
      match r st s with
      | (st', Some s') => (st', Some s')
      | (st', None) => sor rs' st' s
      end
  end.

Definition opt (r : rule) : rule := fun st s =>
  match r st s with
  | (st', Some s') => (st', Some s')
  | (st', None) => (st', Some s)
  end.

(** [pegtl::not_at<r>] runs [r] with the actions switched off and consumes
    nothing. *)
Definition not_at (r : rule) : rule := fun st s =>
  match r st s with
  | (_, Some _) => (st, None)
  | (_, None) => (st, Some s)
  end.

(** [pegtl::until<c>]: bump one byte at a time until [c] matches; the end
    of the input before that is a failure. *)
Fixpoint until (c : rule) (st : St) (s : list Z) : St * option (list Z) :=
  match c st s with
  | (st', Some s') => (st', Some s')
  | (st', None) =>
      match s with
      | [] => (st', None)
      | _ :: t => until c st' t
      end
  end.

(** [pegtl::star<r>].  The loop of PEGTL ends when [r] fails; [n] bounds
    the number of rounds, and running out of it is no result at all. *)
Fixpoint star_n (n : nat) (r : rule) (st : St) (s : list Z) : option (St * option (list Z)) :=
  match r st s with
  | (st', None) => Some (st', Some s)
  | (st', Some s') =>
      match n with
      | O => None
      | S n' => star_n n' r st' s'
      end
  end.

(** A round of a rule that consumes input shortens it, so that [length s]
    rounds are enough; a rule that matches without consuming makes PEGTL
    loop for ever, which is a failure here. *)
Definition star (r : rule) : rule := fun st s =>
  match star_n (length s) r st s with
  | Some res => res
  | None => (st, None)
  end.

Definition plus (r : rule) : rule := seq [r; star r].

(** A rule with an action: when the rule matches, [f] is applied to the
    text it matched and to the byte that follows it in the buffer (the
    terminating NUL at the end of the input). *)
Definition action (r : rule) (f : list Z -> Z -> St -> St) : rule := fun st s =>
  match r st s with
  | (st', Some s') =>
      (f (take (length s - length s') s) (default 0 (head s')) st', Some s')
  | (st', None) => (st', None)
  end.

End Rules.

Arguments rule : clear implicits.

End Peg.

(** ** The reader of the [.p8] format: [struct p8_reader] *)

Module P8Reader.
Import Text Peg.

(** [enum class section : int8_t], as the values of its enumerators. *)
Definition section_error : Z := -1.
Definition section_header : Z := 0.
Definition section_lua : Z := 1.
Definition section_gfx : Z := 2.
Definition section_gff : Z := 3.
Definition section_map : Z := 4.
Definition section_sfx : Z := 5.
Definition section_mus : Z := 6.
Definition section_lab : Z := 7.

Record p8_reader : Type := {
  m_version : Z;
  m_current_section : Z;
  m_sections : gmap Z (list Z);
  m_code : list Z;
}.

(** [r.m_sections[k]] read as a value: a key that is absent stands for the
    empty vector that [operator[]] makes. *)
Definition section_get (k : Z) (m : gmap Z (list Z)) : list Z := default [] (m !! k).

(** [action<r_version>] *)
Definition action_version (matched : list Z) (next : Z) (r : p8_reader) : p8_reader :=
  {| m_version := atoi (c_str matched);
     m_current_section := m_current_section r;
     m_sections := m_sections r;
     m_code := m_code r |}.

(** [in.string().find(w) != std::string::npos] *)
Definition contains (s w : list Z) : bool :=
  match string_find s w (Some 0%nat) with Some _ => true | None => false end.

(** [action<r_section_name>] *)
Definition action_section_name (matched : list Z) (next : Z) (r : p8_reader) : p8_reader :=
  let sec :=
    if contains matched (str "lua") then section_lua
    else if contains matched (str "gfx") then section_gfx
    else if contains matched (str "gff") then section_gff
    else if contains matched (str "map") then section_map
    else if contains matched (str "sfx") then section_sfx
    else if contains matched (str "music") then section_mus
    else if contains matched (str "label") then section_lab
    else section_error in
  {| m_version := m_version r;
     m_current_section := sec;
     m_sections := m_sections r;
     m_code := m_code r |}.

(** The loop of [action<r_data>] over the bytes of a data block, from the
    position of [parser] on; [next] is the byte behind the block, which
    [parser[1]] reaches when the last byte of the block is a digit. *)
Fixpoint decode_data (is_swapped is_base32 : bool) (next : Z) (s : list Z) : list Z :=
  match s with
  | [] => []
  | c0 :: t =>
      if is_base32 then
        let b :=
          if (ch "0" <=? c0) && (c0 <=? ch "9") then c0 - ch "0"
          else if (ch "a" <=? c0) && (c0 <=? ch "v") then c0 - ch "a" + 10
          else if (ch "A" <=? c0) && (c0 <=? ch "V") then c0 - ch "A" + 10
          else -1 in
        if 0 <=? b then uint8 b :: decode_data is_swapped is_base32 next t
        else decode_data is_swapped is_base32 next t
      else if ((ch "a" <=? c0) && (c0 <=? ch "f"))
           || ((ch "A" <=? c0) && (c0 <=? ch "F"))
           || ((ch "0" <=? c0) && (c0 <=? ch "9")) then
        match t with
        | c1 :: t' =>
            uint8 (strtoul16 (c_str (if is_swapped then [c1; c0] else [c0; c1])))
            :: decode_data is_swapped is_base32 next t'
        | [] =>
            [uint8 (strtoul16 (c_str (if is_swapped then [next; c0] else [c0; next])))]
        end
      else decode_data is_swapped is_base32 next t
  end.

(** The test of [action<r_data>] for a hexadecimal digit. *)
Definition is_hex (c : Z) : bool :=
  ((ch "a" <=? c) && (c <=? ch "f"))
  || ((ch "A" <=? c) && (c <=? ch "F"))
  || ((ch "0" <=? c) && (c <=? ch "9")).

(** The decoding of a data line in the words of the specification, for a
    line from which the characters that are no hexadecimal digits were
    removed: the digits are paired left to right, and the two digits of a
    pair are swapped in the gfx section. *)
Fixpoint hex_pairs (is_swapped : bool) (digits : list Z) : list Z :=
  match digits with
  | d0 :: d1 :: t =>
      (if is_swapped then 16 * xdigit_val d1 + xdigit_val d0
       else 16 * xdigit_val d0 + xdigit_val d1)
      :: hex_pairs is_swapped t
  | _ => []
  end.

(** A line in which no pair of digits is split: a digit where [parser]
    stands is followed by a digit. *)
Fixpoint pair_aligned (s : list Z) : bool :=
  match s with
  | [] => true
  | c0 :: t =>
      if is_hex c0 then
        match t with
        | c1 :: t' => is_hex c1 && pair_aligned t'
        | [] => false
        end
      else pair_aligned t
  end.

(** [action<r_data>] *)
Definition action_data (matched : list Z) (next : Z) (r : p8_reader) : p8_reader :=
  if m_current_section r =? section_lua then
    {| m_version := m_version r;
       m_current_section := m_current_section r;
       m_sections := m_sections r;
       m_code := m_code r ++ remove_crlf matched |}
  else
    let is_swapped := m_current_section r =? section_gfx in
    let is_base32 := m_current_section r =? section_lab in
    let k := m_current_section r in
    {| m_version := m_version r;
       m_current_section := m_current_section r;
       m_sections :=
         <[k := section_get k (m_sections r) ++ decode_data is_swapped is_base32 next matched]>
           (m_sections r);
       m_code := m_code r |}.

(** The grammar. *)
Definition r_lua : rule p8_reader := lit (str "__lua__").
Definition r_gfx : rule p8_reader := lit (str "__gfx__").
Definition r_gff : rule p8_reader := lit (str "__gff__").
Definition r_map : rule p8_reader := lit (str "__map__").
Definition r_sfx : rule p8_reader := lit (str "__sfx__").
Definition r_mus : rule p8_reader := lit (str "__music__").
Definition r_lab : rule p8_reader := lit (str "__label__").
Definition r_any : rule p8_reader := seq [two (ch "_"); plus alnum; two (ch "_")].

Definition r_section_name : rule p8_reader :=
  action (sor [r_lua; r_gfx; r_gff; r_map; r_sfx; r_mus; r_lab; r_any])
         action_section_name.
Definition r_section_line : rule p8_reader := seq [r_section_name; eolf].

Definition r_data_line : rule p8_reader := until eolf.
Definition r_data : rule p8_reader :=
  action (star (seq [not_at r_section_line; not_at eof; r_data_line])) action_data.

Definition r_section : rule p8_reader := seq [r_section_line; r_data].
Definition r_version : rule p8_reader := action (star digit) action_version.

Definition r_header : rule p8_reader :=
  seq [lit (str "pico-8 cartridge"); until eol;
       lit (str "version "); r_version; until eol].
Definition r_file : rule p8_reader :=
  seq [opt bom;
       r_header;
       r_data; (* data before the first section is ignored *)
       star r_section;
       eof].

(** Whether the grammar takes the line [line], given without the line
    feed that ends it, for the marker of a section. *)
Definition is_marker (line : list Z) : bool :=
  match snd (r_section_line
               {| m_version := 0; m_current_section := 0; m_sections := ∅; m_code := [] |}
               (line ++ [10])) with
  | Some _ => true
  | None => false
  end.

(** The lines of a text: a line feed ends a line, and what follows the
    last line feed is a line too, empty when the text ends with a line
    feed. *)
Fixpoint split_lines (s : list Z) : list (list Z) :=
  match s with
  | [] => [[]]
  | c :: t =>
      if c =? 10 then [] :: split_lines t
      else match split_lines t with
           | l :: ls => (c :: l) :: ls
           | [] => [[c]]
           end
  end.

(** A new [p8_reader]: [m_version] is -1, the maps are empty, and
    [m_current_section] has no initialiser: it holds whatever [int8_t] the
    stack had, [garbage] here. *)
Definition new_reader (garbage : Z) : p8_reader :=
  {| m_version := -1;
     m_current_section := garbage;
     m_sections := ∅;
     m_code := [] |}.

(** [p8_reader::parse]: the reader after the parse; the result of
    [pegtl::parse] is not looked at. *)
Definition parse (r : p8_reader) (s : list Z) : p8_reader := fst (r_file r s).

End P8Reader.

(** ** The cartridge: [class cart] of [cart.cpp] *)

(** [lol::u8vec4]: four [uint8_t] components and the arithmetic on them,
    component by component in [uint8_t]. *)
Module Vec.
Import Text.

Record u8vec4 : Type := mk { r : Z; g : Z; b : Z; a : Z }.

Definition zero : u8vec4 := mk 0 0 0 0.

(** The constructor from four integers. *)
Definition make (x y z w : Z) : u8vec4 := mk (uint8 x) (uint8 y) (uint8 z) (uint8 w).

Definition map2 (f : Z -> Z -> Z) (p q : u8vec4) : u8vec4 :=
  mk (uint8 (f (r p) (r q))) (uint8 (f (g p) (g q)))
     (uint8 (f (b p) (b q))) (uint8 (f (a p) (a q))).

Definition splat (k : Z) : u8vec4 := mk (uint8 k) (uint8 k) (uint8 k) (uint8 k).

Definition add : u8vec4 -> u8vec4 -> u8vec4 := map2 Z.add.
Definition div : u8vec4 -> u8vec4 -> u8vec4 := map2 Z.div.
Definition mul_s (p : u8vec4) (k : Z) : u8vec4 := map2 Z.mul p (splat k).
Definition div_s (p : u8vec4) (k : Z) : u8vec4 := map2 Z.div p (splat k).

(** [image.data()] cast to a pointer to [u8vec4]: the bytes of an image,
    four by four. *)
Fixpoint of_bytes (image : list Z) : list u8vec4 :=
  match image with
  | x0 :: x1 :: x2 :: x3 :: t => mk x0 x1 x2 x3 :: of_bytes t
  | _ => []
  end.

Definition to_bytes (pixels : list u8vec4) : list Z :=
  flat_map (fun p => [r p; g p; b p; a p]) pixels.

End Vec.

Module Cart.
Import Text Memory.

(** What [cart.cpp] takes from the rest of ZEPTO-8: the constants of
    [pico8.h] and [cart.h], the code compressor, the character set tables
    and the palette. *)
Class Externals : Type := {
  PICO8_VERSION : Z;
  LABEL_WIDTH : Z;
  LABEL_HEIGHT : Z;
  LABEL_X : Z;
  LABEL_Y : Z;
  (** [code::decompress], given the bytes from the start of the code
      section to the end of the memory *)
  code_decompress : list Z -> list Z;
  code_compress : list Z -> list Z;
  utf8_to_pico8 : list Z -> list Z;
  pico8_to_utf8 : list Z -> list Z;
  (** [palette::best(p, 32)] *)
  palette_best : Vec.u8vec4 -> Z;
  palette_get8 : Z -> Vec.u8vec4;
}.

(** What QuickJS gives for the value at an index of the parsed array. *)
Inductive js_element : Type :=
| JsUndefined
| JsUint32 (x : Z)       (* [JS_ToUint32] succeeds with [x] *)
| JsNotUint32.           (* [JS_ToUint32] fails *)

Inductive js_value : Type :=
| JsException
| JsArray (elements : list js_element)
| JsOther.

(** The outside of a call: the files, the PNG codec, the JSON parser, and
    the byte found in the uninitialised [m_current_section] of a new
    [p8_reader]. *)
Record world : Type := {
  get_data_path : list Z -> list Z;
  (** [lol::file::read]: the contents, [None] when it fails *)
  file_read : list Z -> option (list Z);
  (** [lodepng::decode]: error, width, height and the RGBA bytes *)
  lodepng_decode : list Z -> Z * Z * Z * list Z;
  (** [lodepng::encode]: its error code *)
  lodepng_encode : list Z -> list Z -> Z -> Z -> Z;
  JS_ParseJSON : list Z -> js_value;
  stack_garbage : Z;
}.

Record cart : Type := {
  m_rom : list Z;
  m_code : list Z;
  m_label : list Z;
  m_lua : list Z;
}.

(** [memcpy(dst + off, src, n)] on the bytes [dst] of an object. *)
Definition memcpy (dst : list Z) (off : Z) (src : list Z) (n : Z) : list Z :=
  take (Z.to_nat off) dst ++ take (Z.to_nat n) src
  ++ drop (Z.to_nat off + length (take (Z.to_nat n) src)) dst.

(** [memset(&m_rom, 0, sizeof(m_rom))] *)
Definition zero_rom : list Z := replicate (Z.to_nat size) 0.

(** [v[n]] for a vector of bytes or pixels. *)
Definition vec_at (v : list Z) (n : Z) : Z := peek v n.

Section WithExternals.
Context `{Externals}.

(** Modelled from the spec: [cart::get_code] is defined in [cart.h], which
    is not part of the sources at hand; the specification has the
    cartridge hold one decoded script text, which the accessor returns. *)
Definition get_code (c : cart) : list Z := m_code c.

(** Modelled from the spec: [song_t::sfx] is defined outside [memory.h];
    the specification has each byte of a song entry hold a 7-bit sound
    effect index, the music section being written with the bytes masked to
    7 bits. [d] is the array [data] of the entry. *)
Definition song_sfx (d : Z -> Z) (n : Z) : Z := Z.land (d n) 0x7f.

(** *** [cart::set_bin] *)
Definition set_bin (bytes : list Z) (c : cart) : cart :=
  let rom := take (Z.to_nat size) bytes in
  {| m_rom := rom;
     (* Retrieve code, with optional decompression *)
     m_code := code_decompress (drop (Z.to_nat code_off) rom);
     m_label := m_label c;
     (* Invalidate code cache *)
     m_lua := [] |}.

(** *** [cart::load_png] *)

(** The body of the first loop: the byte that pixel [p] carries. *)
Definition pixel_byte (px : Vec.u8vec4) : Z :=
  let p := Vec.mul_s px 64 in
  uint8 (Vec.a p + Vec.r p / 4 + Vec.g p / 16 + Vec.b p / 64).

Definition pixel_at (pixels : list Vec.u8vec4) (n : Z) : Vec.u8vec4 :=
  if n <? 0 then Vec.zero else default Vec.zero (pixels !! Z.to_nat n).

Definition uint32 (x : Z) : Z := x mod 2 ^ 32.

Definition load_png (w : world) (filename : list Z) (c : cart) : bool * cart :=
  (* Open cartridge as PNG image *)
  let '(error, width, height, image) := lodepng_decode w filename in
  if negb (error =? 0) then (false, c)
  else if negb (uint32 (width * height) =? 160 * 205) then (false, c)
  else
    let pixels := Vec.of_bytes image in
    (* Retrieve cartridge data from lower image bits *)
    let bytes := map (fun n => pixel_byte (pixel_at pixels n)) (seqZ 0 (size + 5)) in
    (* Retrieve label from image pixels *)
    let label :=
      if (LABEL_WIDTH + LABEL_X <=? width) && (LABEL_HEIGHT + LABEL_Y <=? height) then
        flat_map (fun y =>
          map (fun x => palette_best (pixel_at pixels ((y + LABEL_Y) * width + (x + LABEL_X))))
              (seqZ 0 LABEL_WIDTH))
          (seqZ 0 LABEL_HEIGHT)
      else m_label c in
    (true, set_bin bytes {| m_rom := m_rom c; m_code := m_code c;
                            m_label := label; m_lua := m_lua c |}).

(** *** [cart::load_lua] *)
Definition load_lua (w : world) (filename : list Z) (c : cart) : bool * cart :=
  match file_read w (get_data_path w filename) with
  | None => (false, c)
  | Some code =>
      (* Remove CRLF for internal consistency *)
      let code := remove_crlf code in
      (true, {| m_rom := zero_rom; m_code := utf8_to_pico8 code;
                m_label := m_label c; m_lua := m_lua c |})
  end.

(** *** [cart::load_js] *)

(** The loop that reads the array: it stops at the first index that is
    undefined or that has no [uint32_t] value, and at [bytes.size()]. *)
Fixpoint js_fill (elements : list js_element) (i : nat) (bytes : list Z) : list Z :=
  match elements with
  | JsUint32 x :: t =>
      if (i <? length bytes)%nat then js_fill t (S i) (<[i := uint8 x]> bytes) else bytes
  | _ => bytes
  end.

Definition load_js (w : world) (filename : list Z) (c : cart) : bool * cart :=
  match file_read w (get_data_path w filename) with
  | None => (false, c)
  | Some code =>
      (* Find cart data *)
      let start := string_find code (str "[") (string_find code (str "var _cartdat=") (Some 0%nat)) in
      let end_ := string_find code (str "]") start in
      match start, end_ with
      | Some start, Some end_ =>
          let bytes := replicate (Z.to_nat (size + 5)) 0 in
          let bin := JS_ParseJSON w (take (end_ + 1 - start) (drop start code)) in
          match bin with
          | JsArray elements => (true, set_bin (js_fill elements 0 bytes) c)
          | _ => (false, c)
          end
      | _, _ => (false, c)
      end
  end.

(** *** [cart::load_p8] *)

Definition len (v : list Z) : Z := Z.of_nat (length v).

(** One round of the loop over the songs. *)
Definition load_song (mus : list Z) (rom : list Z) (i : Z) : list Z :=
  let data n := song_off + sizeof_song_t * i + n in
  let rom := poke rom (data 0)
    (Z.lor (vec_at mus (i * 5 + 1)) (Z.land (Z.shiftl (vec_at mus (i * 5)) 7) 0x80)) in
  let rom := poke rom (data 1)
    (Z.lor (vec_at mus (i * 5 + 2)) (Z.land (Z.shiftl (vec_at mus (i * 5)) 6) 0x80)) in
  let rom := poke rom (data 2)
    (Z.lor (vec_at mus (i * 5 + 3)) (Z.land (Z.shiftl (vec_at mus (i * 5)) 5) 0x80)) in
  poke rom (data 3)
    (Z.lor (vec_at mus (i * 5 + 4)) (Z.land (Z.shiftl (vec_at mus (i * 5)) 4) 0x80)).

(** The 20 bits of note [j] of sound effect [i] in the bytes of the sfx
    section. *)
Definition note_bits (sfx : list Z) (i j : Z) : Z :=
  let ins :=
    Z.lor (Z.lor (Z.shiftl (vec_at sfx (4 + i * (4 + 80) + j * 5 / 2 + 0)) 16)
                 (Z.shiftl (vec_at sfx (4 + i * (4 + 80) + j * 5 / 2 + 1)) 8))
          (vec_at sfx (4 + i * (4 + 80) + j * 5 / 2 + 2)) in
  (* We read unaligned data; must realign it if j is odd *)
  if negb (Z.land j 1 =? 0) then Z.land ins 0xfffff else Z.shiftr ins 4.

Definition note_key (ins : Z) : Z := Z.shiftr (Z.land ins 0x3f000) 12.
Definition note_instrument (ins : Z) : Z := Z.shiftr (Z.land ins 0x700) 8.
Definition note_volume (ins : Z) : Z := Z.shiftr (Z.land ins 0x70) 4.
Definition note_effect (ins : Z) : Z := Z.land ins 0xf.

(** One round of the inner loop: the four bit-fields of [notes[j]]. *)
Definition load_note (sfx : list Z) (i : Z) (rom : list Z) (j : Z) : list Z :=
  let ins := note_bits sfx i j in
  let note := sfx_off + sizeof_sfx_t * i + sizeof_note_t * j in
  store_note rom note (note_key ins) (note_instrument ins) (note_volume ins) (note_effect ins).

(** One round of the loop over the sound effects. *)
Definition load_sfx (sfx : list Z) (rom : list Z) (i : Z) : list Z :=
  let rom := fold_left (load_note sfx i) (seqZ 0 32) rom in
  let entry := sfx_off + sizeof_sfx_t * i in
  let rom := poke rom (entry + editor_mode_off) (vec_at sfx (i * (4 + 32 * 5 / 2) + 0)) in
  let rom := poke rom (entry + speed_off) (vec_at sfx (i * (4 + 32 * 5 / 2) + 1)) in
  let rom := poke rom (entry + loop_start_off) (vec_at sfx (i * (4 + 32 * 5 / 2) + 2)) in
  poke rom (entry + loop_end_off) (vec_at sfx (i * (4 + 32 * 5 / 2) + 3)).

(** The part of [load_p8] after the parse, from the section buffers of the
    reader to the memory.  First the sections that are copied as they
    are. *)
Definition copy_sections (sections : gmap Z (list Z)) : list Z :=
  let rom := zero_rom in
  let gfx := P8Reader.section_get P8Reader.section_gfx sections in
  let gff := P8Reader.section_get P8Reader.section_gff sections in
  let map := P8Reader.section_get P8Reader.section_map sections in
  (* The optional second chunk of gfx is contiguous, we can copy it directly *)
  let rom := memcpy rom gfx_off gfx (Z.min gfx_size (len gfx)) in
  let rom := memcpy rom gfx_props_off gff (Z.min gfx_props_size (len gff)) in
  (* Map data + optional second chunk *)
  let rom := memcpy rom map_off map (Z.min map_size (len map)) in
  if map_size <? len map then
    let map2_count := Z.min map2_size (len map - map_size) in
    (* Use binary OR because some old versions of PICO-8 would store
       a full gfx+gfx2 section AND a full map+map2 section, so we cannot
       really decide which one is relevant. *)
    fold_left (fun rom i =>
        poke rom (map2_ref i) (Z.lor (peek rom (map2_ref i)) (vec_at map (map_size + i))))
      (seqZ 0 map2_count) rom
  else rom.

(** Then the songs and the sound effects. *)
Definition rom_of_sections (sections : gmap Z (list Z)) : list Z :=
  let rom := copy_sections sections in
  let sfx := P8Reader.section_get P8Reader.section_sfx sections in
  let mus := P8Reader.section_get P8Reader.section_mus sections in
  (* Song data is encoded slightly differently *)
  let song_count := Z.min (song_size / 4) (len mus / 5) in
  let rom := fold_left (load_song mus) (seqZ 0 song_count) rom in
  (* SFX data is packed *)
  let sfx_count := Z.min (sfx_size / (4 + 32 * 2)) (len sfx / (4 + 32 * 5 / 2)) in
  fold_left (load_sfx sfx) (seqZ 0 sfx_count) rom.

Definition load_p8 (w : world) (filename : list Z) (c : cart) : bool * cart :=
  match file_read w (get_data_path w filename) with
  | None => (false, c)
  | Some s =>
      let reader := P8Reader.parse (P8Reader.new_reader (stack_garbage w)) (c_str s) in
      if P8Reader.m_version reader <? 0 then (false, c)
      else
        let lab := P8Reader.section_get P8Reader.section_lab (P8Reader.m_sections reader) in
        (true,
         {| m_rom := rom_of_sections (P8Reader.m_sections reader);
            (* PICO-8 saves some symbols in the .p8 file as Emoji/Unicode
               characters but the runtime expects 8-bit characters instead. *)
            m_code := utf8_to_pico8 (P8Reader.m_code reader);
            (* Optional cartridge label *)
            m_label := take (Z.to_nat (Z.min (len lab) (LABEL_WIDTH * LABEL_HEIGHT))) lab;
            (* Invalidate code cache *)
            m_lua := [] |})
  end.

(** *** [cart::load] *)
Definition load (w : world) (filename : list Z) (c : cart) : bool * cart :=
  let has_ext (e : string) : bool := ends_with (tolower filename) (str e) in
  let '(ok, c) := if has_ext ".p8"%string then load_p8 w filename c else (false, c) in
  if ok then (true, c)
  else
    let '(ok, c) := if has_ext ".lua"%string then load_lua w filename c else (false, c) in
    if ok then (true, c)
    else
      let '(ok, c) := if has_ext ".png"%string then load_png w filename c else (false, c) in
      if ok then (true, c)
      else
        let '(ok, c) := if has_ext ".js"%string then load_js w filename c else (false, c) in
        if ok then (true, c) else (false, c).

(** *** [cart::get_bin] *)

(** [v.resize(n)] *)
Definition resize (v : list Z) (n : Z) : list Z :=
  take (Z.to_nat n) v ++ replicate (Z.to_nat n - length v) 0.

Definition get_bin (c : cart) : list Z :=
  let data_size := code_off in
  (* Create ROM image *)
  let ret := [] in
  (* Copy data to ROM *)
  let ret := resize ret data_size in
  let ret := memcpy ret 0 (m_rom c) data_size in
  (* Copy code to ROM *)
  let compressed := code_compress (m_code c) in
  let ret := ret ++ compressed in
  let ret := resize ret size in
  ret ++ [uint8 PICO8_VERSION].

Definition get_compressed_code (c : cart) : list Z := code_compress (m_code c).

(** *** [cart::save_png] *)

(** The body of the last loop: the pixel that carries [byte]. *)
Definition embed_pixel (px : Vec.u8vec4) (byte : Z) : Vec.u8vec4 :=
  let p := Vec.make (Z.land byte 0x30) (Z.land byte 0x0c) (Z.land byte 0x03) (Z.land byte 0xc0) in
  Vec.add (Vec.mul_s (Vec.div_s px 4) 4) (Vec.div p (Vec.make 16 4 1 64)).

Definition set_pixel (pixels : list Vec.u8vec4) (n : Z) (p : Vec.u8vec4) : list Vec.u8vec4 :=
  if n <? 0 then pixels else <[Z.to_nat n := p]> pixels.

(** Write ROM to lower image bits *)
Definition write_rom (rom : list Z) (pixels : list Vec.u8vec4) : list Vec.u8vec4 :=
  fold_left (fun pixels n => set_pixel pixels n (embed_pixel (pixel_at pixels n) (vec_at rom n)))
            (seqZ 0 (len rom)) pixels.

(** Apply label *)
Definition apply_label (label : list Z) (width : Z) (pixels : list Vec.u8vec4)
    : list Vec.u8vec4 :=
  if LABEL_WIDTH * LABEL_HEIGHT <=? len label then
    fold_left (fun pixels y =>
        fold_left (fun pixels x =>
            let col := Z.land (vec_at label (y * LABEL_WIDTH + x)) 0x1f in
            set_pixel pixels ((y + LABEL_Y) * width + (x + LABEL_X)) (palette_get8 col))
          (seqZ 0 LABEL_WIDTH) pixels)
      (seqZ 0 LABEL_HEIGHT) pixels
  else pixels.

(** The image that [save_png] hands to the encoder, from the blank one. *)
Definition png_image (c : cart) (width : Z) (blank : list Z) : list Z :=
  Vec.to_bytes (write_rom (get_bin c) (apply_label (m_label c) width (Vec.of_bytes blank))).

Definition save_png (w : world) (filename : list Z) (c : cart) : bool :=
  (* Open blank cartridge *)
  let '(error, width, height, image) :=
    lodepng_decode w (get_data_path w (str "data/blank.png")) in
  if negb (error =? 0) then false
  else
    let error := lodepng_encode w filename (png_image c width image) width height in
    if negb (error =? 0) then false else true.

(** *** [cart::save_p8] *)

(** The loops that look for the last line of a section with a byte that is
    not zero: [n] bytes, [per_line] bytes a line, byte [i] read by [at_]. *)
Definition count_lines (n per_line : Z) (at_ : Z -> Z) : Z :=
  fold_left (fun lines i => if negb (at_ i =? 0) then 1 + i / per_line else lines)
            (seqZ 0 n) 0.

Definition nl : list Z := [10].

(** The lines of a section, the name of the section before the first. *)
Definition section_text (name : string) (lines : Z) (line_text : Z -> list Z) : list Z :=
  flat_map (fun line => (if line =? 0 then str name ++ nl else []) ++ line_text line)
           (seqZ 0 lines).

(** A line of the gfx section: 64 bytes [data 0 .. data 63], each with its
    nibbles exchanged. *)
Definition gfx_line_text (data : Z -> Z) : list Z :=
  flat_map (fun i => format_x 2 (uint8 (data i * 0x101 / 0x10))) (seqZ 0 64) ++ nl.

Definition gfx_text (rom : list Z) : list Z :=
  let data line i := peek rom (gfx_off + 64 * line + i) in
  let gfx_lines := count_lines gfx_size 64 (fun i => data (i / 64) (i mod 64)) in
  section_text "__gfx__" gfx_lines (fun line => gfx_line_text (data line)).

Definition label_text (label : list Z) : list Z :=
  if LABEL_WIDTH * LABEL_HEIGHT <=? len label then
    str "__label__" ++ nl
    ++ flat_map (fun i =>
         let col := vec_at label i in
         vec_at (str "0123456789abcdefghijklmnopqrstuv") (Z.land col 0x1f)
         :: (if (i + 1) mod LABEL_WIDTH =? 0 then nl else []))
       (seqZ 0 (LABEL_WIDTH * LABEL_HEIGHT))
    ++ nl
  else [].

(** A line of the gff and of the map section: 128 bytes. *)
Definition hex_line_text (data : Z -> Z) : list Z :=
  flat_map (fun i => format_x 2 (data i)) (seqZ 0 128) ++ nl.

Definition gff_text (rom : list Z) : list Z :=
  let gfx_props i := peek rom (gfx_props_off + i) in
  let gff_lines := count_lines gfx_props_size 128 gfx_props in
  section_text "__gff__" gff_lines (fun line =>
    hex_line_text (fun i => gfx_props (128 * line + i))).

(** Only serialise m_rom.map, because m_rom.map2 overlaps with m_rom.gfx
    which has already been serialised. *)
Definition map_text (rom : list Z) : list Z :=
  let map i := peek rom (map_off + i) in
  let map_lines := count_lines map_size 128 map in
  section_text "__map__" map_lines (fun line =>
    hex_line_text (fun i => map (128 * line + i))).

(** The five digits of the note in the bytes [data j] and [data (j + 1)]
    of a sound effect. *)
Definition sfx_note_text (data : Z -> Z) (j : Z) : list Z :=
  let pitch := Z.land (data j) 0x3f in
  let instrument := Z.lor (Z.land (Z.shiftl (data (j + 1)) 2) 0x4) (Z.shiftr (data j) 6) in
  let volume := Z.land (Z.shiftr (data (j + 1)) 1) 0x7 in
  let effect := Z.land (Z.shiftr (data (j + 1)) 4) 0xf in
  format_x 2 pitch ++ format_x 1 instrument ++ format_x 1 volume ++ format_x 1 effect.

(** A line of the sfx section, from the 68 bytes [data] of a sound
    effect; note [h] is in the bytes [2 * h] and [2 * h + 1]. *)
Definition sfx_line_text (data : Z -> Z) : list Z :=
  format_x 2 (data 64) ++ format_x 2 (data 65) ++ format_x 2 (data 66) ++ format_x 2 (data 67)
  ++ flat_map (fun h => sfx_note_text data (2 * h)) (seqZ 0 32)
  ++ nl.

Definition sfx_text (rom : list Z) : list Z :=
  let sfx_lines := count_lines sfx_size sizeof_sfx_t (fun i => peek rom (sfx_off + i)) in
  section_text "__sfx__" sfx_lines (fun line =>
    sfx_line_text (fun k => peek rom (sfx_off + sizeof_sfx_t * line + k))).

(** A line of the music section, from the 4 bytes [data] of a song. *)
Definition music_line_text (data : Z -> Z) : list Z :=
  let start := bits (data 0) 7 1 in
  let loop := bits (data 1) 7 1 in
  let stop := bits (data 2) 7 1 in
  let mode := bits (data 3) 7 1 in
  let flags := Z.lor (Z.lor (Z.lor start (Z.shiftl loop 1)) (Z.shiftl stop 2)) (Z.shiftl mode 3) in
  format_x 2 flags ++ str " "
  ++ format_x 2 (song_sfx data 0) ++ format_x 2 (song_sfx data 1)
  ++ format_x 2 (song_sfx data 2) ++ format_x 2 (song_sfx data 3) ++ nl.

Definition music_text (rom : list Z) : list Z :=
  let music_lines := count_lines song_size sizeof_song_t (fun i => peek rom (song_off + i)) in
  section_text "__music__" music_lines (fun line =>
    music_line_text (fun n => peek rom (song_off + sizeof_song_t * line + n))).

(** A script that the text format can hold, given as [save_p8] writes
    it, in UTF-8: it has no NUL character, which would end the string that
    [load_p8] parses, and none of its lines is the marker of a section,
    which would end the script there. *)
Definition script_ok (text : list Z) : bool :=
  forallb (fun c => negb (c =? 0)) text
  && forallb (fun line => negb (P8Reader.is_marker line)) (P8Reader.split_lines text).

(** The text that [save_p8] writes. *)
Definition p8_text (c : cart) : list Z :=
  let ret := str "pico-8 cartridge // http://www.pico-8.com" ++ nl in
  let ret := ret ++ str "version " ++ format_d PICO8_VERSION ++ nl in
  let ret := ret ++ str "__lua__" ++ nl in
  let ret := ret ++ pico8_to_utf8 (get_code c) in
  let ret := if negb (default 0 (last ret) =? 10) then ret ++ nl else ret in
  (* Export gfx section *)
  let ret := ret ++ gfx_text (m_rom c) in
  (* Export label *)
  let ret := ret ++ label_text (m_label c) in
  (* Export gff section *)
  let ret := ret ++ gff_text (m_rom c) in
  let ret := ret ++ map_text (m_rom c) in
  (* Export sfx section *)
  let ret := ret ++ sfx_text (m_rom c) in
  (* Export music section *)
  let ret := ret ++ music_text (m_rom c) in
  ret ++ nl.

(** [save_p8]: its result and the file it writes. *)
Definition save_p8 (filename : list Z) (c : cart) : bool * (list Z * list Z) :=
  (true, (filename, p8_text c)).

End WithExternals.

End Cart.

(** ** A concrete setting

    The constants of PICO-8 for the label (a 128x128 picture at (16, 24) of
    the 160x205 image), a code "compressor" that stores the text as it is,
    the character set restricted to the characters that both encodings
    share, and a palette of one colour.  The properties below hold for
    every setting; this one gives them concrete inputs. *)

Module Sample.
Import Text Cart.

#[export] Instance ext : Externals := {|
  PICO8_VERSION := 29;
  LABEL_WIDTH := 128;
  LABEL_HEIGHT := 128;
  LABEL_X := 16;
  LABEL_Y := 24;
  code_decompress := c_str;
  code_compress := fun code => code;
  utf8_to_pico8 := fun s => s;
  pico8_to_utf8 := fun s => s;
  palette_best := fun _ => 0;
  palette_get8 := fun _ => Vec.zero;
|}.

(** A cartridge with nothing in it. *)
Definition empty_cart : cart :=
  {| m_rom := zero_rom; m_code := []; m_label := []; m_lua := [] |}.

(** A world with one file, [name], of contents [text]; no image decodes
    and no JSON parses. *)
Definition one_file (name text : list Z) : world :=
  {| get_data_path := fun f => f;
     file_read := fun f => if bool_decide (f = name) then Some text else None;
     lodepng_decode := fun _ => (1, 0, 0, []);
     lodepng_encode := fun _ _ _ _ => 1;
     JS_ParseJSON := fun _ => JsException;
     stack_garbage := 0 |}.

(** A world in which every image decodes to [image], of the given size,
    and nothing else can be read. *)
Definition one_image (width height : Z) (image : list Z) : world :=
  {| get_data_path := fun f => f;
     file_read := fun _ => None;
     lodepng_decode := fun _ => (0, width, height, image);
     lodepng_encode := fun _ _ _ _ => 1;
     JS_ParseJSON := fun _ => JsException;
     stack_garbage := 0 |}.

(** A cartridge with an empty memory and the script [code]. *)
Definition script_cart (code : list Z) : cart :=
  {| m_rom := zero_rom; m_code := code; m_label := []; m_lua := [] |}.

(** A cartridge with a pixel, a map cell, a sprite flag, a song and a note
    in its memory, and a script of one line. *)
Definition painted_cart : cart :=
  {| m_rom :=
       Memory.poke (Memory.poke (Memory.poke (Memory.poke (Memory.poke zero_rom
         (Memory.gfx_off + 65) 0x12) (Memory.map_off + 130) 0x34)
         (Memory.gfx_props_off + 3) 0x56) (Memory.song_off + 5) 0x85)
         (Memory.sfx_off + Memory.sizeof_sfx_t + 3) 0x7b;
     m_code := str "x=1";
     m_label := [];
     m_lua := [] |}.

End Sample.

(** ** The pixel that the hardware shows: [memory::pixel] *)

Module Display.
Import Text Memory.

(** The offset of a member of a member. *)
Fixpoint path_off (t : Layout.ctype) (path : list string) : Z :=
  match path with
  | [] => 0
  | nm :: rest =>
      match Layout.find_member nm t with
      | Some (o, t') => o + path_off t' rest
      | None => -1
      end
  end.

Definition screen_palette_off : Z := Eval vm_compute in path_off Layout.memory ["draw_state"; "screen_palette"]%string.
Definition screen_mode_off : Z := Eval vm_compute in path_off Layout.memory ["draw_state"; "screen_mode"]%string.
Definition raster_mode_off : Z := Eval vm_compute in path_off Layout.memory ["hw_state"; "raster"; "mode"]%string.
Definition raster_palette_off : Z := Eval vm_compute in path_off Layout.memory ["hw_state"; "raster"; "palette"]%string.

(** Apply screen mode (rotation, mirror, flip...): the coordinates that
    the screen is read at.  [x] and [y] are [int]; [x / 2] rounds towards
    zero. *)
Definition screen_coords (mode x y : Z) : Z * Z :=
  if Z.land mode 0xbc =? 0x84 then
    (* Rotation modes (0x84 to 0x87) *)
    let '(x, y) := if negb (Z.land mode 1 =? 0) then (y, x) else (x, y) in
    let x := if negb (Z.land mode 2 =? 0) then 127 - x else x in
    let y := if negb (Z.land (mode + 1) 2 =? 0) then 127 - y else y in
    (x, y)
  else
    (* Other modes *)
    let x := if Z.land mode 0xbd =? 0x05 then Z.min x (127 - x)   (* mirror *)
             else if Z.land mode 0xbd =? 0x01 then Z.quot x 2      (* stretch *)
             else if Z.land mode 0xbd =? 0x81 then 127 - x else x in (* flip *)
    let y := if Z.land mode 0xbe =? 0x06 then Z.min y (127 - y)   (* mirror *)
             else if Z.land mode 0xbe =? 0x02 then Z.quot y 2      (* stretch *)
             else if Z.land mode 0xbe =? 0x82 then 127 - y else y in (* flip *)
    (x, y).

(** The entry of the raster palette that the gradient mode shows on line
    [y], [bit] being [hw_state.raster.bits[y]]. *)
Definition gradient_index (bit : bool) (y : Z) : Z :=
  Z.rem (Z.quot y 8 + (if bit then 1 else 0)) 16.

Section Pixel.

(** [screen.get(x, y)] of [u4mat2<128, 128>], which is defined outside
    [memory.h], on the memory [m]. *)
Variable screen_get : list Z -> Z -> Z -> Z.

(** [hw_state.raster.bits[y]] of the [std::bitset<128>] in the memory
    [m]. *)
Variable raster_bit : list Z -> Z -> bool.

(** Hardware pixel accessor *)
Definition pixel (m : list Z) (x y : Z) : Z :=
  (* Get screen mode *)
  let mode := peek m screen_mode_off in
  let '(x, y) := screen_coords mode x y in
  let c := screen_get m x y in
  let rmode := peek m raster_mode_off in
  (* Apply screen palette *)
  let shown := peek m (screen_palette_off + c) in
  (* Apply raster mode *)
  if rmode =? 0x10 then
    (* Raster mode: alternate palette *)
    if raster_bit m y then peek m (raster_palette_off + c) else shown
  else if Z.land rmode 0x30 =? 0x30 then
    (* Raster mode: gradient *)
    if Z.land rmode 0x0f =? c then
      peek m (raster_palette_off + gradient_index (raster_bit m y) y)
    else shown
  else shown.

End Pixel.

End Display.

(** * Properties *)

(** ** Layout of [struct memory] *)

Module LayoutFacts.
Import Layout.

(** The type sizes that [memory.h] asserts. *)
Lemma sizeof_sfx_t : sizeof sfx_t = 68.
Proof. reflexivity. Qed.

Lemma sizeof_code_t : sizeof code_t = 0x3d00.
Proof. reflexivity. Qed.

(** C9: the layout of [struct memory] is the table of the specification.
    Every [static_check_section] of [memory.h] holds, the object is 0x8000
    bytes long, and each section has the offset and the size listed. *)
Theorem memory_layout_constants :
  sizeof memory = 0x8000
  /\ static_check_section "gfx" 0x0000 0x2000 = true
  /\ static_check_section "map2" 0x1000 0x1000 = true
  /\ static_check_section "map" 0x2000 0x1000 = true
  /\ static_check_section "gfx_props" 0x3000 0x100 = true
  /\ static_check_section "song" 0x3100 0x100 = true
  /\ static_check_section "sfx" 0x3200 0x1100 = true
  /\ static_check_section "code" 0x4300 (-1) = true
  /\ static_check_section "user_data" 0x4300 0x1b00 = true
  /\ static_check_section "persistent" 0x5e00 0x100 = true
  /\ static_check_section "draw_state" 0x5f00 0x40 = true
  /\ static_check_section "hw_state" 0x5f40 0x40 = true
  /\ static_check_section "gpio_pins" 0x5f80 0x80 = true
  /\ static_check_section "screen" 0x6000 0x2000 = true
  /\ (offsetof memory "gfx", sizeof_member memory "gfx") = (0x0000, 0x2000)
  /\ (offsetof memory "map2", sizeof_member memory "map2") = (0x1000, 0x1000)
  /\ (offsetof memory "map", sizeof_member memory "map") = (0x2000, 0x1000)
  /\ (offsetof memory "gfx_props", sizeof_member memory "gfx_props") = (0x3000, 0x100)
  /\ (offsetof memory "song", sizeof_member memory "song") = (0x3100, 0x100)
  /\ (offsetof memory "sfx", sizeof_member memory "sfx") = (0x3200, 0x1100)
  /\ offsetof memory "code" = 0x4300
  /\ (offsetof memory "user_data", sizeof_member memory "user_data") = (0x4300, 0x1b00)
  /\ (offsetof memory "persistent", sizeof_member memory "persistent") = (0x5e00, 0x100)
  /\ (offsetof memory "draw_state", sizeof_member memory "draw_state") = (0x5f00, 0x40)
  /\ (offsetof memory "hw_state", sizeof_member memory "hw_state") = (0x5f40, 0x40)
  /\ (offsetof memory "gpio_pins", sizeof_member memory "gpio_pins") = (0x5f80, 0x80)
  /\ (offsetof memory "screen", sizeof_member memory "screen") = (0x6000, 0x2000).
Proof. repeat split; vm_compute; reflexivity. Qed.

End LayoutFacts.

(** ** The accessors of [struct memory] *)

Module MemoryFacts.
Import Memory.

(** Flipping bit 12 of an index below 0x1000 adds 0x1000. *)
Lemma lxor_low (n : Z) : 0 <= n < 0x1000 -> Z.lxor n 0x1000 = n + 0x1000.
Proof.
  intros Hn. symmetry. apply Z.add_nocarry_lxor.
  apply Z.bits_inj'. intros k Hk.
  rewrite Z.land_spec, Z.bits_0.
  destruct (Z.eq_dec k 12) as [->|Hne].
  - rewrite (Z.bits_above_log2 n 12); [reflexivity | lia |].
    destruct (Z.eq_dec n 0) as [->|]; [reflexivity|].
    apply Z.log2_lt_pow2; lia.
  - change 0x1000 with (2 ^ 12). rewrite Z.pow2_bits_eqb by lia.
    destruct (Z.eqb_spec 12 k); [lia|]. apply andb_false_r.
Qed.

(** Flipping bit 12 of an index from 0x1000 to 0x1fff takes 0x1000 off. *)
Lemma lxor_high (n : Z) : 0x1000 <= n < 0x2000 -> Z.lxor n 0x1000 = n - 0x1000.
Proof.
  intros Hn.
  replace n with (Z.lxor (n - 0x1000) 0x1000) at 1
    by (rewrite lxor_low; lia).
  rewrite Z.lxor_assoc, Z.lxor_nilpotent, Z.lxor_0_r. reflexivity.
Qed.

Lemma map_ref_low (n : Z) : 0 <= n < 0x1000 -> map_ref n = Some (map_off + n).
Proof.
  intros Hn. unfold map_ref, map_size, map2_size.
  rewrite lxor_low by lia.
  destruct (Z.leb_spec 0 n); [|lia]. destruct (Z.ltb_spec n (4096 + 4096)); [|lia].
  simpl. f_equal. lia.
Qed.

Lemma map_ref_high (n : Z) : 0x1000 <= n < 0x2000 -> map_ref n = Some n.
Proof.
  intros Hn. unfold map_ref, map_size, map2_size, map_off.
  rewrite lxor_high by lia.
  destruct (Z.leb_spec 0 n); [|lia]. destruct (Z.ltb_spec n (4096 + 4096)); [|lia].
  simpl. f_equal. lia.
Qed.

Lemma map_ref_range (n : Z) : is_Some (map_ref n) <-> 0 <= n < 0x2000.
Proof.
  unfold map_ref, map_size, map2_size.
  destruct (Z.leb_spec 0 n); destruct (Z.ltb_spec n (4096 + 4096)); simpl;
    split; intros Hs; try lia; try (eexists; reflexivity);
    destruct Hs as [? Hs]; discriminate.
Qed.

(** C10: the accessor [map] of [struct memory] reaches [map2], the upper
    half of the graphics, for the indices from 0x1000: for an index [n]
    that its assertion accepts, [map[n]] is the byte at absolute offset
    [0x2000 + n] when [n < 0x1000], and the byte at absolute offset [n],
    which is [map2[n - 0x1000]], from 0x1000 on; this holds for the
    reference that both the const and the non-const accessor return, so
    for reads and writes alike. *)
Theorem map_accessor_aliases_gfx (m : list Z) (n : Z) :
  0 <= n < 0x2000 ->
  is_Some (map_ref n)
  /\ map_ref n = at_ref (if n <? 0x1000 then 0x2000 + n else n)
  /\ map_ref n = Some (if n <? 0x1000 then 0x2000 + n else map2_ref (n - 0x1000))
  /\ load_ref m (map_ref n)
     = Some (peek m (if n <? 0x1000 then 0x2000 + n else map2_ref (n - 0x1000)))
  /\ forall v, store_ref m (map_ref n) v
     = Some (poke m (if n <? 0x1000 then 0x2000 + n else map2_ref (n - 0x1000)) v).
Proof.
  intros Hn. split; [apply map_ref_range; exact Hn|].
  unfold at_ref, map2_ref, map2_off, size.
  destruct (Z.ltb_spec n 0x1000).
  - rewrite map_ref_low by lia. unfold map_off.
    destruct (Z.leb_spec 0 (0x2000 + n)); [|lia].
    destruct (Z.ltb_spec (0x2000 + n) 32768); [|lia].
    simpl. repeat split; f_equal; lia.
  - rewrite map_ref_high by lia.
    destruct (Z.leb_spec 0 n); [|lia].
    destruct (Z.ltb_spec n 32768); [|lia].
    replace (4096 + (n - 4096)) with n by lia.
    simpl. repeat split; f_equal; lia.
Qed.

(** The assertion of the accessor holds for the indices from 0 to 0x1fff
    and for no other. *)
Lemma map_accessor_domain (n : Z) : map_ref n = None <-> ~ (0 <= n < 0x2000).
Proof.
  rewrite <- map_ref_range. destruct (map_ref n); split; intros Hx;
    try discriminate; try reflexivity.
  - exfalso. apply Hx. eexists; reflexivity.
  - intros [? ?]; discriminate.
Qed.

Lemma map_accessor_aliases_gfx_witness :
  0 <= 0x1234 < 0x2000
  /\ load_ref (poke Cart.zero_rom 0x1234 7) (map_ref 0x1234) = Some 7.
Proof.
  split; [lia|].
  destruct (map_accessor_aliases_gfx (poke Cart.zero_rom 0x1234 7) 0x1234)
    as (_ & _ & _ & Hload & _); [lia|].
  rewrite Hload. vm_compute. reflexivity.
Defined.

End MemoryFacts.

Module ByteFacts.
Import Text Memory.

(** *** Exhaustive checks over bytes *)

Lemma forallb_seqZ (P : Z -> bool) (n : Z) :
  forallb P (seqZ 0 n) = true -> forall x, 0 <= x < n -> P x = true.
Proof.
  intros Hall x Hx. rewrite forallb_forall in Hall. apply Hall.
  apply list_elem_of_In, elem_of_seqZ. lia.
Qed.

Lemma forallb2_seqZ (P : Z -> Z -> bool) (n k : Z) :
  forallb (fun x => forallb (P x) (seqZ 0 k)) (seqZ 0 n) = true ->
  forall x y, 0 <= x < n -> 0 <= y < k -> P x y = true.
Proof.
  intros Hall x y Hx Hy.
  apply (forallb_seqZ (P x) k); [|exact Hy].
  apply (forallb_seqZ (fun x => forallb (P x) (seqZ 0 k)) n Hall x Hx).
Qed.

(** *** [peek] and [poke] *)

Lemma length_poke (m : list Z) (n v : Z) : length (poke m n v) = length m.
Proof. unfold poke. destruct (n <? 0); [reflexivity | apply length_insert]. Qed.

Lemma peek_poke_eq (m : list Z) (n v : Z) :
  0 <= n < Z.of_nat (length m) -> peek (poke m n v) n = v mod 256.
Proof.
  intros Hn. unfold peek, poke. destruct (Z.ltb_spec n 0); [lia|].
  rewrite list_lookup_insert_eq by lia. reflexivity.
Qed.

Lemma peek_poke_ne (m : list Z) (n k v : Z) : n <> k -> peek (poke m n v) k = peek m k.
Proof.
  intros Hne. unfold peek, poke.
  destruct (Z.ltb_spec k 0); [reflexivity|].
  destruct (Z.ltb_spec n 0); [reflexivity|].
  rewrite list_lookup_insert_ne by lia. reflexivity.
Qed.

Lemma peek_poke (m : list Z) (n k v : Z) :
  0 <= n < Z.of_nat (length m) ->
  peek (poke m n v) k = if k =? n then v mod 256 else peek m k.
Proof.
  intros Hn. destruct (Z.eqb_spec k n) as [->|Hne].
  - apply peek_poke_eq; exact Hn.
  - apply peek_poke_ne; congruence.
Qed.

Lemma peek_range (m : list Z) (n : Z) :
  Forall (fun b => 0 <= b < 256) m -> 0 <= peek m n < 256.
Proof.
  intros Hm. unfold peek. destruct (n <? 0); [lia|].
  destruct (m !! Z.to_nat n) as [b|] eqn:Hb; simpl; [|lia].
  apply (proj1 (Forall_lookup _ _) Hm _ _ Hb).
Qed.

Lemma peek_outside (m : list Z) (n : Z) : Z.of_nat (length m) <= n -> peek m n = 0.
Proof.
  intros Hn. unfold peek. destruct (n <? 0); [reflexivity|].
  rewrite lookup_ge_None_2 by lia. reflexivity.
Qed.

Lemma poke_range (m : list Z) (n v : Z) :
  Forall (fun b => 0 <= b < 256) m -> Forall (fun b => 0 <= b < 256) (poke m n v).
Proof.
  intros Hm. unfold poke. destruct (n <? 0); [exact Hm|].
  apply Forall_insert; [exact Hm|]. apply Z.mod_pos_bound. lia.
Qed.

(** Two byte arrays of one length with the same byte at every address are
    the same array. *)
Lemma peek_ext (m m' : list Z) :
  length m = length m' ->
  (forall n, 0 <= n < Z.of_nat (length m) -> peek m n = peek m' n) ->
  m = m'.
Proof.
  intros Hlen Hpeek. apply list_eq. intros i.
  destruct (decide (i < length m)%nat) as [Hi|Hi].
  - specialize (Hpeek (Z.of_nat i) ltac:(lia)). unfold peek in Hpeek.
    destruct (Z.ltb_spec (Z.of_nat i) 0); [lia|].
    rewrite Nat2Z.id in Hpeek.
    destruct (lookup_lt_is_Some_2 m i Hi) as [x Hx].
    destruct (lookup_lt_is_Some_2 m' i ltac:(lia)) as [y Hy].
    rewrite Hx, Hy in *. simpl in Hpeek. congruence.
  - rewrite !lookup_ge_None_2 by lia. reflexivity.
Qed.

End ByteFacts.

Module LoopFacts.
Import Text Memory Cart ByteFacts.

Ltac layout :=
  unfold size, gfx_off, gfx_size, map2_off, map2_size, map_off, map_size,
    gfx_props_off, gfx_props_size, song_off, song_size, sfx_off, sfx_size,
    code_off, sizeof_song_t, sizeof_sfx_t, sizeof_code_t, sizeof_note_t,
    editor_mode_off, speed_off, loop_start_off, loop_end_off, map2_ref, len in *.

(** [lia] after the lengths of the lists are made variables. *)
Ltac llia :=
  repeat match goal with
    | |- context [@length ?A ?l] =>
        let n := fresh "n" in set (n := @length A l) in *; clearbody n
    | H : context [@length ?A ?l] |- _ =>
        let n := fresh "n" in set (n := @length A l) in *; clearbody n
    end;
  lia.

Lemma seqZ_snoc (n : Z) : 0 <= n -> seqZ 0 (n + 1) = seqZ 0 n ++ [n].
Proof. intros Hn. rewrite seqZ_app by lia. reflexivity. Qed.

(** A loop whose rounds keep the length keeps it. *)
Lemma fold_length (f : list Z -> Z -> list Z) (l : list Z) (rom : list Z) :
  (forall rom i, length (f rom i) = length rom) ->
  length (fold_left f l rom) = length rom.
Proof.
  intros Hf. revert rom. induction l as [|i l IH]; intros rom; simpl; [reflexivity|].
  rewrite IH. apply Hf.
Qed.

(** A loop whose round [i] writes inside [base + s * i, base + s * (i + 1))
    only leaves every byte outside [base, base + s * cnt) as it was. *)
Lemma fold_frame (f : list Z -> Z -> list Z) (base s cnt : Z) (rom : list Z) (n : Z) :
  0 <= s ->
  (forall rom i n, 0 <= i -> ~ (base + s * i <= n < base + s * (i + 1)) ->
     peek (f rom i) n = peek rom n) ->
  ~ (base <= n < base + s * cnt) ->
  peek (fold_left f (seqZ 0 cnt) rom) n = peek rom n.
Proof.
  intros Hs Hf. destruct (Z.le_gt_cases 0 cnt) as [Hc|Hc].
  2:{ intros _. rewrite seqZ_nil by lia. reflexivity. }
  pattern cnt. apply natlike_ind; [| |exact Hc]; clear cnt Hc.
  - intros _ . reflexivity.
  - intros cnt Hcnt IH Hn. rewrite <- Z.add_1_r, seqZ_snoc by lia.
    rewrite fold_left_app. simpl. rewrite Hf; [apply IH| lia |]; nia.
Qed.

(** A loop whose round [i] sets the [s] bytes from [base + s * i] to
    [g i 0 .. g i (s - 1)], whatever they held, and touches no other. *)
Lemma fold_chunks (f : list Z -> Z -> list Z) (base s : Z) (g : Z -> Z -> Z)
    (Inv : list Z -> Prop) (bound : Z) :
  0 < s -> 0 <= base ->
  (forall rom i, Inv rom -> 0 <= i < bound -> Inv (f rom i)) ->
  (forall rom i n, Inv rom -> 0 <= i < bound ->
     peek (f rom i) n
     = if (base + s * i <=? n) && (n <? base + s * (i + 1))
       then g i (n - (base + s * i)) else peek rom n) ->
  forall cnt rom n, 0 <= cnt <= bound -> Inv rom ->
    Inv (fold_left f (seqZ 0 cnt) rom)
    /\ peek (fold_left f (seqZ 0 cnt) rom) n
       = if (base <=? n) && (n <? base + s * cnt)
         then g ((n - base) / s) ((n - base) mod s) else peek rom n.
Proof.
  intros Hs Hbase Hinv Hf cnt rom n [Hcnt Hbound]. revert Hbound rom.
  pattern cnt. apply natlike_ind; [| |exact Hcnt]; clear cnt Hcnt.
  - intros _ rom HI. split; [exact HI|]. simpl.
    destruct (Z.leb_spec base n); destruct (Z.ltb_spec n (base + s * 0)); simpl;
      try reflexivity; lia.
  - intros cnt Hcnt IH Hbound rom HI.
    rewrite <- Z.add_1_r, seqZ_snoc, fold_left_app by lia.
    simpl. destruct (IH ltac:(lia) rom HI) as [HI' IHp].
    split; [apply Hinv; [exact HI'|lia]|].
    rewrite Hf by (try exact HI'; lia). rewrite IHp.
    destruct (Z.leb_spec (base + s * cnt) n); destruct (Z.ltb_spec n (base + s * (cnt + 1)));
      destruct (Z.leb_spec base n); destruct (Z.ltb_spec n (base + s * cnt));
      simpl; try reflexivity; try nia.
    assert (Hq : (n - base) / s = cnt).
    { symmetry. apply (Z.div_unique _ _ _ (n - (base + s * cnt))); nia. }
    assert (Hr : (n - base) mod s = n - (base + s * cnt)).
    { pose proof (Z.div_mod (n - base) s ltac:(lia)). rewrite Hq in *. lia. }
    rewrite Hq, Hr. reflexivity.
Qed.

(** *** [memcpy] *)

Lemma length_memcpy (dst : list Z) (off : Z) (src : list Z) (n : Z) :
  0 <= off -> off + Z.min n (len src) <= len dst ->
  length (memcpy dst off src n) = length dst.
Proof.
  unfold memcpy, len. intros Hoff Hn.
  rewrite !length_app, length_drop, !length_take. llia.
Qed.

Lemma peek_app (l1 l2 : list Z) (n : Z) :
  0 <= n ->
  peek (l1 ++ l2) n = if n <? len l1 then peek l1 n else peek l2 (n - len l1).
Proof.
  intros Hn. unfold peek, len.
  destruct (Z.ltb_spec n 0); [llia|].
  destruct (Z.ltb_spec n (Z.of_nat (length l1))).
  - rewrite lookup_app_l by llia. reflexivity.
  - destruct (Z.ltb_spec (n - Z.of_nat (length l1)) 0); [llia|].
    rewrite lookup_app_r by llia. do 2 f_equal. llia.
Qed.

Lemma peek_take (l : list Z) (k : nat) (n : Z) :
  n < Z.of_nat k -> peek (take k l) n = peek l n.
Proof.
  intros Hn. unfold peek. destruct (Z.ltb_spec n 0); [reflexivity|].
  rewrite lookup_take_lt by llia. reflexivity.
Qed.

Lemma peek_drop (l : list Z) (k : nat) (n : Z) :
  0 <= n -> peek (drop k l) n = peek l (Z.of_nat k + n).
Proof.
  intros Hn. unfold peek.
  destruct (Z.ltb_spec n 0); [llia|]. destruct (Z.ltb_spec (Z.of_nat k + n) 0); [llia|].
  rewrite lookup_drop. do 2 f_equal. llia.
Qed.

Lemma peek_neg (l : list Z) (n : Z) : n < 0 -> peek l n = 0.
Proof. intros Hn. unfold peek. destruct (Z.ltb_spec n 0); [reflexivity|lia]. Qed.

(** The bytes after a [memcpy] of [n] bytes that the source has and for
    which the destination has room. *)
Lemma peek_memcpy (dst : list Z) (off : Z) (src : list Z) (n k : Z) :
  0 <= off -> 0 <= n <= len src -> off + n <= len dst ->
  peek (memcpy dst off src n) k
  = if (off <=? k) && (k <? off + n) then peek src (k - off) else peek dst k.
Proof.
  unfold memcpy, len. intros Hoff Hn Hroom.
  destruct (Z.ltb_spec k 0) as [Hk|Hk].
  { rewrite !peek_neg by llia.
    destruct (Z.leb_spec off k); simpl; [lia|reflexivity]. }
  rewrite peek_app by llia. unfold len. rewrite length_take.
  destruct (Z.ltb_spec k (Z.of_nat (Z.to_nat off `min` length dst))).
  { rewrite peek_take by llia.
    destruct (Z.leb_spec off k); simpl; [lia|reflexivity]. }
  rewrite peek_app by llia. unfold len. rewrite length_take.
  destruct (Z.ltb_spec (k - Z.of_nat (Z.to_nat off `min` length dst))
                       (Z.of_nat (Z.to_nat n `min` length src))).
  { rewrite peek_take by llia.
    destruct (Z.leb_spec off k); destruct (Z.ltb_spec k (off + n)); simpl; try llia.
    f_equal. llia. }
  rewrite peek_drop by llia.
  destruct (Z.leb_spec off k); destruct (Z.ltb_spec k (off + n)); simpl; try llia.
  f_equal. llia.
Qed.

End LoopFacts.

Module PackerFacts.
Import Text Memory Cart ByteFacts LoopFacts.

Section WithExternals.
Context `{Externals}.

(** *** The loop over the songs *)

(** Byte [k] of song [i], as [load_song] computes it from the music
    section. *)
Definition song_byte (mus : list Z) (i k : Z) : Z :=
  uint8 (Z.lor (vec_at mus (i * 5 + (k + 1)))
               (Z.land (Z.shiftl (vec_at mus (i * 5)) (7 - k)) 0x80)).

Lemma length_load_song (mus rom : list Z) (i : Z) :
  length (load_song mus rom i) = length rom.
Proof. unfold load_song. rewrite !length_poke. reflexivity. Qed.

Lemma peek_load_song (mus rom : list Z) (i n : Z) :
  0 <= i -> song_off + sizeof_song_t * (i + 1) <= len rom ->
  peek (load_song mus rom i) n
  = if (song_off + sizeof_song_t * i <=? n) && (n <? song_off + sizeof_song_t * (i + 1))
    then song_byte mus i (n - (song_off + sizeof_song_t * i)) else peek rom n.
Proof.
  intros Hi Hlen. unfold load_song. layout.
  rewrite !peek_poke by (rewrite ?length_poke; lia).
  unfold song_byte, uint8.
  destruct (Z.leb_spec (12544 + 4 * i) n); destruct (Z.ltb_spec n (12544 + 4 * (i + 1)));
    simpl.
  1:{ assert (Hk : n = 12544 + 4 * i + 0 \/ n = 12544 + 4 * i + 1
                 \/ n = 12544 + 4 * i + 2 \/ n = 12544 + 4 * i + 3) by lia.
    destruct Hk as [-> | [-> | [-> | ->] ] ];
      repeat match goal with
        | |- context [?a =? ?b] => destruct (Z.eqb_spec a b); try lia
        end;
      match goal with
      | |- _ mod 256 = Z.lor (vec_at _ ?a) (Z.land (Z.shiftl _ ?s) _) mod 256 =>
          match goal with
          | |- Z.lor (vec_at _ ?a') (Z.land (Z.shiftl _ ?s') _) mod 256 = _ =>
              replace a with a' by lia; replace s with s' by lia; reflexivity
          end
      end. }
  all: repeat match goal with
         | |- context [?a =? ?b] => destruct (Z.eqb_spec a b); try lia
         end; try reflexivity.
Qed.

Lemma peek_songs (mus rom : list Z) (cnt n : Z) :
  0 <= cnt -> song_off + sizeof_song_t * cnt <= len rom ->
  peek (fold_left (load_song mus) (seqZ 0 cnt) rom) n
  = if (song_off <=? n) && (n <? song_off + sizeof_song_t * cnt)
    then song_byte mus ((n - song_off) / sizeof_song_t) ((n - song_off) mod sizeof_song_t)
    else peek rom n.
Proof.
  intros Hcnt Hlen.
  apply (fold_chunks (load_song mus) song_off sizeof_song_t (song_byte mus)
           (fun rom => song_off + sizeof_song_t * cnt <= len rom) cnt).
  - layout; lia.
  - layout; lia.
  - intros rom' i Hr _. unfold len in *. rewrite length_load_song. exact Hr.
  - intros rom' i k Hr Hi. apply peek_load_song; [lia|]. layout. lia.
  - lia.
  - exact Hlen.
Qed.

(** *** The loop over the sound effects *)

Definition byte_rom (rom : list Z) : Prop := Forall (fun b => 0 <= b < 256) rom.

(** The 16 bits of a note from the bits that [load_note] reads. *)
Definition note_word (ins : Z) : Z :=
  note_key ins mod 64 + 64 * (note_instrument ins mod 8)
  + 512 * (note_volume ins mod 8) + 4096 * (note_effect ins mod 16).

(** The four assignments of [load_note] replace all the 16 bits. *)
Lemma set_bits_note (w k i v e : Z) :
  0 <= w < 65536 ->
  set_bits (set_bits (set_bits (set_bits w 0 6 k) 6 3 i) 9 3 v) 12 4 e
  = k mod 64 + 64 * (i mod 8) + 512 * (v mod 8) + 4096 * (e mod 16).
Proof.
  intros Hw. unfold set_bits, bits.
  change (2 ^ 0) with 1. change (2 ^ 6) with 64. change (2 ^ 3) with 8.
  change (2 ^ 9) with 512. change (2 ^ 12) with 4096. change (2 ^ 4) with 16.
  Z.div_mod_to_equations; lia.
Qed.

(** The bit-fields of [note_t]. *)
Definition note_field (lo width : Z) : Prop :=
  (lo = 0 /\ width = 6) \/ (lo = 6 /\ width = 3)
  \/ (lo = 9 /\ width = 3) \/ (lo = 12 /\ width = 4).

Lemma set_bits_range (w lo width v : Z) :
  0 <= w < 65536 -> note_field lo width -> 0 <= set_bits w lo width v < 65536.
Proof.
  intros Hw [[-> ->] | [[-> ->] | [[-> ->] | [-> ->] ] ] ]; unfold set_bits, bits.
  - change (2 ^ 0) with 1. change (2 ^ 6) with 64. Z.div_mod_to_equations; lia.
  - change (2 ^ 6) with 64. change (2 ^ 3) with 8. Z.div_mod_to_equations; lia.
  - change (2 ^ 9) with 512. change (2 ^ 3) with 8. Z.div_mod_to_equations; lia.
  - change (2 ^ 12) with 4096. change (2 ^ 4) with 16. Z.div_mod_to_equations; lia.
Qed.

Lemma peek_store_bits16 (m : list Z) (n lo width v k : Z) :
  0 <= n -> n + 1 < len m ->
  peek (store_bits16 m n lo width v) k
  = let w := set_bits (peek m n + 256 * peek m (n + 1)) lo width v in
    if k =? n + 1 then (w / 256) mod 256
    else if k =? n then w mod 256 mod 256 else peek m k.
Proof.
  intros Hn Hlen. unfold store_bits16, len in *.
  rewrite !peek_poke by (rewrite ?length_poke; lia). reflexivity.
Qed.

Lemma peek_store_bits16_ne (m : list Z) (n lo width v k : Z) :
  k <> n -> k <> n + 1 -> peek (store_bits16 m n lo width v) k = peek m k.
Proof.
  intros H0 H1. unfold store_bits16. rewrite !peek_poke_ne by congruence. reflexivity.
Qed.

Lemma length_store_bits16 (m : list Z) (n lo width v : Z) :
  length (store_bits16 m n lo width v) = length m.
Proof. unfold store_bits16. rewrite !length_poke. reflexivity. Qed.

Lemma byte_rom_store_bits16 (m : list Z) (n lo width v : Z) :
  byte_rom m -> byte_rom (store_bits16 m n lo width v).
Proof. intros Hm. unfold store_bits16. apply poke_range, poke_range, Hm. Qed.

(** The word of the two bytes of a 16-bit unit that was split into them. *)
Lemma word_bytes (w : Z) :
  0 <= w < 65536 -> w mod 256 mod 256 + 256 * ((w / 256) mod 256) = w.
Proof.
  intros Hw. rewrite Z.mod_mod by lia.
  rewrite (Z.mod_small (w / 256)).
  - pose proof (Z.div_mod w 256 ltac:(lia)). lia.
  - split; [apply Z.div_pos; lia | apply Z.div_lt_upper_bound; lia].
Qed.

(** Reading the unit back after an assignment to one of its fields. *)
Lemma store_bits16_word (m : list Z) (n lo width v : Z) :
  byte_rom m -> 0 <= n -> n + 1 < len m -> note_field lo width ->
  let m' := store_bits16 m n lo width v in
  peek m' n + 256 * peek m' (n + 1)
  = set_bits (peek m n + 256 * peek m (n + 1)) lo width v.
Proof.
  intros Hm Hn Hlen Hf. simpl.
  rewrite !peek_store_bits16 by assumption. simpl.
  destruct (Z.eqb_spec n (n + 1)); [lia|].
  rewrite Z.eqb_refl. rewrite (Z.eqb_refl (n + 1)).
  apply word_bytes. apply set_bits_range; try assumption.
  pose proof (peek_range m n Hm). pose proof (peek_range m (n + 1) Hm). lia.
Qed.

(** The two bytes of a note after the assignment of its four fields. *)
Definition packed_note (key instrument volume effect : Z) : Z :=
  key mod 64 + 64 * (instrument mod 8) + 512 * (volume mod 8) + 4096 * (effect mod 16).

Lemma packed_note_range (k i v e : Z) : 0 <= packed_note k i v e < 65536.
Proof.
  unfold packed_note.
  pose proof (Z.mod_pos_bound k 64 ltac:(lia)).
  pose proof (Z.mod_pos_bound i 8 ltac:(lia)).
  pose proof (Z.mod_pos_bound v 8 ltac:(lia)).
  pose proof (Z.mod_pos_bound e 16 ltac:(lia)). lia.
Qed.

Lemma length_store_note (m : list Z) (a k i v e : Z) :
  length (store_note m a k i v e) = length m.
Proof. unfold store_note. rewrite !length_store_bits16. reflexivity. Qed.

Lemma byte_rom_store_note (m : list Z) (a k i v e : Z) :
  byte_rom m -> byte_rom (store_note m a k i v e).
Proof. intros Hm. unfold store_note. do 4 apply byte_rom_store_bits16. exact Hm. Qed.

Lemma peek_store_note_ne (m : list Z) (a k i v e n : Z) :
  n <> a -> n <> a + 1 -> peek (store_note m a k i v e) n = peek m n.
Proof.
  intros H0 H1. unfold store_note. rewrite !peek_store_bits16_ne by assumption. reflexivity.
Qed.

Lemma peek_store_note (m : list Z) (a k i v e n : Z) :
  byte_rom m -> 0 <= a -> a + 1 < len m ->
  peek (store_note m a k i v e) n
  = if n =? a then packed_note k i v e mod 256
    else if n =? a + 1 then packed_note k i v e / 256
    else peek m n.
Proof.
  intros Hrom Ha Hlen. unfold store_note.
  set (m1 := store_bits16 m a 0 6 k).
  set (m2 := store_bits16 m1 a 6 3 i).
  set (m3 := store_bits16 m2 a 9 3 v).
  assert (Hl1 : len m1 = len m) by (unfold len, m1; rewrite length_store_bits16; reflexivity).
  assert (Hl2 : len m2 = len m) by (unfold len, m2; rewrite length_store_bits16; exact Hl1).
  assert (Hl3 : len m3 = len m) by (unfold len, m3; rewrite length_store_bits16; exact Hl2).
  assert (Hb1 : byte_rom m1) by (apply byte_rom_store_bits16; exact Hrom).
  assert (Hb2 : byte_rom m2) by (apply byte_rom_store_bits16; exact Hb1).
  assert (Hb3 : byte_rom m3) by (apply byte_rom_store_bits16; exact Hb2).
  assert (Hw : set_bits (peek m3 a + 256 * peek m3 (a + 1)) 12 4 e = packed_note k i v e).
  { unfold m3. rewrite store_bits16_word by (try assumption; unfold note_field; lia).
    unfold m2. rewrite store_bits16_word by (try assumption; unfold note_field; lia).
    unfold m1. rewrite store_bits16_word by (try assumption; unfold note_field; lia).
    apply set_bits_note.
    pose proof (peek_range m a Hrom). pose proof (peek_range m (a + 1) Hrom). lia. }
  rewrite peek_store_bits16 by lia. cbv zeta. rewrite Hw.
  pose proof (packed_note_range k i v e) as Hww.
  destruct (Z.eqb_spec n (a + 1)); destruct (Z.eqb_spec n a); try lia.
  - apply Z.mod_small. split; [apply Z.div_pos; lia | apply Z.div_lt_upper_bound; lia].
  - apply Z.mod_mod. lia.
  - unfold m3, m2, m1. rewrite !peek_store_bits16_ne by lia. reflexivity.
Qed.

Lemma note_word_packed (ins : Z) :
  note_word ins = packed_note (note_key ins) (note_instrument ins) (note_volume ins)
                              (note_effect ins).
Proof. reflexivity. Qed.

Lemma peek_load_note (sfx rom : list Z) (i j k : Z) :
  byte_rom rom -> 0 <= i -> 0 <= j ->
  sfx_off + sizeof_sfx_t * i + sizeof_note_t * (j + 1) <= len rom ->
  let note := sfx_off + sizeof_sfx_t * i + sizeof_note_t * j in
  peek (load_note sfx i rom j) k
  = if (note <=? k) && (k <? sfx_off + sizeof_sfx_t * i + sizeof_note_t * (j + 1))
    then (if k - note =? 0 then note_word (note_bits sfx i j) mod 256
          else note_word (note_bits sfx i j) / 256)
    else peek rom k.
Proof.
  intros Hrom Hi Hj Hlen note. unfold load_note. fold note.
  rewrite peek_store_note by (try assumption; subst note; layout; lia).
  rewrite <- note_word_packed. subst note. layout.
  destruct (Z.eqb_spec k (12800 + 68 * i + 2 * j));
    destruct (Z.eqb_spec k (12800 + 68 * i + 2 * j + 1));
    destruct (Z.leb_spec (12800 + 68 * i + 2 * j) k);
    destruct (Z.ltb_spec k (12800 + 68 * i + 2 * (j + 1)));
    destruct (Z.eqb_spec (k - (12800 + 68 * i + 2 * j)) 0); simpl; try lia; reflexivity.
Qed.

Lemma length_load_note (sfx rom : list Z) (i j : Z) :
  length (load_note sfx i rom j) = length rom.
Proof. unfold load_note. apply length_store_note. Qed.

Lemma byte_rom_load_note (sfx rom : list Z) (i j : Z) :
  byte_rom rom -> byte_rom (load_note sfx i rom j).
Proof. intros Hr. unfold load_note. apply byte_rom_store_note. exact Hr. Qed.

Lemma length_load_sfx (sfx rom : list Z) (i : Z) :
  length (load_sfx sfx rom i) = length rom.
Proof.
  unfold load_sfx. rewrite !length_poke. apply fold_length.
  intros. apply length_load_note.
Qed.

Lemma byte_rom_fold (f : list Z -> Z -> list Z) (l : list Z) (rom : list Z) :
  (forall rom i, byte_rom rom -> byte_rom (f rom i)) ->
  byte_rom rom -> byte_rom (fold_left f l rom).
Proof.
  intros Hf. revert rom. induction l as [|i l IH]; intros rom Hr; simpl; [exact Hr|].
  apply IH, Hf, Hr.
Qed.

Lemma byte_rom_load_sfx (sfx rom : list Z) (i : Z) :
  byte_rom rom -> byte_rom (load_sfx sfx rom i).
Proof.
  intros Hr. unfold load_sfx. do 4 apply poke_range.
  apply byte_rom_fold; [|exact Hr]. intros. apply byte_rom_load_note. assumption.
Qed.

(** Byte [k] of sound effect [i], as [load_sfx] computes it from the sfx
    section: the 32 notes, then the four bytes that come first in the
    section. *)
Definition sfx_byte (sfx : list Z) (i k : Z) : Z :=
  if k <? 64 then
    if k mod 2 =? 0 then note_word (note_bits sfx i (k / 2)) mod 256
    else note_word (note_bits sfx i (k / 2)) / 256
  else uint8 (vec_at sfx (i * 84 + (k - 64))).

Lemma peek_load_sfx (sfx rom : list Z) (i n : Z) :
  byte_rom rom -> 0 <= i -> sfx_off + sizeof_sfx_t * (i + 1) <= len rom ->
  peek (load_sfx sfx rom i) n
  = if (sfx_off + sizeof_sfx_t * i <=? n) && (n <? sfx_off + sizeof_sfx_t * (i + 1))
    then sfx_byte sfx i (n - (sfx_off + sizeof_sfx_t * i)) else peek rom n.
Proof.
  intros Hrom Hi Hlen. unfold load_sfx.
  set (base := sfx_off + sizeof_sfx_t * i).
  set (g := fun j k => if k =? 0 then note_word (note_bits sfx i j) mod 256
                       else note_word (note_bits sfx i j) / 256).
  destruct (fold_chunks (load_note sfx i) base sizeof_note_t g
              (fun r => byte_rom r /\ len r = len rom) 32
              ltac:(layout; lia) ltac:(subst base; layout; lia)) with (cnt := 32)
              (rom := rom) (n := n) as [[Hb Hl] Hp].
  - intros r j [Hr Hlr] Hj. split; [apply byte_rom_load_note; exact Hr|].
    unfold len in *. rewrite length_load_note. exact Hlr.
  - intros r j k [Hr Hlr] Hj.
    rewrite peek_load_note by (try assumption; try lia; subst base; layout; lia).
    subst base g. simpl. reflexivity.
  - lia.
  - split; [exact Hrom | reflexivity].
  - set (r32 := fold_left (load_note sfx i) (seqZ 0 32) rom) in *.
    rewrite !peek_poke by (rewrite ?length_poke; subst base; layout; lia).
    rewrite Hp. subst base g. unfold sfx_byte, uint8. layout.
    repeat match goal with
      | |- context [?a =? ?b] =>
          lazymatch a with
          | n => destruct (Z.eqb_spec a b)
          end
      end;
    destruct (Z.leb_spec (12800 + 68 * i) n); destruct (Z.ltb_spec n (12800 + 68 * (i + 1)));
      destruct (Z.ltb_spec n (12800 + 68 * i + 2 * 32));
      destruct (Z.ltb_spec (n - (12800 + 68 * i)) 64); simpl; try lia; try reflexivity.
    all: do 2 f_equal; change (4 + 32 * 5 / 2) with 84; lia.
Qed.

Lemma peek_sfxs (sfx rom : list Z) (cnt n : Z) :
  byte_rom rom -> 0 <= cnt -> sfx_off + sizeof_sfx_t * cnt <= len rom ->
  peek (fold_left (load_sfx sfx) (seqZ 0 cnt) rom) n
  = if (sfx_off <=? n) && (n <? sfx_off + sizeof_sfx_t * cnt)
    then sfx_byte sfx ((n - sfx_off) / sizeof_sfx_t) ((n - sfx_off) mod sizeof_sfx_t)
    else peek rom n.
Proof.
  intros Hrom Hcnt Hlen.
  apply (fold_chunks (load_sfx sfx) sfx_off sizeof_sfx_t (sfx_byte sfx)
           (fun r => byte_rom r /\ sfx_off + sizeof_sfx_t * cnt <= len r) cnt).
  - layout; lia.
  - layout; lia.
  - intros r i [Hr Hlr] _. split; [apply byte_rom_load_sfx; exact Hr|].
    unfold len in *. rewrite length_load_sfx. exact Hlr.
  - intros r i k [Hr Hlr] Hi. apply peek_load_sfx; [exact Hr|lia|]. layout. lia.
  - lia.
  - split; assumption.
Qed.

(** The loop over the sound effects leaves the bytes before the sfx
    section as they are, whatever the memory holds. *)
Lemma peek_sfxs_before (sfx rom : list Z) (cnt n : Z) :
  n < sfx_off -> peek (fold_left (load_sfx sfx) (seqZ 0 cnt) rom) n = peek rom n.
Proof.
  intros Hn. apply fold_frame with (base := sfx_off) (s := sizeof_sfx_t).
  - layout; lia.
  - intros r i k Hi Hk. unfold load_sfx. rewrite !peek_poke_ne by (layout; lia).
    apply fold_frame with (base := sfx_off + sizeof_sfx_t * i) (s := sizeof_note_t).
    + layout; lia.
    + intros r' j k' Hj Hk'. unfold load_note.
      rewrite peek_store_note_ne by (layout; lia). reflexivity.
    + layout; lia.
  - lia.
Qed.

(** *** The memory that [load_p8] builds *)

Lemma length_zero_rom : len zero_rom = size.
Proof. unfold zero_rom, len. rewrite length_replicate. layout. lia. Qed.

Lemma length_copy_sections (sections : gmap Z (list Z)) :
  len (copy_sections sections) = size.
Proof.
  unfold copy_sections.
  set (gfx := P8Reader.section_get P8Reader.section_gfx sections).
  set (gff := P8Reader.section_get P8Reader.section_gff sections).
  set (map := P8Reader.section_get P8Reader.section_map sections).
  pose proof length_zero_rom as H0.
  assert (H1 : len (memcpy zero_rom gfx_off gfx (Z.min gfx_size (len gfx))) = size).
  { unfold len in *. rewrite length_memcpy; [exact H0| |]; layout; lia. }
  set (r1 := memcpy zero_rom gfx_off gfx (Z.min gfx_size (len gfx))) in *.
  assert (H2 : len (memcpy r1 gfx_props_off gff (Z.min gfx_props_size (len gff))) = size).
  { unfold len in *. rewrite length_memcpy; [exact H1| |]; layout; lia. }
  set (r2 := memcpy r1 gfx_props_off gff (Z.min gfx_props_size (len gff))) in *.
  assert (H3 : len (memcpy r2 map_off map (Z.min map_size (len map))) = size).
  { unfold len in *. rewrite length_memcpy; [exact H2| |]; layout; lia. }
  destruct (map_size <? len map); [|exact H3].
  unfold len in *. rewrite fold_length; [exact H3|].
  intros. apply length_poke.
Qed.

(** The bytes of the songs in the memory that [load_p8] builds. *)
Lemma peek_rom_song (sections : gmap Z (list Z)) (i k : Z) :
  let mus := P8Reader.section_get P8Reader.section_mus sections in
  0 <= i < Z.min (song_size / 4) (len mus / 5) -> 0 <= k < 4 ->
  peek (rom_of_sections sections) (song_off + sizeof_song_t * i + k) = song_byte mus i k.
Proof.
  intros mus Hi Hk. unfold rom_of_sections. fold mus.
  rewrite peek_sfxs_before by (layout; change (256 / 4) with 64 in Hi; lia).
  rewrite peek_songs.
  - change (song_size / 4) with 64 in *.
    destruct (Z.leb_spec song_off (song_off + sizeof_song_t * i + k)); [|layout; lia].
    destruct (Z.ltb_spec (song_off + sizeof_song_t * i + k)
                (song_off + sizeof_song_t * Z.min 64 (len mus / 5))); [|layout; lia].
    simpl. layout.
    replace (12544 + 4 * i + k - 12544) with (k + i * 4) by lia.
    rewrite Z.div_add, Z.mod_add by lia.
    rewrite Z.div_small, Z.mod_small by lia. reflexivity.
  - change (song_size / 4) with 64. lia.
  - rewrite length_copy_sections. change (song_size / 4) with 64. layout. lia.
Qed.

End WithExternals.
End PackerFacts.

Module SongFacts.
Import Text Memory Cart ByteFacts LoopFacts PackerFacts.

(** C3, as the code has it: every 5 bytes of the music section give one
    song entry of 4 bytes.  The low 7 bits of byte [k] of the entry are
    those of source byte [k + 1]; its bit 7 is bit [k] of source byte 0,
    one of its low 4 bits, or-ed with bit 7 of source byte [k + 1]. *)
Theorem song_entry_decoding (sections : gmap Z (list Z)) (i k b : Z) :
  let mus := P8Reader.section_get P8Reader.section_mus sections in
  let rom := rom_of_sections sections in
  0 <= i < Z.min (song_size / 4) (len mus / 5) -> 0 <= k < 4 -> 0 <= b < 8 ->
  Z.testbit (peek rom (song_off + sizeof_song_t * i + k)) b
  = if b =? 7
    then Z.testbit (vec_at mus (i * 5)) k || Z.testbit (vec_at mus (i * 5 + (k + 1))) 7
    else Z.testbit (vec_at mus (i * 5 + (k + 1))) b.
Proof.
  intros mus rom Hi Hk Hb. subst rom. rewrite peek_rom_song by assumption.
  fold mus. unfold song_byte, uint8.
  change 256 with (2 ^ 8). rewrite Z.mod_pow2_bits_low by lia.
  rewrite Z.lor_spec, Z.land_spec, Z.shiftl_spec by lia.
  change 128 with (2 ^ 7). rewrite Z.pow2_bits_eqb by lia.
  destruct (Z.eqb_spec b 7) as [->|Hne].
  - replace (7 - (7 - k)) with k by lia. simpl. rewrite andb_true_r. apply orb_comm.
  - destruct (Z.eqb_spec 7 b); [lia|]. rewrite andb_false_r, orb_false_r. reflexivity.
Qed.

Lemma song_entry_decoding_witness :
  let sections : gmap Z (list Z) := {[ P8Reader.section_mus := [0x09; 1; 2; 3; 0x0a] ]} in
  Z.testbit (peek (rom_of_sections sections) (song_off + sizeof_song_t * 0 + 0)) 7 = true.
Proof.
  intros sections.
  rewrite (song_entry_decoding sections 0 0 7); [reflexivity | | lia | lia].
  split; [lia | vm_compute; reflexivity].
Defined.

(** C3, as the claim has it, fails: the top bits of source byte 0 are not
    looked at.  With bit 7 of source byte 0 set and its low bits clear, bit
    7 of byte 0 of the entry stays clear. *)
Lemma song_flags_not_top_bits :
  let mus := [0x80; 1; 2; 3; 4] in
  let sections : gmap Z (list Z) := {[ P8Reader.section_mus := mus ]} in
  Z.testbit (vec_at mus 0) 7 = true
  /\ peek (rom_of_sections sections) song_off = 1
  /\ Z.testbit (peek (rom_of_sections sections) song_off) 7 = false.
Proof. vm_compute. repeat split. Qed.

End SongFacts.

Module ReaderFacts.
Import Text Peg P8Reader ByteFacts.

(** *** Pairs of hexadecimal digits *)

Lemma is_hex_range (c : Z) : is_hex c = true -> 0 <= c < 128.
Proof.
  unfold is_hex, ch. simpl. intros Hc.
  repeat match goal with
    | H : _ || _ = true |- _ => apply orb_true_iff in H; destruct H
    | H : _ && _ = true |- _ => apply andb_true_iff in H; destruct H
    | H : (_ <=? _) = true |- _ => apply Z.leb_le in H
    end; lia.
Qed.

(** [strtoul] on the two characters that [action<r_data>] hands it, when
    both are digits. *)
Lemma strtoul16_pair (c0 c1 : Z) :
  is_hex c0 = true -> is_hex c1 = true ->
  uint8 (strtoul16 (c_str [c0; c1])) = 16 * xdigit_val c0 + xdigit_val c1.
Proof.
  intros H0 H1.
  assert (Hall : forallb (fun x => forallb (fun y =>
            implb (is_hex x && is_hex y)
                  (uint8 (strtoul16 (c_str [x; y])) =? 16 * xdigit_val x + xdigit_val y))
            (seqZ 0 128)) (seqZ 0 128) = true) by (vm_compute; reflexivity).
  pose proof (forallb2_seqZ _ _ _ Hall c0 c1 (is_hex_range _ H0) (is_hex_range _ H1)) as Hp.
  simpl in Hp. rewrite H0, H1 in Hp. simpl in Hp. apply Z.eqb_eq, Hp.
Qed.

Lemma decode_data_skip (is_swapped : bool) (next c : Z) (t : list Z) :
  is_hex c = false ->
  decode_data is_swapped false next (c :: t) = decode_data is_swapped false next t.
Proof. intros Hc. simpl. unfold is_hex in Hc. rewrite Hc. reflexivity. Qed.

Lemma decode_data_pair (is_swapped : bool) (next c0 c1 : Z) (t : list Z) :
  is_hex c0 = true -> is_hex c1 = true ->
  decode_data is_swapped false next (c0 :: c1 :: t)
  = (if is_swapped then 16 * xdigit_val c1 + xdigit_val c0
     else 16 * xdigit_val c0 + xdigit_val c1)
    :: decode_data is_swapped false next t.
Proof.
  intros H0 H1. simpl. pose proof H0 as H0'. unfold is_hex in H0'. rewrite H0'.
  f_equal. destruct is_swapped; apply strtoul16_pair; assumption.
Qed.

(** C4, as the code has it.  [action<r_data>] tests the character under
    [parser] only: when it is a digit, that character and the next one are
    a pair, whatever the next one is.  So for a line in which every digit
    that starts a pair is followed by a digit, decoding gives the bytes of
    the line with the other characters removed, its digits paired left to
    right; and a character that is no digit, where a pair would start, is
    skipped by advancing one character. *)
Theorem hex_decoding_of_aligned_lines (is_swapped : bool) (next : Z) (line : list Z) :
  pair_aligned line = true ->
  decode_data is_swapped false next line = hex_pairs is_swapped (filter is_hex line)
  /\ decode_data is_swapped false next line
     = decode_data is_swapped false next (filter is_hex line)
  /\ forall c, is_hex c = false ->
       decode_data is_swapped false next (c :: line) = decode_data is_swapped false next line.
Proof.
  intros Hal.
  assert (Hmain : forall n s, (length s <= n)%nat -> pair_aligned s = true ->
            decode_data is_swapped false next s = hex_pairs is_swapped (filter is_hex s)
            /\ decode_data is_swapped false next (filter is_hex s)
               = hex_pairs is_swapped (filter is_hex s)).
  { induction n as [|n IH]; intros s Hlen Hs.
    - destruct s; [split; reflexivity | simpl in Hlen; lia].
    - destruct s as [|c0 t]; [split; reflexivity|].
      cbn [pair_aligned] in Hs. destruct (is_hex c0) eqn:H0.
      + destruct t as [|c1 t']; [discriminate|].
        apply andb_true_iff in Hs. destruct Hs as [H1 Hs].
        rewrite decode_data_pair by assumption.
        rewrite !filter_cons. rewrite !decide_True by (rewrite H0 || rewrite H1; exact I).
        rewrite decode_data_pair by assumption.
        destruct (IH t' ltac:(simpl in Hlen; lia) Hs) as [IH1 IH2].
        cbn [hex_pairs]. rewrite IH1, IH2. split; reflexivity.
      + rewrite decode_data_skip by assumption.
        rewrite filter_cons, decide_False by (rewrite H0; exact id).
        apply IH; [simpl in Hlen; lia | exact Hs]. }
  destruct (Hmain (length line) line (le_n _) Hal) as [H1 H2].
  split; [exact H1|]. split; [congruence|].
  intros c Hc. apply decode_data_skip, Hc.
Qed.

Lemma hex_decoding_of_aligned_lines_witness :
  pair_aligned (str "09 0102030a") = true
  /\ decode_data false false 0 (str "09 0102030a") = [0x09; 0x01; 0x02; 0x03; 0x0a].
Proof.
  split; [reflexivity|].
  rewrite (proj1 (hex_decoding_of_aligned_lines false 0 (str "09 0102030a") eq_refl)).
  reflexivity.
Defined.

(** C4, as the claim has it, fails on its own example: in ["a b"] the
    blank is taken for the second digit of ['a'], and ['b'] starts a pair
    with the byte behind the line.  The line gives two bytes where its
    digits, paired, give one. *)
Lemma hex_decoding_splits_pairs :
  decode_data false false 0 (str "a b") = [0x0a; 0x0b]
  /\ hex_pairs false (filter is_hex (str "a b")) = [0xab]
  /\ decode_data false false 0 (filter is_hex (str "a b")) = [0xab]
  /\ section_get section_gff
       (m_sections (action_data (str "a b") 0
          {| m_version := 0; m_current_section := section_gff;
             m_sections := ∅; m_code := [] |}))
     = [0x0a; 0x0b].
Proof. vm_compute. repeat split. Qed.

End ReaderFacts.

(** ** The digits that [save_p8] writes and [action<r_data>] reads *)

Module HexFacts.
Import Text Memory Peg P8Reader Cart ByteFacts LoopFacts ReaderFacts.

(** The two digits of a byte. *)
Definition hex2 (b : Z) : list Z := [digit_char (b / 16); digit_char (b mod 16)].

Lemma format_x_2 (b : Z) : 0 <= b < 256 -> format_x 2 b = hex2 b.
Proof.
  intros Hb.
  assert (Hall : forallb (fun b => bool_decide (format_x 2 b = hex2 b)) (seqZ 0 256) = true)
    by (vm_compute; reflexivity).
  apply (forallb_seqZ _ _ Hall) in Hb. apply bool_decide_eq_true in Hb. exact Hb.
Qed.

Lemma format_x_1 (n : Z) : 0 <= n < 16 -> format_x 1 n = [digit_char n].
Proof.
  intros Hn.
  assert (Hall : forallb (fun n => bool_decide (format_x 1 n = [digit_char n])) (seqZ 0 16) = true)
    by (vm_compute; reflexivity).
  apply (forallb_seqZ _ _ Hall) in Hn. apply bool_decide_eq_true in Hn. exact Hn.
Qed.

Lemma digit_char_hex (n : Z) :
  0 <= n < 16 -> is_hex (digit_char n) = true /\ xdigit_val (digit_char n) = n.
Proof.
  intros Hn.
  assert (Hall : forallb (fun n => is_hex (digit_char n) && (xdigit_val (digit_char n) =? n))
                   (seqZ 0 16) = true) by (vm_compute; reflexivity).
  apply (forallb_seqZ _ _ Hall) in Hn. apply andb_true_iff in Hn.
  destruct Hn as [H1 H2]. split; [exact H1 | apply Z.eqb_eq, H2].
Qed.

Lemma nibbles (b : Z) : 0 <= b < 256 -> 0 <= b / 16 < 16 /\ 0 <= b mod 16 < 16.
Proof. intros Hb. Z.div_mod_to_equations. lia. Qed.

(** A byte written with [%02x] is read back. *)
Lemma decode_hex2 (next b : Z) (rest : list Z) :
  0 <= b < 256 ->
  decode_data false false next (hex2 b ++ rest) = b :: decode_data false false next rest.
Proof.
  intros Hb. destruct (nibbles b Hb) as [Hh Hl].
  destruct (digit_char_hex _ Hh) as [Hh1 Hh2]. destruct (digit_char_hex _ Hl) as [Hl1 Hl2].
  unfold hex2. cbn [app]. rewrite decode_data_pair by assumption.
  rewrite Hh2, Hl2. f_equal. Z.div_mod_to_equations. lia.
Qed.

(** A byte written with its nibbles exchanged is read back by the reader
    that exchanges the digits. *)
Lemma decode_hex2_swapped (next b : Z) (rest : list Z) :
  0 <= b < 256 ->
  decode_data true false next (format_x 2 (uint8 (b * 0x101 / 0x10)) ++ rest)
  = b :: decode_data true false next rest.
Proof.
  intros Hb. unfold uint8.
  assert (Hs : 0 <= (b * 257 / 16) mod 256 < 256) by (apply Z.mod_pos_bound; lia).
  rewrite format_x_2 by exact Hs.
  destruct (nibbles _ Hs) as [Hh Hl].
  destruct (digit_char_hex _ Hh) as [Hh1 Hh2]. destruct (digit_char_hex _ Hl) as [Hl1 Hl2].
  unfold hex2. cbn [app]. rewrite decode_data_pair by assumption.
  rewrite Hh2, Hl2. f_equal. Z.div_mod_to_equations. lia.
Qed.

Lemma decode_nl (is_swapped : bool) (next : Z) (rest : list Z) :
  decode_data is_swapped false next (nl ++ rest) = decode_data is_swapped false next rest.
Proof. apply decode_data_skip. reflexivity. Qed.

(** The bytes of a line of digits. *)
Lemma decode_hex_bytes (next : Z) (bytes rest : list Z) :
  Forall (fun b => 0 <= b < 256) bytes ->
  decode_data false false next (flat_map hex2 bytes ++ rest)
  = bytes ++ decode_data false false next rest.
Proof.
  induction 1 as [|b bytes Hb _ IH]; [reflexivity|].
  cbn [flat_map]. rewrite <- app_assoc, decode_hex2 by exact Hb. rewrite IH. reflexivity.
Qed.

Lemma decode_hex_bytes_swapped (next : Z) (bytes rest : list Z) :
  Forall (fun b => 0 <= b < 256) bytes ->
  decode_data true false next
    (flat_map (fun b => format_x 2 (uint8 (b * 0x101 / 0x10))) bytes ++ rest)
  = bytes ++ decode_data true false next rest.
Proof.
  induction 1 as [|b bytes Hb _ IH]; [reflexivity|].
  cbn [flat_map]. rewrite <- app_assoc, decode_hex2_swapped by exact Hb. rewrite IH. reflexivity.
Qed.

End HexFacts.

(** ** The shifts and masks of the packer, as arithmetic *)

Module BitFacts.
Import Text Memory Cart.

Lemma land_shiftl_small (a b k : Z) :
  0 <= k -> 0 <= b < 2 ^ k -> Z.land (Z.shiftl a k) b = 0.
Proof.
  intros Hk Hb. apply Z.bits_inj'. intros n Hn.
  rewrite Z.land_spec, Z.bits_0.
  destruct (Z.lt_ge_cases n k) as [Hlt|Hge].
  - rewrite Z.shiftl_spec_low by lia. reflexivity.
  - rewrite <- (Z.mod_small b (2 ^ k)) by lia.
    rewrite Z.mod_pow2_bits_high by lia. apply andb_false_r.
Qed.

Lemma lor_shiftl (a b k : Z) :
  0 <= k -> 0 <= b < 2 ^ k -> Z.lor (Z.shiftl a k) b = a * 2 ^ k + b.
Proof.
  intros Hk Hb. pose proof (Z.add_lor_land (Z.shiftl a k) b) as Hadd.
  rewrite land_shiftl_small in Hadd by assumption.
  rewrite Z.shiftl_mul_pow2 in * by lia. lia.
Qed.

(** The three bytes that [note_bits] reads, as a 24-bit number. *)
Lemma lor_bytes3 (b0 b1 b2 : Z) :
  0 <= b1 < 256 -> 0 <= b2 < 256 ->
  Z.lor (Z.lor (Z.shiftl b0 16) (Z.shiftl b1 8)) b2 = b0 * 65536 + b1 * 256 + b2.
Proof.
  intros H1 H2.
  replace (Z.shiftl b0 16) with (Z.shiftl (Z.shiftl b0 8) 8)
    by (rewrite Z.shiftl_shiftl by lia; reflexivity).
  rewrite <- Z.shiftl_lor, (lor_shiftl b0 b1 8), lor_shiftl by (simpl; lia).
  change (2 ^ 8) with 256. lia.
Qed.

Lemma note_key_div (x : Z) : note_key x = (x / 4096) mod 64.
Proof.
  unfold note_key. rewrite Z.shiftr_land.
  change (Z.shiftr 258048 12) with (Z.ones 6).
  rewrite Z.land_ones, Z.shiftr_div_pow2 by lia. reflexivity.
Qed.

Lemma note_instrument_div (x : Z) : note_instrument x = (x / 256) mod 8.
Proof.
  unfold note_instrument. rewrite Z.shiftr_land.
  change (Z.shiftr 1792 8) with (Z.ones 3).
  rewrite Z.land_ones, Z.shiftr_div_pow2 by lia. reflexivity.
Qed.

Lemma note_volume_div (x : Z) : note_volume x = (x / 16) mod 8.
Proof.
  unfold note_volume. rewrite Z.shiftr_land.
  change (Z.shiftr 112 4) with (Z.ones 3).
  rewrite Z.land_ones, Z.shiftr_div_pow2 by lia. reflexivity.
Qed.

Lemma note_effect_mod (x : Z) : note_effect x = x mod 16.
Proof.
  unfold note_effect. change 15 with (Z.ones 4). rewrite Z.land_ones by lia. reflexivity.
Qed.

End BitFacts.

(** ** The notes of the sound effects, written and read back *)

Module SfxFacts.
Import Text Memory Peg P8Reader Cart ByteFacts LoopFacts PackerFacts ReaderFacts HexFacts BitFacts.

(** The five digits of the note in the bytes [d0] and [d1]. *)
Definition nd0 (d0 : Z) : Z := (d0 mod 64) / 16.
Definition nd1 (d0 : Z) : Z := d0 mod 16.
Definition nd2 (d0 d1 : Z) : Z := d0 / 64 + 4 * (d1 mod 2).
Definition nd3 (d1 : Z) : Z := (d1 / 2) mod 8.
Definition nd4 (d1 : Z) : Z := d1 / 16.

(** The five bytes that the ten digits of the notes [2 * p] and
    [2 * p + 1] make. *)
Definition pair_bytes (data : Z -> Z) (p : Z) : list Z :=
  let d0 := data (4 * p) in
  let d1 := data (4 * p + 1) in
  let d2 := data (4 * p + 2) in
  let d3 := data (4 * p + 3) in
  [16 * nd0 d0 + nd1 d0; 16 * nd2 d0 d1 + nd3 d1; 16 * nd4 d1 + nd0 d2;
   16 * nd1 d2 + nd2 d2 d3; 16 * nd3 d3 + nd4 d3].

(** The 84 bytes that a line of the sfx section makes. *)
Definition sfx_line_bytes (data : Z -> Z) : list Z :=
  [data 64; data 65; data 66; data 67] ++ flat_map (pair_bytes data) (seqZ 0 16).

Lemma sfx_note_text_digits (data : Z -> Z) (j : Z) :
  0 <= data j < 256 -> 0 <= data (j + 1) < 256 ->
  sfx_note_text data j
  = map digit_char [nd0 (data j); nd1 (data j); nd2 (data j) (data (j + 1));
                    nd3 (data (j + 1)); nd4 (data (j + 1))].
Proof.
  intros H0 H1. unfold sfx_note_text.
  generalize dependent (data (j + 1)). generalize dependent (data j). intros d0 H0 d1 H1.
  assert (Hall : forallb (fun d0 => forallb (fun d1 => bool_decide (
      format_x 2 (Z.land d0 63)
      ++ format_x 1 (Z.lor (Z.land (Z.shiftl d1 2) 4) (Z.shiftr d0 6))
      ++ format_x 1 (Z.land (Z.shiftr d1 1) 7) ++ format_x 1 (Z.land (Z.shiftr d1 4) 15)
      = map digit_char [nd0 d0; nd1 d0; nd2 d0 d1; nd3 d1; nd4 d1]))
      (seqZ 0 256)) (seqZ 0 256) = true) by (vm_compute; reflexivity).
  pose proof (forallb2_seqZ _ _ _ Hall d0 d1 H0 H1) as Hp.
  apply bool_decide_eq_true in Hp. exact Hp.
Qed.

Lemma hex2_nibbles (x y : Z) :
  0 <= x < 16 -> 0 <= y < 16 -> hex2 (16 * x + y) = [digit_char x; digit_char y].
Proof.
  intros Hx Hy. unfold hex2.
  replace ((16 * x + y) / 16) with x by (Z.div_mod_to_equations; lia).
  replace ((16 * x + y) mod 16) with y by (Z.div_mod_to_equations; lia).
  reflexivity.
Qed.

Lemma digits_range (d0 d1 : Z) :
  0 <= d0 < 256 -> 0 <= d1 < 256 ->
  0 <= nd0 d0 < 4 /\ 0 <= nd1 d0 < 16 /\ 0 <= nd2 d0 d1 < 8
  /\ 0 <= nd3 d1 < 8 /\ 0 <= nd4 d1 < 16.
Proof.
  intros H0 H1. unfold nd0, nd1, nd2, nd3, nd4. Z.div_mod_to_equations. lia.
Qed.

Section Line.
Variable data : Z -> Z.
Hypothesis data_bytes : forall k, 0 <= data k < 256.

Lemma pair_text (p : Z) :
  sfx_note_text data (2 * (2 * p)) ++ sfx_note_text data (2 * (2 * p + 1))
  = flat_map hex2 (pair_bytes data p).
Proof.
  rewrite !sfx_note_text_digits by apply data_bytes.
  replace (2 * (2 * p)) with (4 * p) by lia.
  replace (2 * (2 * p + 1)) with (4 * p + 2) by lia.
  replace (4 * p + 2 + 1) with (4 * p + 3) by lia.
  unfold pair_bytes.
  destruct (digits_range (data (4 * p)) (data (4 * p + 1)) (data_bytes _) (data_bytes _))
    as (? & ? & ? & ? & ?).
  destruct (digits_range (data (4 * p + 2)) (data (4 * p + 3)) (data_bytes _) (data_bytes _))
    as (? & ? & ? & ? & ?).
  cbn [flat_map map app]. rewrite !hex2_nibbles by lia. reflexivity.
Qed.

Lemma pair_bytes_range (p : Z) : Forall (fun b => 0 <= b < 256) (pair_bytes data p).
Proof.
  unfold pair_bytes.
  destruct (digits_range (data (4 * p)) (data (4 * p + 1)) (data_bytes _) (data_bytes _))
    as (? & ? & ? & ? & ?).
  destruct (digits_range (data (4 * p + 2)) (data (4 * p + 3)) (data_bytes _) (data_bytes _))
    as (? & ? & ? & ? & ?).
  repeat constructor; lia.
Qed.

Lemma flat_map_pairs (f : Z -> list Z) (n : Z) :
  0 <= n ->
  flat_map f (seqZ 0 (2 * n)) = flat_map (fun p => f (2 * p) ++ f (2 * p + 1)) (seqZ 0 n).
Proof.
  intros Hn. pattern n. apply natlike_ind; [reflexivity| |exact Hn]. clear n Hn.
  intros n Hn IH. rewrite <- Z.add_1_r.
  replace (2 * (n + 1)) with (2 * n + 1 + 1) by lia.
  rewrite !seqZ_snoc by lia. rewrite !flat_map_app, IH. cbn [flat_map].
  rewrite !app_nil_r, app_assoc. reflexivity.
Qed.

Lemma sfx_line_text_bytes :
  sfx_line_text data = flat_map hex2 (sfx_line_bytes data) ++ nl.
Proof.
  unfold sfx_line_text, sfx_line_bytes.
  rewrite !format_x_2 by apply data_bytes.
  change 32 with (2 * 16). rewrite flat_map_pairs by lia.
  rewrite flat_map_app. cbn [flat_map]. rewrite app_nil_r, <- !app_assoc.
  do 4 f_equal. f_equal.
  induction (seqZ 0 16) as [|p l IH]; [reflexivity|].
  cbn [flat_map]. rewrite IH, pair_text. reflexivity.
Qed.

Lemma sfx_line_bytes_range : Forall (fun b => 0 <= b < 256) (sfx_line_bytes data).
Proof.
  unfold sfx_line_bytes. apply Forall_app. split.
  - repeat constructor; apply data_bytes.
  - induction (seqZ 0 16) as [|p l IH]; [constructor|].
    cbn [flat_map]. apply Forall_app. split; [apply pair_bytes_range | exact IH].
Qed.

Lemma length_sfx_line_bytes : length (sfx_line_bytes data) = 84%nat.
Proof. reflexivity. Qed.

(** A line of the sfx section, read back. *)
Lemma decode_sfx_line (next : Z) (rest : list Z) :
  decode_data false false next (sfx_line_text data ++ rest)
  = sfx_line_bytes data ++ decode_data false false next rest.
Proof.
  rewrite sfx_line_text_bytes, <- app_assoc.
  rewrite decode_hex_bytes by apply sfx_line_bytes_range.
  rewrite decode_nl. reflexivity.
Qed.

End Line.

(** Element [r] of chunk [i] of a list made of chunks of one length. *)
Lemma peek_flat_map_chunk (g : Z -> list Z) (s n i r : Z) (tail : list Z) :
  (forall i, len (g i) = s) -> 0 <= i < n -> 0 <= r < s ->
  peek (flat_map g (seqZ 0 n) ++ tail) (s * i + r) = peek (g i) r.
Proof.
  intros Hg Hi Hr.
  assert (Hn : 0 <= n) by lia. revert tail Hi. pattern n.
  apply natlike_ind; [| |exact Hn]; clear n Hn.
  - intros tail Hi. lia.
  - intros n Hn IH tail Hi. rewrite <- Z.add_1_r, seqZ_snoc, flat_map_app by lia.
    cbn [flat_map]. rewrite app_nil_r, <- app_assoc.
    destruct (Z.eq_dec i n) as [->|Hne].
    + assert (Hlen : len (flat_map g (seqZ 0 n)) = s * n).
      { clear IH Hi. pattern n. apply natlike_ind; [unfold len; simpl; lia| |exact Hn].
        intros k Hk IHk. rewrite <- Z.add_1_r, seqZ_snoc, flat_map_app by lia.
        cbn [flat_map]. rewrite app_nil_r. unfold len in *.
        rewrite length_app, Nat2Z.inj_add, IHk, Hg. lia. }
      rewrite peek_app by nia. rewrite Hlen.
      destruct (Z.ltb_spec (s * n + r) (s * n)); [lia|].
      rewrite peek_app by lia. rewrite Hg.
      destruct (Z.ltb_spec (s * n + r - s * n) s); [|lia]. f_equal. lia.
    + apply IH. lia.
Qed.

Lemma peek_cons (x : Z) (l : list Z) (n : Z) :
  0 < n -> peek (x :: l) n = peek l (n - 1).
Proof.
  intros Hn. unfold peek.
  destruct (Z.ltb_spec n 0); [lia|]. destruct (Z.ltb_spec (n - 1) 0); [lia|].
  replace (Z.to_nat n) with (S (Z.to_nat (n - 1))) by lia. reflexivity.
Qed.

(** Byte [r] of the pair [p] in the bytes of a line. *)
Lemma peek_sfx_line_pair (data : Z -> Z) (p r : Z) :
  0 <= p < 16 -> 0 <= r < 5 ->
  peek (sfx_line_bytes data) (4 + 5 * p + r) = peek (pair_bytes data p) r.
Proof.
  intros Hp Hr. unfold sfx_line_bytes. cbn [app].
  rewrite !peek_cons by lia.
  replace (4 + 5 * p + r - 1 - 1 - 1 - 1) with (5 * p + r) by lia.
  rewrite <- (app_nil_r (flat_map _ _)).
  apply peek_flat_map_chunk; [reflexivity | lia | lia].
Qed.

Lemma peek_list5 (a b c d e : Z) :
  peek [a; b; c; d; e] 0 = a /\ peek [a; b; c; d; e] 1 = b /\ peek [a; b; c; d; e] 2 = c
  /\ peek [a; b; c; d; e] 3 = d /\ peek [a; b; c; d; e] 4 = e.
Proof. repeat split. Qed.

Lemma word_of_nibbles (a0 a1 a2 a3 a4 : Z) :
  0 <= a0 < 4 -> 0 <= a1 < 16 -> 0 <= a2 < 8 -> 0 <= a3 < 8 -> 0 <= a4 < 16 ->
  note_word (a0 * 65536 + a1 * 4096 + a2 * 256 + a3 * 16 + a4)
  = 16 * a0 + a1 + 64 * a2 + 512 * a3 + 4096 * a4.
Proof.
  intros. unfold note_word.
  rewrite note_key_div, note_instrument_div, note_volume_div, note_effect_mod.
  set (V := a0 * 65536 + a1 * 4096 + a2 * 256 + a3 * 16 + a4).
  assert (Hk : V / 4096 = 16 * a0 + a1) by (subst V; Z.div_mod_to_equations; lia).
  assert (Hi : V / 256 = 256 * a0 + 16 * a1 + a2) by (subst V; Z.div_mod_to_equations; lia).
  assert (Hv : V / 16 = 4096 * a0 + 256 * a1 + 16 * a2 + a3)
    by (subst V; Z.div_mod_to_equations; lia).
  assert (He : V mod 16 = a4) by (subst V; Z.div_mod_to_equations; lia).
  rewrite Hk, Hi, Hv, He.
  Z.div_mod_to_equations; lia.
Qed.

Lemma even_bits (a0 a1 a2 a3 a4 x : Z) :
  0 <= a4 < 16 -> 0 <= x < 16 ->
  ((16 * a0 + a1) * 65536 + (16 * a2 + a3) * 256 + (16 * a4 + x)) / 16
  = a0 * 65536 + a1 * 4096 + a2 * 256 + a3 * 16 + a4.
Proof. intros. Z.div_mod_to_equations; lia. Qed.

Lemma odd_bits (y a0 a1 a2 a3 a4 : Z) :
  0 <= a0 < 4 -> 0 <= a1 < 16 -> 0 <= a2 < 8 -> 0 <= a3 < 8 -> 0 <= a4 < 16 ->
  ((16 * y + a0) * 65536 + (16 * a1 + a2) * 256 + (16 * a3 + a4)) mod 1048576
  = a0 * 65536 + a1 * 4096 + a2 * 256 + a3 * 16 + a4.
Proof. intros. Z.div_mod_to_equations; lia. Qed.

Lemma word_of_digits (d0 d1 : Z) :
  0 <= d0 < 256 -> 0 <= d1 < 256 ->
  16 * nd0 d0 + nd1 d0 + 64 * nd2 d0 d1 + 512 * nd3 d1 + 4096 * nd4 d1 = d0 + 256 * d1.
Proof. intros. unfold nd0, nd1, nd2, nd3, nd4. Z.div_mod_to_equations; lia. Qed.

(** The note that [load_note] stores for note [j] of sound effect [i],
    when the bytes of the sfx section for that sound effect are those of
    the line that [save_p8] writes for the 68 bytes [data]: the two bytes
    of the note in [data]. *)
Lemma note_word_of_line (sfx : list Z) (data : Z -> Z) (i j : Z) :
  (forall k, 0 <= data k < 256) ->
  (forall r, 0 <= r < 84 -> vec_at sfx (84 * i + r) = peek (sfx_line_bytes data) r) ->
  0 <= j < 32 ->
  note_word (note_bits sfx i j) = data (2 * j) + 256 * data (2 * j + 1).
Proof.
  intros Hdata Hsfx Hj.
  set (p := j / 2).
  assert (Hp : 0 <= p < 16) by (subst p; Z.div_mod_to_equations; lia).
  destruct (digits_range (data (4 * p)) (data (4 * p + 1)) (Hdata _) (Hdata _))
    as (? & ? & ? & ? & ?).
  destruct (digits_range (data (4 * p + 2)) (data (4 * p + 3)) (Hdata _) (Hdata _))
    as (? & ? & ? & ? & ?).
  pose proof (Hdata (4 * p)). pose proof (Hdata (4 * p + 1)).
  pose proof (Hdata (4 * p + 2)). pose proof (Hdata (4 * p + 3)).
  unfold note_bits.
  assert (Hidx : forall r, 0 <= r < 5 ->
            vec_at sfx (4 + i * (4 + 80) + 5 * p + r) = peek (pair_bytes data p) r).
  { intros r Hr. replace (4 + i * (4 + 80) + 5 * p + r) with (84 * i + (4 + 5 * p + r)) by lia.
    rewrite Hsfx by lia. apply peek_sfx_line_pair; lia. }
  change (Z.land j 1) with (Z.land j (Z.ones 1)). rewrite Z.land_ones by lia.
  change (2 ^ 1) with 2.
  destruct (Z.eqb_spec (j mod 2) 0) as [Heven|Hodd]; cbn [negb].
  - assert (Hj2 : j = 2 * p) by (subst p; Z.div_mod_to_equations; lia).
    replace (j * 5 / 2) with (5 * p) by (rewrite Hj2; Z.div_mod_to_equations; lia).
    replace (4 + i * (4 + 80) + 5 * p + 0) with (4 + i * (4 + 80) + 5 * p + 0) by lia.
    rewrite !Hidx by lia. unfold pair_bytes.
    match goal with |- context [peek [?a; ?b; ?c; ?d; ?e] _] =>
      destruct (peek_list5 a b c d e) as (-> & -> & -> & _ & _) end.
    rewrite lor_bytes3 by lia. rewrite Z.shiftr_div_pow2 by lia. change (2 ^ 4) with 16.
    rewrite even_bits, word_of_nibbles by lia.
    rewrite Hj2. replace (2 * (2 * p)) with (4 * p) by lia.
    apply word_of_digits; assumption.
  - assert (Hj2 : j = 2 * p + 1) by (subst p; Z.div_mod_to_equations; lia).
    replace (j * 5 / 2) with (5 * p + 2) by (rewrite Hj2; Z.div_mod_to_equations; lia).
    replace (4 + i * (4 + 80) + (5 * p + 2) + 0) with (4 + i * (4 + 80) + 5 * p + 2) by lia.
    replace (4 + i * (4 + 80) + (5 * p + 2) + 1) with (4 + i * (4 + 80) + 5 * p + 3) by lia.
    replace (4 + i * (4 + 80) + (5 * p + 2) + 2) with (4 + i * (4 + 80) + 5 * p + 4) by lia.
    rewrite !Hidx by lia. unfold pair_bytes.
    match goal with |- context [peek [?a; ?b; ?c; ?d; ?e] _] =>
      destruct (peek_list5 a b c d e) as (_ & _ & -> & -> & ->) end.
    rewrite lor_bytes3 by lia.
    change 1048575 with (Z.ones 20). rewrite Z.land_ones by lia. change (2 ^ 20) with 1048576.
    rewrite odd_bits, word_of_nibbles by lia.
    rewrite Hj2. replace (2 * (2 * p + 1)) with (4 * p + 2) by lia.
    replace (4 * p + 2 + 1) with (4 * p + 3) by lia.
    apply word_of_digits; assumption.
Qed.

End SfxFacts.

Module NoteFacts.
Import Text Memory Peg P8Reader Cart ByteFacts LoopFacts PackerFacts ReaderFacts HexFacts
  BitFacts SfxFacts.

Lemma note_fields_packed (k i v e : Z) :
  0 <= k < 64 -> 0 <= i < 8 -> 0 <= v < 8 -> 0 <= e < 16 ->
  let w := packed_note k i v e in
  note_fields (w mod 256) (w / 256) = (k, i, v, e).
Proof.
  intros Hk Hi Hv He w. unfold note_fields.
  replace (w mod 256 + 256 * (w / 256)) with w
    by (pose proof (Z.div_mod w 256 ltac:(lia)); lia).
  subst w. unfold packed_note. rewrite !Z.mod_small by lia. unfold bits.
  change (2 ^ 0) with 1. change (2 ^ 6) with 64. change (2 ^ 3) with 8.
  change (2 ^ 9) with 512. change (2 ^ 12) with 4096. change (2 ^ 4) with 16.
  repeat f_equal; Z.div_mod_to_equations; lia.
Qed.

(** The fields that [load_p8] reads are within their widths. *)
Lemma note_bits_fields_range (x : Z) :
  0 <= note_key x < 64 /\ 0 <= note_instrument x < 8
  /\ 0 <= note_volume x < 8 /\ 0 <= note_effect x < 16.
Proof.
  rewrite note_key_div, note_instrument_div, note_volume_div, note_effect_mod.
  repeat split; apply Z.mod_pos_bound; lia.
Qed.

(** C6: a note of a sound effect, written by [save_p8] among the 32
    notes of its line and read back by [load_p8], has the key, the
    instrument, the volume and the effect that it had.  The note is note
    [j] of any sound effect [entry]; it holds the four values once they
    are assigned to its bit-fields. *)
Theorem sfx_note_round_trip (entry : list Z) (j key instrument volume effect next : Z) :
  byte_rom entry -> len entry = sizeof_sfx_t -> 0 <= j < 32 ->
  0 <= key < 64 -> 0 <= instrument < 8 -> 0 <= volume < 8 -> 0 <= effect < 16 ->
  let entry' := store_note entry (sizeof_note_t * j) key instrument volume effect in
  let sfx := decode_data false false next (sfx_line_text (peek entry')) in
  let ins := note_bits sfx 0 j in
  note_fields (peek entry' (2 * j)) (peek entry' (2 * j + 1))
  = (key, instrument, volume, effect)
  /\ (note_key ins, note_instrument ins, note_volume ins, note_effect ins)
     = (key, instrument, volume, effect).
Proof.
  intros Hentry Hlen Hj Hk Hi Hv He entry' sfx ins.
  assert (Hb' : byte_rom entry') by (apply byte_rom_store_note; exact Hentry).
  assert (Hd0 : peek entry' (2 * j) = packed_note key instrument volume effect mod 256).
  { unfold entry'. rewrite peek_store_note by (try assumption; layout; lia).
    layout. rewrite Z.eqb_refl. reflexivity. }
  assert (Hd1 : peek entry' (2 * j + 1) = packed_note key instrument volume effect / 256).
  { unfold entry'. rewrite peek_store_note by (try assumption; layout; lia).
    layout. destruct (Z.eqb_spec (2 * j + 1) (2 * j)); [lia|].
    rewrite Z.eqb_refl. reflexivity. }
  split.
  - rewrite Hd0, Hd1. apply note_fields_packed; assumption.
  - assert (Hsfx : sfx = sfx_line_bytes (peek entry')).
    { unfold sfx. rewrite <- (app_nil_r (sfx_line_text _)).
      rewrite decode_sfx_line by (intros k; apply peek_range, Hb').
      apply app_nil_r. }
    assert (Hw : note_word ins = packed_note key instrument volume effect).
    { unfold ins.
      assert (Hn : note_word (note_bits sfx 0 j)
                   = peek entry' (2 * j) + 256 * peek entry' (2 * j + 1)).
      { apply note_word_of_line; [| |exact Hj].
        - intros k. apply peek_range, Hb'.
        - intros r Hr. rewrite Hsfx. unfold vec_at. f_equal; lia. }
      rewrite Hn, Hd0, Hd1.
      pose proof (Z.div_mod (packed_note key instrument volume effect) 256 ltac:(lia)). lia. }
    destruct (note_bits_fields_range ins) as (Hk' & Hi' & Hv' & He').
    unfold note_word, packed_note in Hw. rewrite !Z.mod_small in Hw by lia.
    assert (note_key ins = key /\ note_instrument ins = instrument
            /\ note_volume ins = volume /\ note_effect ins = effect) as (-> & -> & -> & ->)
      by lia.
    reflexivity.
Qed.

Lemma sfx_note_round_trip_witness :
  let entry := replicate 68 0xff in
  let entry' := store_note entry (sizeof_note_t * 5) 0x2a 5 3 0xc in
  let ins := note_bits (decode_data false false 0 (sfx_line_text (peek entry'))) 0 5 in
  (note_key ins, note_instrument ins, note_volume ins, note_effect ins) = (0x2a, 5, 3, 0xc).
Proof.
  intros entry entry' ins.
  apply (sfx_note_round_trip entry 5 0x2a 5 3 0xc 0); try lia.
  - apply Forall_replicate. lia.
  - reflexivity.
Defined.

End NoteFacts.

(** ** The bytes in the low bits of an image *)

Module PngFacts.
Import Text Memory Cart ByteFacts LoopFacts PackerFacts.

(** The four 2-bit fields of a byte, as [save_png] cuts them out. *)
Lemma byte_fields (byte : Z) :
  0 <= byte < 256 ->
  Z.land byte 0x30 / 16 = (byte / 16) mod 4
  /\ Z.land byte 0x0c / 4 = (byte / 4) mod 4
  /\ Z.land byte 0x03 / 1 = byte mod 4
  /\ Z.land byte 0xc0 / 64 = byte / 64
  /\ Z.land byte 0x30 < 256 /\ Z.land byte 0x0c < 256
  /\ Z.land byte 0x03 < 256 /\ Z.land byte 0xc0 < 256
  /\ 0 <= Z.land byte 0x30 /\ 0 <= Z.land byte 0x0c
  /\ 0 <= Z.land byte 0x03 /\ 0 <= Z.land byte 0xc0.
Proof.
  intros Hb.
  assert (Hall : forallb (fun b =>
      (Z.land b 0x30 / 16 =? (b / 16) mod 4) && (Z.land b 0x0c / 4 =? (b / 4) mod 4)
      && (Z.land b 0x03 / 1 =? b mod 4) && (Z.land b 0xc0 / 64 =? b / 64)
      && (Z.land b 0x30 <? 256) && (Z.land b 0x0c <? 256)
      && (Z.land b 0x03 <? 256) && (Z.land b 0xc0 <? 256)
      && (0 <=? Z.land b 0x30) && (0 <=? Z.land b 0x0c)
      && (0 <=? Z.land b 0x03) && (0 <=? Z.land b 0xc0)) (seqZ 0 256) = true)
    by (vm_compute; reflexivity).
  apply (forallb_seqZ _ _ Hall) in Hb.
  repeat (apply andb_true_iff in Hb; destruct Hb as [Hb ?]).
  repeat match goal with
    | H : (_ =? _) = true |- _ => apply Z.eqb_eq in H
    | H : (_ <? _) = true |- _ => apply Z.ltb_lt in H
    | H : (_ <=? _) = true |- _ => apply Z.leb_le in H
    end.
  repeat split; assumption.
Qed.

(** A channel after the byte went in and came out: the low 2 bits of the
    channel are the field, whatever the channel was. *)
Lemma channel_round_trip (c x K f : Z) :
  0 <= f < 4 -> uint8 x / uint8 K = f ->
  uint8 (uint8 (uint8 (uint8 (c / uint8 4) * uint8 4) + uint8 (uint8 x / uint8 K)) * uint8 64)
  = f * 64.
Proof.
  intros Hf Hx. rewrite Hx. clear Hx x K. unfold uint8.
  change (4 mod 256) with 4. change (64 mod 256) with 64.
  Z.div_mod_to_equations. lia.
Qed.

(** One pixel: the byte that [save_png] puts in the low 2 bits of the
    four channels of a pixel is the byte that [load_png] takes from them,
    whatever the pixel of the carrier was. *)
Lemma pixel_round_trip (px : Vec.u8vec4) (byte : Z) :
  0 <= byte < 256 -> pixel_byte (embed_pixel px byte) = byte.
Proof.
  intros Hb.
  destruct (byte_fields byte Hb)
    as (Hr & Hg & Hbl & Ha & Hr1 & Hg1 & Hb1 & Ha1 & Hr0 & Hg0 & Hb0 & Ha0).
  unfold pixel_byte, embed_pixel, Vec.mul_s, Vec.div_s, Vec.add, Vec.div, Vec.map2,
    Vec.splat, Vec.make.
  cbn [Vec.r Vec.g Vec.b Vec.a].
  rewrite (channel_round_trip (Vec.a px) (Z.land byte 192) 64 (byte / 64)),
    (channel_round_trip (Vec.r px) (Z.land byte 48) 16 ((byte / 16) mod 4)),
    (channel_round_trip (Vec.g px) (Z.land byte 12) 4 ((byte / 4) mod 4)),
    (channel_round_trip (Vec.b px) (Z.land byte 3) 1 (byte mod 4)).
  - unfold uint8. Z.div_mod_to_equations. lia.
  - Z.div_mod_to_equations. lia.
  - unfold uint8. rewrite (Z.mod_small (Z.land byte 3)) by lia. exact Hbl.
  - Z.div_mod_to_equations. lia.
  - unfold uint8. rewrite (Z.mod_small (Z.land byte 12)) by lia. exact Hg.
  - Z.div_mod_to_equations. lia.
  - unfold uint8. rewrite (Z.mod_small (Z.land byte 48)) by lia. exact Hr.
  - Z.div_mod_to_equations. lia.
  - unfold uint8. rewrite (Z.mod_small (Z.land byte 192)) by lia. exact Ha.
Qed.

Lemma length_set_pixel (pixels : list Vec.u8vec4) (n : Z) (p : Vec.u8vec4) :
  length (set_pixel pixels n p) = length pixels.
Proof. unfold set_pixel. destruct (n <? 0); [reflexivity | apply length_insert]. Qed.

Lemma pixel_at_set_pixel (pixels : list Vec.u8vec4) (n k : Z) (p : Vec.u8vec4) :
  0 <= n < Z.of_nat (length pixels) ->
  pixel_at (set_pixel pixels n p) k = if k =? n then p else pixel_at pixels k.
Proof.
  intros Hn. unfold pixel_at, set_pixel.
  destruct (Z.ltb_spec n 0); [lia|].
  destruct (Z.eqb_spec k n) as [->|Hne].
  - destruct (Z.ltb_spec n 0); [lia|]. rewrite list_lookup_insert_eq by lia. reflexivity.
  - destruct (Z.ltb_spec k 0); [reflexivity|].
    rewrite list_lookup_insert_ne by lia. reflexivity.
Qed.

(** The pixels after the first [k] rounds of the loop that writes the ROM. *)
Lemma write_rom_rounds (rom : list Z) (pixels : list Vec.u8vec4) (k : Z) :
  0 <= k <= Z.of_nat (length pixels) ->
  let step := fun pixels n =>
    set_pixel pixels n (embed_pixel (pixel_at pixels n) (vec_at rom n)) in
  length (fold_left step (seqZ 0 k) pixels) = length pixels
  /\ forall n, pixel_at (fold_left step (seqZ 0 k) pixels) n
       = if (0 <=? n) && (n <? k) then embed_pixel (pixel_at pixels n) (vec_at rom n)
         else pixel_at pixels n.
Proof.
  intros [Hk Hlen] step. revert Hlen. pattern k.
  apply natlike_ind; [| |exact Hk]; clear k Hk.
  - intros _. split; [reflexivity|]. intros n. cbn [seqZ fold_left].
    destruct (Z.leb_spec 0 n); destruct (Z.ltb_spec n 0); simpl; try reflexivity; lia.
  - intros k Hk IH Hlen. destruct (IH ltac:(lia)) as [IHl IHp].
    rewrite <- Z.add_1_r, seqZ_snoc, fold_left_app by lia. cbn [fold_left].
    split; [unfold step at 1; rewrite length_set_pixel; exact IHl|].
    intros n. unfold step at 1. rewrite pixel_at_set_pixel by lia. rewrite !IHp.
    destruct (Z.eqb_spec n k) as [->|Hne].
    + destruct (Z.leb_spec 0 k); [|lia].
      destruct (Z.ltb_spec k k); [lia|]. destruct (Z.ltb_spec k (k + 1)); [|lia].
      reflexivity.
    + destruct (Z.leb_spec 0 n); destruct (Z.ltb_spec n k);
        destruct (Z.ltb_spec n (k + 1)); simpl; try reflexivity; lia.
Qed.

(** The two loops: the bytes that the loop of [load_png] takes from the
    pixels that the loop of [save_png] wrote are the bytes that were
    written, one a pixel, for every list of bytes and every carrier. *)
Lemma image_codec_round_trip (px : Vec.u8vec4) (byte : Z) (rom : list Z)
    (pixels : list Vec.u8vec4) :
  0 <= byte < 256 -> byte_rom rom -> len rom <= Z.of_nat (length pixels) ->
  pixel_byte (embed_pixel px byte) = byte
  /\ map (fun n => pixel_byte (pixel_at (write_rom rom pixels) n)) (seqZ 0 (len rom)) = rom.
Proof.
  intros Hb Hrom Hlen. split; [apply pixel_round_trip; exact Hb|].
  destruct (write_rom_rounds rom pixels (len rom) ltac:(unfold len in *; lia)) as [_ Hpx].
  apply list_eq. intros i. rewrite list_lookup_fmap.
  destruct (decide (i < length rom)%nat) as [Hi|Hi].
  - rewrite lookup_seqZ_lt by (unfold len; lia). cbn [fmap option_fmap option_map].
    unfold write_rom. rewrite Hpx.
    destruct (Z.leb_spec 0 (0 + Z.of_nat i)); [|lia].
    destruct (Z.ltb_spec (0 + Z.of_nat i) (len rom)); [|unfold len in *; lia].
    cbn [andb]. destruct (lookup_lt_is_Some_2 rom i Hi) as [x Hx].
    rewrite Hx. f_equal.
    assert (Hv : vec_at rom (0 + Z.of_nat i) = x).
    { unfold vec_at, peek. destruct (Z.ltb_spec (0 + Z.of_nat i) 0); [lia|].
      replace (Z.to_nat (0 + Z.of_nat i)) with i by lia. rewrite Hx. reflexivity. }
    rewrite Hv. apply pixel_round_trip.
    apply (proj1 (Forall_lookup _ _) Hrom _ _ Hx).
  - rewrite lookup_seqZ_ge by (unfold len; lia).
    rewrite lookup_ge_None_2 by lia. reflexivity.
Qed.

End PngFacts.

(** ** The loaders and the binary container *)

Module CartFacts.
Import Text Memory Cart ByteFacts LoopFacts PackerFacts.

Section WithExternals.
Context `{Externals}.

(** *** The size check of [load_png] *)

(** The result of [load_png] for an image that decodes. *)
Lemma load_png_result (w : world) (filename : list Z) (c : cart)
    (width height : Z) (image : list Z) :
  lodepng_decode w filename = (0, width, height, image) ->
  fst (load_png w filename c) = (uint32 (width * height) =? 160 * 205).
Proof.
  intros Hdec. unfold load_png. rewrite Hdec. cbn [Z.eqb negb].
  destruct (uint32 (width * height) =? 160 * 205); reflexivity.
Qed.

(** C5, as the code has it: [load_png] compares the number of pixels, the
    product of the width and the height in [unsigned int], with 160 * 205.
    An image that decodes is refused, the cartridge untouched, when the
    product differs, and passes the check when it is equal, whatever the
    two factors are; so an image of 160 by 205 pixels passes. *)
Theorem load_png_size_check (w : world) (filename : list Z) (c : cart)
    (width height : Z) (image : list Z) :
  lodepng_decode w filename = (0, width, height, image) ->
  fst (load_png w filename c) = (uint32 (width * height) =? 160 * 205)
  /\ (uint32 (width * height) <> 160 * 205 -> load_png w filename c = (false, c))
  /\ (width = 160 -> height = 205 -> fst (load_png w filename c) = true).
Proof.
  intros Hdec. split; [apply (load_png_result _ _ _ _ _ _ Hdec)|]. split.
  - intros Hne. unfold load_png. rewrite Hdec. cbn [Z.eqb negb].
    destruct (Z.eqb_spec (uint32 (width * height)) (160 * 205)); [contradiction|reflexivity].
  - intros -> ->. rewrite (load_png_result _ _ _ _ _ _ Hdec). reflexivity.
Qed.

(** An image of 160 by 205 pixels passes the check. *)
Lemma load_png_accepts_160x205 (w : world) (filename : list Z) (c : cart) (image : list Z) :
  lodepng_decode w filename = (0, 160, 205, image) ->
  fst (load_png w filename c) = true.
Proof. intros Hdec. rewrite (load_png_result _ _ _ _ _ _ Hdec). reflexivity. Qed.

(** An image that does not decode is refused. *)
Lemma load_png_decode_error (w : world) (filename : list Z) (c : cart)
    (error width height : Z) (image : list Z) :
  lodepng_decode w filename = (error, width, height, image) -> error <> 0 ->
  load_png w filename c = (false, c).
Proof.
  intros Hdec Herr. unfold load_png. rewrite Hdec.
  destruct (Z.eqb_spec error 0); [contradiction | reflexivity].
Qed.

(** *** [get_bin] *)

Lemma get_bin_eq (c : cart) :
  code_off <= len (m_rom c) ->
  get_bin c
  = resize (take (Z.to_nat code_off) (m_rom c) ++ code_compress (m_code c)) size
    ++ [uint8 PICO8_VERSION].
Proof.
  intros Hlen. unfold get_bin. f_equal. f_equal. f_equal.
  unfold memcpy, resize. change (Z.to_nat 0) with 0%nat.
  rewrite take_0, take_nil. cbn [app length]. rewrite Nat.sub_0_r, Nat.add_0_l, length_take.
  rewrite drop_ge; [apply app_nil_r|].
  rewrite length_replicate. unfold len in *. lia.
Qed.

(** C2, as the code has it: [get_bin] has no failure to report.  For every
    cartridge it gives [sizeof(memory) + 1] bytes: the memory up to the
    code, the compressed code in the 0x3d00 bytes from there to the end of
    the memory, and the version.  Compressed code that is shorter is
    followed by zeros, also when it is longer than the 0x1b00 bytes of the
    code section; what is beyond 0x3d00 bytes is left out. *)
Theorem get_bin_container (c : cart) :
  len (m_rom c) = size ->
  let compressed := code_compress (m_code c) in
  len (get_bin c) = size + 1
  /\ take (Z.to_nat code_off) (get_bin c) = take (Z.to_nat code_off) (m_rom c)
  /\ take (Z.to_nat sizeof_code_t) (drop (Z.to_nat code_off) (get_bin c))
     = take (Z.to_nat sizeof_code_t) (compressed ++ replicate (Z.to_nat sizeof_code_t) 0)
  /\ drop (Z.to_nat size) (get_bin c) = [uint8 PICO8_VERSION].
Proof.
  intros Hlen compressed. rewrite get_bin_eq by (layout; lia). fold compressed.
  set (data := take (Z.to_nat code_off) (m_rom c)).
  assert (Hdata : length data = Z.to_nat code_off).
  { unfold data. rewrite length_take. unfold len in *. layout. lia. }
  assert (Hres : length (resize (data ++ compressed) size) = Z.to_nat size).
  { unfold resize. rewrite length_app, length_take, length_replicate. lia. }
  repeat split.
  - unfold len. rewrite length_app, Hres. cbn [length]. layout. lia.
  - rewrite take_app_le by (rewrite Hres; layout; lia).
    unfold resize. rewrite take_app_le by (rewrite length_take, length_app; layout; lia).
    rewrite take_take. rewrite take_app_le by (layout; lia).
    replace (Z.to_nat code_off `min` Z.to_nat size)%nat with (Z.to_nat code_off)
      by (layout; lia).
    rewrite take_ge by lia. reflexivity.
  - rewrite drop_app_le by (rewrite Hres; layout; lia).
    rewrite take_app_le by (rewrite length_drop, Hres; layout; lia).
    unfold resize.
    apply list_eq. intros i.
    destruct (decide (i < Z.to_nat sizeof_code_t)%nat) as [Hi|Hi].
    2:{ rewrite !lookup_take_ge by lia. reflexivity. }
    rewrite !lookup_take_lt by lia. rewrite lookup_drop.
    destruct (decide (i < length compressed)%nat) as [Hc|Hc].
    + rewrite lookup_app_l by (rewrite length_take, length_app; layout; lia).
      rewrite lookup_take_lt by (layout; lia).
      rewrite lookup_app_r by lia. rewrite lookup_app_l by lia.
      f_equal. lia.
    + rewrite lookup_app_r by (rewrite length_take, length_app; layout; lia).
      rewrite (lookup_app_r compressed) by lia.
      rewrite !lookup_replicate_2; [reflexivity| |].
      * lia.
      * rewrite length_take, length_app. layout. lia.
  - rewrite drop_app_length'; [reflexivity|]. symmetry. exact Hres.
Qed.

(** *** The loaders that fail *)

Lemma load_p8_failure (w : world) (filename : list Z) (c : cart) :
  fst (load_p8 w filename c) = false -> snd (load_p8 w filename c) = c.
Proof.
  unfold load_p8. destruct (file_read w (get_data_path w filename)) as [s|]; [|reflexivity].
  destruct (P8Reader.m_version _ <? 0); [reflexivity | discriminate].
Qed.

Lemma load_lua_failure (w : world) (filename : list Z) (c : cart) :
  fst (load_lua w filename c) = false -> snd (load_lua w filename c) = c.
Proof.
  unfold load_lua. destruct (file_read w (get_data_path w filename)); [discriminate|reflexivity].
Qed.

Lemma load_png_failure (w : world) (filename : list Z) (c : cart) :
  fst (load_png w filename c) = false -> snd (load_png w filename c) = c.
Proof.
  unfold load_png. destruct (lodepng_decode w filename) as [[[error width] height] image].
  destruct (negb (error =? 0)); [reflexivity|].
  destruct (negb (uint32 (width * height) =? 160 * 205)); [reflexivity | discriminate].
Qed.

Lemma load_js_failure (w : world) (filename : list Z) (c : cart) :
  fst (load_js w filename c) = false -> snd (load_js w filename c) = c.
Proof.
  unfold load_js. destruct (file_read w (get_data_path w filename)) as [code|]; [|reflexivity].
  destruct (string_find code (str "[") _) as [start|]; [|reflexivity].
  destruct (string_find code (str "]") _) as [end_|]; [|reflexivity].
  destruct (JS_ParseJSON w _); [reflexivity | discriminate | reflexivity].
Qed.

Lemma load_failure (w : world) (filename : list Z) (c : cart) :
  fst (load w filename c) = false -> snd (load w filename c) = c.
Proof.
  unfold load.
  assert (Hstep : forall (cond : bool) (ld : world -> list Z -> cart -> bool * cart)
                    (c0 : cart),
            (forall c1, fst (ld w filename c1) = false -> snd (ld w filename c1) = c1) ->
            forall r, r = (if cond then ld w filename c0 else (false, c0)) ->
            fst r = false -> snd r = c0).
  { intros cond ld c0 Hld r -> Hf. destruct cond; [apply Hld; exact Hf | reflexivity]. }
  destruct (if ends_with (tolower filename) (str ".p8") then load_p8 w filename c else (false, c))
    as [ok1 c1] eqn:E1.
  pose proof (Hstep _ load_p8 c (load_p8_failure w filename) _ (eq_sym E1)) as H1. cbn [fst snd] in H1.
  destruct ok1; [discriminate|]. rewrite (H1 eq_refl) in *. clear H1 E1 c1.
  destruct (if ends_with (tolower filename) (str ".lua") then load_lua w filename c else (false, c))
    as [ok2 c2] eqn:E2.
  pose proof (Hstep _ load_lua c (load_lua_failure w filename) _ (eq_sym E2)) as H2. cbn [fst snd] in H2.
  destruct ok2; [discriminate|]. rewrite (H2 eq_refl) in *. clear H2 E2 c2.
  destruct (if ends_with (tolower filename) (str ".png") then load_png w filename c else (false, c))
    as [ok3 c3] eqn:E3.
  pose proof (Hstep _ load_png c (load_png_failure w filename) _ (eq_sym E3)) as H3. cbn [fst snd] in H3.
  destruct ok3; [discriminate|]. rewrite (H3 eq_refl) in *. clear H3 E3 c3.
  destruct (if ends_with (tolower filename) (str ".js") then load_js w filename c else (false, c))
    as [ok4 c4] eqn:E4.
  pose proof (Hstep _ load_js c (load_js_failure w filename) _ (eq_sym E4)) as H4. cbn [fst snd] in H4.
  destruct ok4; [discriminate|]. intros _. cbn [snd]. apply H4. reflexivity.
Qed.

(** The load operations of [class cart]. *)
Definition loaders : list (world -> list Z -> cart -> bool * cart) :=
  [load; load_p8; load_lua; load_png; load_js].

(** C8: a load operation that returns failure leaves the cartridge as it
    was: its memory, its script text, its label and its code cache.  Every
    [return false] of the loaders comes before the first assignment to a
    member. *)
Theorem failed_load_leaves_cart (loader : world -> list Z -> cart -> bool * cart)
    (w : world) (filename : list Z) (c : cart) :
  In loader loaders ->
  fst (loader w filename c) = false ->
  snd (loader w filename c) = c.
Proof.
  intros Hin Hfail. cbn [loaders In] in Hin.
  destruct Hin as [<- | [<- | [<- | [<- | [<- | []]]]]].
  - apply load_failure, Hfail.
  - apply load_p8_failure, Hfail.
  - apply load_lua_failure, Hfail.
  - apply load_png_failure, Hfail.
  - apply load_js_failure, Hfail.
Qed.

End WithExternals.

Import Sample.

Lemma load_png_size_check_witness :
  fst (load_png (one_image 160 205 (replicate (Z.to_nat (4 * 160 * 205)) 0)) (str "cart.png")
         empty_cart)
  = true.
Proof.
  apply (load_png_size_check (one_image 160 205 (replicate (Z.to_nat (4 * 160 * 205)) 0))
           (str "cart.png") empty_cart 160 205 (replicate (Z.to_nat (4 * 160 * 205)) 0));
    reflexivity.
Defined.

(** C5, as the claim has it, fails: an image of 205 by 160 pixels, which
    is not 160 wide and 205 high, has 32800 pixels and is loaded. *)
Lemma load_png_accepts_205x160 :
  fst (load_png (one_image 205 160 (replicate (Z.to_nat (4 * 205 * 160)) 0)) (str "cart.png") empty_cart)
  = true.
Proof.
  rewrite (load_png_result _ _ _ 205 160 (replicate (Z.to_nat (4 * 205 * 160)) 0));
    reflexivity.
Qed.

Lemma get_bin_container_witness :
  len (get_bin (script_cart (replicate (Z.to_nat 0x1b01) (ch "a")))) = size + 1.
Proof.
  apply (get_bin_container (script_cart (replicate (Z.to_nat 0x1b01) (ch "a")))).
  apply length_zero_rom.
Defined.

(** C2, as the claim has it, fails.  With a compressor that stores the
    text, a script of 0x3d01 characters has compressed code of more than
    0x1b00 bytes; [get_bin] gives a container all the same, the one of the
    script without its last character, and the code in it decompresses to
    another script. *)
Lemma get_bin_truncates_silently :
  let code := replicate (Z.to_nat 0x3d00) (ch "a") ++ [ch "b"] in
  let c := script_cart code in
  (0x1b00 <? len (code_compress (m_code c))) = true
  /\ len (get_bin c) = size + 1
  /\ bool_decide (get_bin c = get_bin (script_cart (replicate (Z.to_nat 0x3d00) (ch "a"))))
     = true
  /\ bool_decide (m_code (set_bin (get_bin c ++ [0; 0; 0; 0]) c) = code) = false.
Proof. vm_compute. repeat split. Qed.

Lemma failed_load_leaves_cart_witness :
  snd (load_p8 (one_file (str "a.p8") (str "not a cartridge")) (str "a.p8")
         (script_cart (str "x=1")))
  = script_cart (str "x=1").
Proof.
  apply (failed_load_leaves_cart load_p8).
  - cbn [loaders In]. auto.
  - vm_compute. reflexivity.
Defined.

End CartFacts.

(** ** The grammar of the [.p8] format on the text that [save_p8] writes *)

Module ParseFacts.
Import Text Peg P8Reader ByteFacts ReaderFacts.

(** *** The combinators *)

Section Combinators.
Context {St : Type}.

Lemma starts_with_app (w s : list Z) : starts_with w (w ++ s) = true.
Proof. induction w as [|a w IH]; [reflexivity|]. simpl. rewrite Z.eqb_refl. exact IH. Qed.

Lemma starts_with_split (w s : list Z) :
  starts_with w s = true -> s = w ++ drop (length w) s.
Proof.
  revert s. induction w as [|a w IH]; intros s Hs; [reflexivity|].
  destruct s as [|b s]; [discriminate|]. simpl in Hs.
  apply andb_true_iff in Hs. destruct Hs as [Hab Hs]. apply Z.eqb_eq in Hab. subst b.
  simpl. f_equal. apply IH, Hs.
Qed.

Lemma lit_app (w : list Z) (st : St) (s : list Z) : lit w st (w ++ s) = (st, Some s).
Proof. unfold lit. rewrite starts_with_app, drop_app_length. reflexivity. Qed.

(** The characters of a class at the head of a text, skipped. *)
Fixpoint skip_class (rs : list (Z * Z)) (s : list Z) : list Z :=
  match s with
  | c :: t =>
      if existsb (fun r => (fst r <=? c) && (c <=? snd r)) rs then skip_class rs t else s
  | [] => []
  end.

Lemma star_n_ranges (rs : list (Z * Z)) (st : St) (s : list Z) (n : nat) :
  (length s <= n)%nat -> star_n n (ranges rs) st s = Some (st, Some (skip_class rs s)).
Proof.
  revert n. induction s as [|c t IH]; intros n Hn.
  - destruct n; reflexivity.
  - destruct n as [|n]; [simpl in Hn; lia|].
    simpl. destruct (existsb _ rs); [|reflexivity].
    apply IH. simpl in Hn. lia.
Qed.

Lemma star_ranges (rs : list (Z * Z)) (st : St) (s : list Z) :
  star (ranges rs) st s = (st, Some (skip_class rs s)).
Proof. unfold star. rewrite star_n_ranges by lia. reflexivity. Qed.

Lemma length_skip_class (rs : list (Z * Z)) (s : list Z) :
  (length (skip_class rs s) <= length s)%nat.
Proof.
  induction s as [|c t IH]; [reflexivity|]. simpl.
  destruct (existsb _ rs); simpl; lia.
Qed.

(** What is skipped and what is left make the text. *)
Lemma skip_class_split (rs : list (Z * Z)) (s : list Z) :
  s = take (length s - length (skip_class rs s)) s ++ skip_class rs s
  /\ Forall (fun c => existsb (fun r => (fst r <=? c) && (c <=? snd r)) rs = true)
            (take (length s - length (skip_class rs s)) s).
Proof.
  induction s as [|c t [IH1 IH2]]; [split; [reflexivity|constructor]|].
  simpl. destruct (existsb _ rs) eqn:Hc.
  - pose proof (length_skip_class rs t).
    replace (S (length t) - length (skip_class rs t))%nat
      with (S (length t - length (skip_class rs t))) by lia.
    simpl. split; [f_equal; exact IH1 | constructor; assumption].
  - simpl. rewrite Nat.sub_diag. split; [reflexivity|constructor].
Qed.

(** [until<eolf>] and [until<eol>] take a line and the line feed that ends
    it. *)
Lemma until_eolf_line (st : St) (l rest : list Z) :
  Forall (fun c => c <> 10) l -> until eolf st (l ++ 10 :: rest) = (st, Some rest).
Proof.
  induction 1 as [|c l Hc Hl IH]; [reflexivity|].
  cbn [app until eolf eol]. destruct (Z.eqb_spec c 10); [contradiction|].
  destruct (Z.eqb_spec c 13); [|exact IH].
  destruct l as [|c' l']; [reflexivity|].
  cbn [app]. inversion Hl; subst. destruct (Z.eqb_spec c' 10); [contradiction|exact IH].
Qed.

Lemma until_eol_line (st : St) (l rest : list Z) :
  Forall (fun c => c <> 10) l -> until eol st (l ++ 10 :: rest) = (st, Some rest).
Proof.
  induction 1 as [|c l Hc Hl IH]; [reflexivity|].
  cbn [app until eol]. destruct (Z.eqb_spec c 10); [contradiction|].
  destruct (Z.eqb_spec c 13); [|exact IH].
  destruct l as [|c' l']; [reflexivity|].
  cbn [app]. inversion Hl; subst. destruct (Z.eqb_spec c' 10); [contradiction|exact IH].
Qed.

End Combinators.

(** *** The marker of a section *)

Definition alnum_ranges : list (Z * Z) :=
  [(ch "a", ch "z"); (ch "A", ch "Z"); (ch "0", ch "9")].

(** What [r_any] leaves of a text. *)
Definition any_rest (s : list Z) : option (list Z) :=
  if starts_with [95; 95] s then
    match drop 2 s with
    | c :: t =>
        if existsb (fun r => (fst r <=? c) && (c <=? snd r)) alnum_ranges then
          let s2 := skip_class alnum_ranges t in
          if starts_with [95; 95] s2 then Some (drop 2 s2) else None
        else None
    | [] => None
    end
  else None.

Lemma r_any_eq (st : p8_reader) (s : list Z) : r_any st s = (st, any_rest s).
Proof.
  unfold r_any, any_rest, two, plus. cbn [seq]. unfold lit at 1. cbn [length].
  change (ch "_") with 95.
  destruct (starts_with [95; 95] s); [|reflexivity].
  destruct (drop 2 s) as [|c t]; [reflexivity|].
  unfold alnum at 1, ranges at 1. fold alnum_ranges.
  destruct (existsb _ alnum_ranges); [|reflexivity].
  unfold alnum. rewrite star_ranges. fold alnum_ranges.
  unfold lit. cbn [length]. destruct (starts_with [95; 95] _); reflexivity.
Qed.

(** The names that the grammar lists are names that [r_any] takes too, to
    the same end. *)
Lemma any_rest_name (w s : list Z) :
  In w [str "__lua__"; str "__gfx__"; str "__gff__"; str "__map__"; str "__sfx__";
        str "__music__"; str "__label__"] ->
  starts_with w s = true -> any_rest s = Some (drop (length w) s).
Proof.
  intros Hw Hs. apply starts_with_split in Hs. rewrite Hs at 1.
  cbn [In] in Hw.
  destruct Hw as [<- | [<- | [<- | [<- | [<- | [<- | [<- | []]]]]]]]; reflexivity.
Qed.

Lemma sor_lit (w : list Z) (rs : list (rule p8_reader)) (st : p8_reader) (s : list Z) :
  sor (lit w :: rs) st s
  = if starts_with w s then (st, Some (drop (length w) s)) else sor rs st s.
Proof. cbn [sor]. unfold lit. destruct (starts_with w s); reflexivity. Qed.

Lemma section_names_eq (st : p8_reader) (s : list Z) :
  sor [r_lua; r_gfx; r_gff; r_map; r_sfx; r_mus; r_lab; r_any] st s = (st, any_rest s).
Proof.
  unfold r_lua, r_gfx, r_gff, r_map, r_sfx, r_mus, r_lab.
  repeat (rewrite sor_lit;
          match goal with
          | |- context [starts_with ?w s] =>
              destruct (starts_with w s) eqn:?;
                [ rewrite (any_rest_name w s) by (assumption || (cbn [In]; tauto));
                  reflexivity | ]
          end).
  cbn [sor]. rewrite r_any_eq. destruct (any_rest s); reflexivity.
Qed.

(** What [eolf] leaves of a text. *)
Definition eolf_rest (s : list Z) : option (list Z) :=
  snd (eolf {| m_version := 0; m_current_section := 0; m_sections := ∅; m_code := [] |} s).

Lemma eolf_eq (st : p8_reader) (s : list Z) : eolf st s = (st, eolf_rest s).
Proof.
  unfold eolf_rest, eolf, eol. destruct s as [|c t]; [reflexivity|].
  destruct (c =? 10); [reflexivity|]. destruct (c =? 13); [|reflexivity].
  destruct t as [|c' t']; [reflexivity|]. destruct (c' =? 10); reflexivity.
Qed.

(** What [r_section_line] leaves of a text. *)
Definition section_line_rest (s : list Z) : option (list Z) :=
  match any_rest s with
  | Some s3 => eolf_rest s3
  | None => None
  end.

Lemma r_section_line_snd (st : p8_reader) (s : list Z) :
  snd (r_section_line st s) = section_line_rest s.
Proof.
  unfold r_section_line, r_section_name, section_line_rest. cbn [seq]. unfold action.
  rewrite section_names_eq. destruct (any_rest s) as [s3|]; [|reflexivity].
  rewrite eolf_eq. destruct (eolf_rest s3); reflexivity.
Qed.

Lemma is_marker_eq (line : list Z) :
  is_marker line = match section_line_rest (line ++ [10]) with Some _ => true | None => false end.
Proof. unfold is_marker. rewrite r_section_line_snd. reflexivity. Qed.

Ltac case_class :=
  match goal with
  | |- context [existsb ?f alnum_ranges] => destruct (existsb f alnum_ranges)
  end.

(** Whether a line is a marker does not depend on what follows its line
    feed. *)
Lemma skip_class_line (t : list Z) :
  exists t2, forall Y, skip_class alnum_ranges (t ++ 10 :: Y) = t2 ++ 10 :: Y.
Proof.
  induction t as [|c t [t2 IH]].
  - exists []. intros Y. reflexivity.
  - cbn [app skip_class]. case_class.
    + exists t2. exact IH.
    + exists (c :: t). reflexivity.
Qed.

Definition is_alnum (c : Z) : bool :=
  existsb (fun r => (fst r <=? c) && (c <=? snd r)) alnum_ranges.

Lemma any_rest_short (s : list Z) : (length s < 2)%nat -> any_rest s = None.
Proof.
  destruct s as [|c0 [|c1 s1]]; cbn [length]; try lia; intros _; unfold any_rest.
  - reflexivity.
  - cbn [starts_with]. rewrite andb_false_r. reflexivity.
Qed.

Lemma any_rest_cons (c0 c1 : Z) (s1 : list Z) :
  any_rest (c0 :: c1 :: s1)
  = if (95 =? c0) && (95 =? c1) then
      match s1 with
      | c :: t =>
          if is_alnum c then
            match skip_class alnum_ranges t with
            | d0 :: d1 :: t3 => if (95 =? d0) && (95 =? d1) then Some t3 else None
            | _ => None
            end
          else None
      | [] => None
      end
    else None.
Proof.
  unfold any_rest. cbn [starts_with]. rewrite andb_true_r.
  destruct ((95 =? c0) && (95 =? c1)); [|reflexivity].
  change (drop 2 (c0 :: c1 :: s1)) with s1.
  destruct s1 as [|c t]; [reflexivity|]. fold (is_alnum c).
  destruct (is_alnum c); [|reflexivity]. cbv zeta.
  destruct (skip_class alnum_ranges t) as [|d0 [|d1 t3]]; cbn [starts_with].
  - reflexivity.
  - rewrite andb_false_r. reflexivity.
  - rewrite andb_true_r. destruct ((95 =? d0) && (95 =? d1)); reflexivity.
Qed.

Lemma any_rest_line (l : list Z) :
  (forall Y, any_rest (l ++ 10 :: Y) = None)
  \/ exists l3, forall Y, any_rest (l ++ 10 :: Y) = Some (l3 ++ 10 :: Y).
Proof.
  destruct l as [|c0 [|c1 l1]].
  - left. intros Y. cbn [app]. destruct Y; [apply any_rest_short; cbn [length]; lia|].
    rewrite any_rest_cons. reflexivity.
  - left. intros Y. cbn [app]. rewrite any_rest_cons.
    change (95 =? 10) with false. rewrite andb_false_r. reflexivity.
  - destruct ((95 =? c0) && (95 =? c1)) eqn:H0.
    2:{ left. intros Y. cbn [app]. rewrite any_rest_cons, H0. reflexivity. }
    destruct l1 as [|c t].
    { left. intros Y. cbn [app]. rewrite any_rest_cons, H0. reflexivity. }
    destruct (is_alnum c) eqn:Hc.
    2:{ left. intros Y. cbn [app]. rewrite any_rest_cons, H0, Hc. reflexivity. }
    destruct (skip_class_line t) as [t2 Ht2].
    destruct t2 as [|d0 [|d1 t3]].
    + left. intros Y. cbn [app]. rewrite any_rest_cons, H0, Hc, Ht2. cbn [app].
      destruct Y; reflexivity.
    + left. intros Y. cbn [app]. rewrite any_rest_cons, H0, Hc, Ht2. cbn [app].
      change (95 =? 10) with false. rewrite andb_false_r. reflexivity.
    + destruct ((95 =? d0) && (95 =? d1)) eqn:Hd.
      * right. exists t3. intros Y. cbn [app]. rewrite any_rest_cons, H0, Hc, Ht2.
        cbn [app]. rewrite Hd. reflexivity.
      * left. intros Y. cbn [app]. rewrite any_rest_cons, H0, Hc, Ht2.
        cbn [app]. rewrite Hd. reflexivity.
Qed.

Lemma eolf_rest_line (l : list Z) :
  (forall Y, eolf_rest (l ++ 10 :: Y) = None)
  \/ (forall Y, exists Y', eolf_rest (l ++ 10 :: Y) = Some Y').
Proof.
  unfold eolf_rest, eolf, eol. destruct l as [|c t]; cbn [app snd].
  - right. intros Y. exists Y. reflexivity.
  - destruct (c =? 10); [right; intros; eexists; reflexivity|].
    destruct (c =? 13); [|left; reflexivity].
    destruct t as [|c' t']; cbn [app].
    + right. intros Y. exists Y. reflexivity.
    + destruct (c' =? 10); [right; intros; eexists; reflexivity | left; reflexivity].
Qed.

Lemma not_marker_line (l rest : list Z) :
  is_marker l = false -> section_line_rest (l ++ 10 :: rest) = None.
Proof.
  rewrite is_marker_eq. unfold section_line_rest.
  destruct (any_rest_line l) as [Hn | [l3 Hs]].
  - intros _. rewrite Hn. reflexivity.
  - rewrite !Hs. destruct (eolf_rest_line l3) as [He | He].
    + intros _. apply He.
    + destruct (He []) as [Y' HY']. rewrite HY'. discriminate.
Qed.

(** A line that does not start with an underscore is no marker. *)
Lemma section_line_rest_first (c : Z) (s : list Z) :
  c <> 95 -> section_line_rest (c :: s) = None.
Proof.
  intros Hc. unfold section_line_rest. destruct s as [|c1 s1].
  - rewrite any_rest_short by (cbn [length]; lia). reflexivity.
  - rewrite any_rest_cons. destruct (Z.eqb_spec 95 c); [congruence | reflexivity].
Qed.

Lemma section_line_rest_nil : section_line_rest [] = None.
Proof. reflexivity. Qed.

(** *** The blocks of data *)

(** A text made of whole lines none of which is a marker. *)
Inductive data_text : list Z -> Prop :=
| data_nil : data_text []
| data_line (l D : list Z) :
    Forall (fun c => c <> 10) l -> section_line_rest (l ++ [10]) = None ->
    data_text D -> data_text (l ++ 10 :: D).

(** A text after which a block of data ends: the end of the input or the
    marker of a section. *)
Definition data_end (rest : list Z) : Prop :=
  rest = [] \/ exists r, section_line_rest rest = Some r.

(** One round of the loop of [r_data]. *)
Definition data_round : rule p8_reader :=
  seq [not_at r_section_line; not_at eof; r_data_line].

Lemma not_at_section_line (st : p8_reader) (s : list Z) :
  not_at r_section_line st s
  = (st, match section_line_rest s with Some _ => None | None => Some s end).
Proof.
  unfold not_at. pose proof (r_section_line_snd st s) as Hs.
  destruct (r_section_line st s) as [st' [s'|]]; cbn [snd] in Hs; rewrite <- Hs; reflexivity.
Qed.

Lemma section_line_rest_ext (l rest : list Z) :
  section_line_rest (l ++ [10]) = None -> section_line_rest (l ++ 10 :: rest) = None.
Proof.
  intros Hl. apply not_marker_line. rewrite is_marker_eq, Hl. reflexivity.
Qed.

Lemma data_round_line (st : p8_reader) (l rest : list Z) :
  Forall (fun c => c <> 10) l -> section_line_rest (l ++ [10]) = None ->
  data_round st (l ++ 10 :: rest) = (st, Some rest).
Proof.
  intros Hl Hm. unfold data_round. cbn [seq].
  rewrite not_at_section_line, section_line_rest_ext by exact Hm.
  assert (Hne : exists c t, l ++ 10 :: rest = c :: t)
    by (destruct l; cbn [app]; eauto).
  destruct Hne as (c & t & Hct). rewrite Hct.
  change (not_at eof st (c :: t)) with (st, Some (c :: t)). cbv iota beta.
  rewrite <- Hct. unfold r_data_line. rewrite until_eolf_line by exact Hl. reflexivity.
Qed.

Lemma data_round_end (st : p8_reader) (rest : list Z) :
  data_end rest -> data_round st rest = (st, None).
Proof.
  intros [-> | [r Hr]]; unfold data_round; cbn [seq]; rewrite not_at_section_line.
  - reflexivity.
  - rewrite Hr. reflexivity.
Qed.

Lemma star_data (st : p8_reader) (D rest : list Z) (n : nat) :
  data_text D -> data_end rest -> (length D <= n)%nat ->
  star_n n data_round st (D ++ rest) = Some (st, Some rest).
Proof.
  intros HD Hrest. revert n. induction HD as [|l D Hl Hm HD IH]; intros n Hn.
  - cbn [app]. destruct n; cbn [star_n]; rewrite data_round_end by exact Hrest; reflexivity.
  - rewrite <- app_assoc. cbn [app].
    rewrite length_app in Hn. cbn [length] in Hn.
    destruct n as [|n]; [lia|]. cbn [star_n].
    rewrite data_round_line by assumption. apply IH. lia.
Qed.

(** [r_data] on a block of data: the action gets the block and the byte
    behind it. *)
Lemma r_data_block (st : p8_reader) (D rest : list Z) :
  data_text D -> data_end rest ->
  r_data st (D ++ rest) = (action_data D (default 0 (head rest)) st, Some rest).
Proof.
  intros HD Hrest. unfold r_data, action. fold data_round. unfold star.
  rewrite star_data by (try assumption; rewrite length_app; lia).
  rewrite length_app. replace (length D + length rest - length rest)%nat with (length D) by lia.
  rewrite take_app_length. reflexivity.
Qed.

(** *** The sections *)

(** The names that [save_p8] writes, and the sections they select. *)
Definition markers : list (list Z * Z) :=
  [(str "__lua__", section_lua); (str "__gfx__", section_gfx);
   (str "__label__", section_lab); (str "__gff__", section_gff);
   (str "__map__", section_map); (str "__sfx__", section_sfx);
   (str "__music__", section_mus)].

Definition set_section (id : Z) (st : p8_reader) : p8_reader :=
  {| m_version := m_version st;
     m_current_section := id;
     m_sections := m_sections st;
     m_code := m_code st |}.

Lemma marker_cases (name : list Z) (id : Z) (P : list Z -> Z -> Prop) :
  P (str "__lua__") section_lua -> P (str "__gfx__") section_gfx ->
  P (str "__label__") section_lab -> P (str "__gff__") section_gff ->
  P (str "__map__") section_map -> P (str "__sfx__") section_sfx ->
  P (str "__music__") section_mus ->
  In (name, id) markers -> P name id.
Proof.
  intros H1 H2 H3 H4 H5 H6 H7 Hin. unfold markers in Hin. cbn [In] in Hin.
  destruct Hin as [E | [E | [E | [E | [E | [E | [E | [] ] ] ] ] ] ] ];
    inversion E; subst; assumption.
Qed.

Lemma marker_any_rest (name : list Z) (id : Z) (X : list Z) :
  In (name, id) markers -> any_rest (name ++ 10 :: X) = Some (10 :: X).
Proof.
  intros Hin. revert X. pattern name, id. eapply marker_cases; [..|exact Hin];
    intros X; reflexivity.
Qed.

Lemma marker_action (name : list Z) (id : Z) (next : Z) (st : p8_reader) :
  In (name, id) markers -> action_section_name name next st = set_section id st.
Proof.
  intros Hin. pattern name, id. eapply marker_cases; [..|exact Hin]; reflexivity.
Qed.

Lemma section_line_marker (name : list Z) (id : Z) (X : list Z) :
  In (name, id) markers -> section_line_rest (name ++ 10 :: X) = Some X.
Proof.
  intros Hin. unfold section_line_rest. rewrite (marker_any_rest name id) by exact Hin.
  reflexivity.
Qed.

Lemma r_section_line_marker (name : list Z) (id : Z) (X : list Z) (st : p8_reader) :
  In (name, id) markers ->
  r_section_line st (name ++ 10 :: X) = (set_section id st, Some X).
Proof.
  intros Hin. unfold r_section_line, r_section_name. cbn [seq]. unfold action.
  rewrite section_names_eq, (marker_any_rest name id) by exact Hin.
  rewrite length_app. cbn [length].
  replace (length name + S (length X) - S (length X))%nat with (length name) by lia.
  rewrite take_app_length, (marker_action name id) by exact Hin.
  reflexivity.
Qed.

Lemma r_section_nil (st : p8_reader) : r_section st [] = (st, None).
Proof.
  unfold r_section, r_section_line, r_section_name. cbn [seq]. unfold action.
  rewrite section_names_eq. reflexivity.
Qed.

(** [r_section] on the marker of a section and its block of data. *)
Lemma r_section_block (name : list Z) (id : Z) (D rest : list Z) (st : p8_reader) :
  In (name, id) markers -> data_text D -> data_end rest ->
  r_section st (name ++ 10 :: D ++ rest)
  = (action_data D (default 0 (head rest)) (set_section id st), Some rest).
Proof.
  intros Hin HD Hrest. unfold r_section. cbn [seq].
  rewrite (r_section_line_marker name id) by exact Hin.
  rewrite r_data_block by assumption. reflexivity.
Qed.

(** A block of data is empty or ends with a line feed. *)
Lemma data_text_end (D : list Z) : data_text D -> D = [] \/ exists D', D = D' ++ [10].
Proof.
  induction 1 as [|l D Hl Hm HD IH]; [left; reflexivity|]. right.
  destruct IH as [-> | [D' ->] ].
  - exists l. reflexivity.
  - exists (l ++ 10 :: D'). rewrite <- app_assoc. reflexivity.
Qed.

Lemma data_text_app (D1 D2 : list Z) : data_text D1 -> data_text D2 -> data_text (D1 ++ D2).
Proof.
  induction 1 as [|l D Hl Hm HD IH]; intros H2; [exact H2|].
  rewrite <- app_assoc. cbn [app]. constructor; auto.
Qed.

Lemma data_text_flat_map {A : Type} (f : A -> list Z) (l : list A) :
  (forall a, In a l -> data_text (f a)) -> data_text (flat_map f l).
Proof.
  induction l as [|a l IH]; intros Hf; [constructor|].
  cbn [flat_map]. apply data_text_app; [apply Hf; left; reflexivity|].
  apply IH. intros b Hb. apply Hf. right. exact Hb.
Qed.

(** A line without an underscore is a line of data. *)
Definition plain (c : Z) : Prop := c <> 0 /\ c <> 10 /\ c <> 95.

Lemma data_text_plain_line (l : list Z) : Forall plain l -> data_text (l ++ [10]).
Proof.
  intros Hl. change (l ++ [10]) with (l ++ 10 :: []). constructor.
  - eapply Forall_impl; [exact Hl|]. unfold plain. tauto.
  - destruct Hl as [|c l Hc _]; [reflexivity|].
    apply section_line_rest_first. unfold plain in Hc. tauto.
  - constructor.
Qed.

Lemma data_text_nl : data_text [10].
Proof. apply (data_text_plain_line []). constructor. Qed.

(** The byte behind a block of data is not looked at. *)
Lemma decode_data_next (is_swapped is_base32 : bool) (next next' : Z) (D : list Z) :
  D = [] \/ (exists D', D = D' ++ [10]) ->
  decode_data is_swapped is_base32 next D = decode_data is_swapped is_base32 next' D.
Proof.
  remember (length D) as n eqn:Hn. revert D Hn.
  induction n as [n IH] using lt_wf_ind. intros D Hn HD.
  destruct D as [|c0 t]; [reflexivity|].
  assert (Ht : t = [] \/ exists D', t = D' ++ [10]).
  { destruct HD as [HD | [D' HD] ]; [discriminate|].
    destruct D' as [|d D'']; cbn [app] in HD; inversion HD; subst; eauto. }
  cbn [decode_data]. destruct is_base32.
  - rewrite (IH (length t)) with (D := t) by (subst n; cbn [length]; auto; lia).
    reflexivity.
  - fold (is_hex c0). destruct (is_hex c0) eqn:Hc0.
    2:{ apply (IH (length t)); [subst n; cbn [length]; lia | reflexivity | exact Ht]. }
    destruct t as [|c1 t'].
    + destruct HD as [HD | [D' HD] ]; [discriminate|].
      destruct D' as [|d D'']; cbn [app] in HD; inversion HD; subst.
      * discriminate Hc0.
      * destruct D''; discriminate.
    + f_equal. apply (IH (length t')); [subst n; cbn [length]; lia | reflexivity |].
      destruct Ht as [Ht | [D' Ht] ]; [discriminate|].
      destruct D' as [|d D'']; cbn [app] in Ht; inversion Ht; subst; eauto.
Qed.

Lemma action_data_next (D : list Z) (next : Z) (st : p8_reader) :
  data_text D -> action_data D next st = action_data D 0 st.
Proof.
  intros HD. unfold action_data. destruct (m_current_section st =? section_lua); [reflexivity|].
  cbv zeta. rewrite (decode_data_next _ _ next 0) by (apply data_text_end, HD). reflexivity.
Qed.

(** The sections of a text: the name, the section and the block of data
    of each. *)
Definition section_block : Type := list Z * Z * list Z.

Definition render (secs : list section_block) : list Z :=
  flat_map (fun b : section_block => b.1.1 ++ 10 :: b.2) secs.

Definition valid_block (b : section_block) : Prop :=
  In (b.1.1, b.1.2) markers /\ data_text b.2.

(** The reader after the sections were read. *)
Definition feed (st : p8_reader) (b : section_block) : p8_reader :=
  action_data b.2 0 (set_section b.1.2 st).

Lemma data_end_render (secs : list section_block) :
  Forall valid_block secs -> data_end (render secs).
Proof.
  intros [|b secs' [Hin _] _]; [left; reflexivity|]. right.
  unfold render. cbn [flat_map]. rewrite <- app_assoc. cbn [app].
  eexists. apply (section_line_marker _ _ _ Hin).
Qed.

Lemma star_sections (secs : list section_block) (st : p8_reader) (n : nat) :
  Forall valid_block secs -> (length (render secs) <= n)%nat ->
  star_n n r_section st (render secs) = Some (fold_left feed secs st, Some []).
Proof.
  intros Hv. revert st n. induction Hv as [|b secs [Hin HD] Hv IH]; intros st n Hn.
  - cbn [render flat_map fold_left]. destruct n; cbn [star_n]; rewrite r_section_nil; reflexivity.
  - unfold render in *. cbn [flat_map fold_left] in *. rewrite <- app_assoc in *. cbn [app] in *.
    fold (render secs) in *.
    rewrite length_app in Hn. cbn [length] in Hn. rewrite length_app in Hn.
    destruct n as [|n]; [lia|]. cbn [star_n].
    rewrite (r_section_block _ _ _ _ _ Hin HD (data_end_render _ Hv)).
    rewrite action_data_next by exact HD. apply IH. lia.
Qed.

(** The bytes that the blocks of a text give to section [k]. *)
Definition decode_block (b : section_block) : list Z :=
  decode_data (b.1.2 =? section_gfx) (b.1.2 =? section_lab) 0 b.2.

Definition collect (k : Z) (secs : list section_block) : list Z :=
  flat_map (fun b => if b.1.2 =? k then decode_block b else []) secs.

Lemma section_get_insert (k id : Z) (v : list Z) (m : gmap Z (list Z)) :
  section_get k (<[id := v]> m) = if id =? k then v else section_get k m.
Proof.
  unfold section_get. destruct (Z.eqb_spec id k) as [-> | Hne].
  - rewrite lookup_insert_eq. reflexivity.
  - rewrite lookup_insert_ne by exact Hne. reflexivity.
Qed.

Lemma section_get_feed (k : Z) (st : p8_reader) (b : section_block) :
  k <> section_lua ->
  section_get k (m_sections (feed st b))
  = section_get k (m_sections st) ++ (if b.1.2 =? k then decode_block b else []).
Proof.
  intros Hk. unfold feed, action_data, set_section. cbn [m_current_section m_sections].
  destruct (Z.eqb_spec b.1.2 section_lua) as [Hl | Hl]; cbn [m_sections].
  - destruct (Z.eqb_spec b.1.2 k); [congruence|]. rewrite app_nil_r. reflexivity.
  - rewrite section_get_insert. unfold decode_block.
    destruct (Z.eqb_spec b.1.2 k) as [-> | Hne].
    + reflexivity.
    + rewrite app_nil_r. reflexivity.
Qed.

Lemma section_get_sections (k : Z) (secs : list section_block) (st : p8_reader) :
  k <> section_lua ->
  section_get k (m_sections (fold_left feed secs st))
  = section_get k (m_sections st) ++ collect k secs.
Proof.
  intros Hk. revert st. induction secs as [|b secs IH]; intros st.
  - cbn [fold_left collect flat_map]. rewrite app_nil_r. reflexivity.
  - cbn [fold_left]. rewrite IH, section_get_feed by exact Hk.
    unfold collect. cbn [flat_map]. rewrite app_assoc. reflexivity.
Qed.

Lemma m_version_feed (secs : list section_block) (st : p8_reader) :
  m_version (fold_left feed secs st) = m_version st.
Proof.
  revert st. induction secs as [|b secs IH]; intros st; [reflexivity|].
  cbn [fold_left]. rewrite IH. unfold feed, action_data.
  destruct (_ =? section_lua); reflexivity.
Qed.

(** *** The header *)

Definition digit_ranges : list (Z * Z) := [(ch "0", ch "9")].

Definition set_version (v : Z) (st : p8_reader) : p8_reader :=
  {| m_version := v;
     m_current_section := m_current_section st;
     m_sections := m_sections st;
     m_code := m_code st |}.

Lemma c_str_id (s : list Z) : Forall (fun c => c <> 0) s -> c_str s = s.
Proof.
  induction 1 as [|c s Hc _ IH]; [reflexivity|].
  cbn [c_str]. destruct (Z.eqb_spec c 0); [contradiction|]. rewrite IH. reflexivity.
Qed.

Lemma read_digits_nonneg (s : list Z) (acc : Z) (n : nat) :
  0 <= acc ->
  0 <= fst (read_digits 10 (fun c => if isdigit c then c - ch "0" else -1) s acc n).
Proof.
  revert acc n. induction s as [|c s IH]; intros acc n Hacc; [exact Hacc|].
  cbn [read_digits].
  destruct ((0 <=? (if isdigit c then c - ch "0" else -1))
            && ((if isdigit c then c - ch "0" else -1) <? 10)) eqn:Hc; [|exact Hacc].
  apply IH. apply andb_true_iff in Hc. destruct Hc as [Hc _]. apply Z.leb_le in Hc. lia.
Qed.

Definition is_digit (c : Z) : bool :=
  existsb (fun r => (fst r <=? c) && (c <=? snd r)) digit_ranges.

Lemma is_digit_range (c : Z) : is_digit c = true -> 48 <= c <= 57.
Proof.
  unfold is_digit, digit_ranges. cbn [existsb fst snd]. change (ch "0") with 48.
  change (ch "9") with 57. rewrite orb_false_r. intros Hc.
  apply andb_true_iff in Hc. destruct Hc as [H1 H2].
  apply Z.leb_le in H1. apply Z.leb_le in H2. lia.
Qed.

(** The value of a text of decimal digits. *)
Definition digits_value (m : list Z) : Z := fold_left (fun a c => a * 10 + (c - 48)) m 0.

Lemma read_digits_value (m : list Z) (acc : Z) (n : nat) :
  Forall (fun c => is_digit c = true) m ->
  fst (read_digits 10 (fun c => if isdigit c then c - ch "0" else -1) m acc n)
  = fold_left (fun a c => a * 10 + (c - 48)) m acc.
Proof.
  intros Hm. revert acc n. induction Hm as [|c m Hc _ IH]; intros acc n; [reflexivity|].
  apply is_digit_range in Hc. cbn [read_digits fold_left]. unfold isdigit.
  change (ch "0") with 48. change (ch "9") with 57.
  destruct (Z.leb_spec 48 c); [|lia]. destruct (Z.leb_spec c 57); [|lia]. cbn [andb].
  destruct (Z.leb_spec 0 (c - 48)); [|lia]. destruct (Z.ltb_spec (c - 48) 10); [|lia].
  cbn [andb]. apply IH.
Qed.

Lemma fold_digits_value (m : list Z) (acc : Z) :
  fold_left (fun a c => a * 10 + (c - 48)) m acc
  = acc * 10 ^ Z.of_nat (length m) + digits_value m.
Proof.
  unfold digits_value. revert acc. induction m as [|c m IH]; intros acc.
  - cbn [fold_left length]. change (10 ^ Z.of_nat 0) with 1. lia.
  - cbn [fold_left length]. rewrite (IH (acc * 10 + (c - 48))), (IH (0 * 10 + (c - 48))).
    rewrite Nat2Z.inj_succ, Z.pow_succ_r by lia. lia.
Qed.

Lemma digits_value_nonneg (m : list Z) :
  Forall (fun c => is_digit c = true) m -> 0 <= digits_value m.
Proof.
  intros Hm. unfold digits_value.
  assert (Hall : forall acc, 0 <= acc -> 0 <= fold_left (fun a c => a * 10 + (c - 48)) m acc).
  { induction Hm as [|c m Hc _ IH]; intros acc Hacc; [exact Hacc|].
    apply is_digit_range in Hc. cbn [fold_left]. apply IH. lia. }
  apply Hall. lia.
Qed.

(** The number that [action<r_version>] reads: the value of the digits,
    cut at [LONG_MAX] and converted to [int]. *)
Lemma atoi_digits (m : list Z) :
  Forall (fun c => is_digit c = true) m ->
  atoi (c_str m) = int32 (Z.min LONG_MAX (digits_value m)).
Proof.
  intros Hm. pose proof (digits_value_nonneg m Hm) as Hv.
  pose proof (read_digits_value m 0 0 Hm) as Hr. fold (digits_value m) in Hr.
  rewrite c_str_id
    by (eapply Forall_impl; [exact Hm|]; intros c Hc; apply is_digit_range in Hc; lia).
  assert (Hmax : forall v, 0 <= v -> Z.max LONG_MIN (Z.min LONG_MAX v) = Z.min LONG_MAX v)
    by (intros v Hv'; unfold LONG_MIN, LONG_MAX; lia).
  unfold atoi. destruct Hm as [|c m Hc Hm].
  - cbn [skip_space]. cbn [read_digits]. cbv zeta. reflexivity.
  - apply is_digit_range in Hc. cbn [skip_space]. unfold isspace.
    change (ch " ") with 32.
    destruct (Z.eqb_spec c 32); [lia|]. destruct (Z.leb_spec 9 c); [|lia].
    destruct (Z.leb_spec c 13); [lia|]. cbn [orb andb].
    change (ch "-") with 45. change (ch "+") with 43.
    destruct (Z.eqb_spec c 45); [lia|]. destruct (Z.eqb_spec c 43); [lia|].
    destruct (read_digits 10 _ (c :: m) 0 0) as [v k]. cbn [fst] in Hr. subst v.
    cbv zeta. rewrite Hmax by exact Hv. reflexivity.
Qed.

(** A version that fits an [int] is read as it is. *)
Lemma atoi_small (m : list Z) :
  Forall (fun c => is_digit c = true) m -> digits_value m < 2 ^ 31 ->
  atoi (c_str m) = digits_value m.
Proof.
  intros Hm Hlt. pose proof (digits_value_nonneg m Hm) as Hv.
  rewrite atoi_digits by exact Hm. unfold LONG_MAX, int32.
  rewrite Z.min_r by lia. rewrite Z.mod_small by lia. lia.
Qed.

(** What a class leaves of a line is the end of the line. *)
Lemma skip_class_rest (rs : list (Z * Z)) (l : list Z) :
  existsb (fun r => (fst r <=? 10) && (10 <=? snd r)) rs = false ->
  Forall (fun c => c <> 10) l ->
  exists l2, Forall (fun c => c <> 10) l2
             /\ forall Y, skip_class rs (l ++ 10 :: Y) = l2 ++ 10 :: Y.
Proof.
  intros Hrs. induction 1 as [|c l Hc Hl [l2 [Hl2 IH] ] ].
  - exists []. split; [constructor|]. intros Y. cbn [app skip_class]. rewrite Hrs. reflexivity.
  - cbn [app skip_class].
    destruct (existsb (fun r => (fst r <=? c) && (c <=? snd r)) rs).
    + exists l2. split; assumption.
    + exists (c :: l). split; [constructor; assumption | reflexivity].
Qed.

(** The characters of a number in decimal. *)
Lemma digits_chars (n : nat) (v : Z) (acc : list Z) :
  0 <= v -> Forall (fun c => 48 <= c <= 57) acc ->
  Forall (fun c => 48 <= c <= 57) (digits n 10 v acc).
Proof.
  revert v acc. induction n as [|n IH]; intros v acc Hv Hacc; [exact Hacc|].
  cbn [digits]. destruct (Z.ltb_spec v 10).
  - constructor; [|exact Hacc]. unfold digit_char. rewrite (proj2 (Z.ltb_lt v 10)) by lia.
    change (ch "0") with 48. lia.
  - apply IH; [apply Z.div_pos; lia|]. constructor; [|exact Hacc].
    unfold digit_char. pose proof (Z.mod_pos_bound v 10 ltac:(lia)).
    rewrite (proj2 (Z.ltb_lt (v mod 10) 10)) by lia. change (ch "0") with 48. lia.
Qed.

Lemma format_d_chars (v : Z) : Forall (fun c => c = 45 \/ 48 <= c <= 57) (format_d v).
Proof.
  unfold format_d. cbv zeta. destruct (Z.ltb_spec (int32 v) 0).
  - constructor; [left; reflexivity|].
    eapply Forall_impl; [apply digits_chars; [lia|constructor]|]. intros; right; assumption.
  - eapply Forall_impl; [apply digits_chars; [lia|constructor]|]. intros; right; assumption.
Qed.

(** The two lines that [save_p8] starts with. *)
Definition header_text (v : Z) : list Z :=
  str "pico-8 cartridge // http://www.pico-8.com" ++ 10 :: str "version " ++ format_d v ++ [10].

(** The digits of a number have its value, or less when the number has
    more digits than there is room for. *)
Lemma digits_value_digits (n : nat) (v : Z) (acc : list Z) :
  0 <= v -> Forall (fun c => 48 <= c <= 57) acc ->
  digits_value (digits n 10 v acc) <= v * 10 ^ Z.of_nat (length acc) + digits_value acc.
Proof.
  revert v acc. induction n as [|n IH]; intros v acc Hv Hacc.
  - cbn [digits]. assert (0 < 10 ^ Z.of_nat (length acc)) by (apply Z.pow_pos_nonneg; lia). nia.
  - cbn [digits]. destruct (Z.ltb_spec v 10).
    + unfold digits_value at 1. cbn [fold_left]. rewrite fold_digits_value.
      unfold digit_char. rewrite (proj2 (Z.ltb_lt v 10)) by lia. change (ch "0") with 48. lia.
    + pose proof (Z.div_mod v 10 ltac:(lia)) as Hdm.
      pose proof (Z.mod_pos_bound v 10 ltac:(lia)) as Hmod.
      assert (Hc : 48 <= digit_char (v mod 10) <= 57).
      { unfold digit_char. rewrite (proj2 (Z.ltb_lt (v mod 10) 10)) by lia.
        change (ch "0") with 48. lia. }
      etransitivity; [apply IH; [apply Z.div_pos; lia | constructor; [exact Hc | exact Hacc] ] |].
      cbn [length]. rewrite Nat2Z.inj_succ, Z.pow_succ_r by lia.
      unfold digits_value at 1. cbn [fold_left]. rewrite fold_digits_value.
      unfold digit_char. rewrite (proj2 (Z.ltb_lt (v mod 10) 10)) by lia.
      change (ch "0") with 48.
      assert (0 < 10 ^ Z.of_nat (length acc)) by (apply Z.pow_pos_nonneg; lia). nia.
Qed.

Lemma is_digit_chars (l : list Z) :
  Forall (fun c => 48 <= c <= 57) l -> Forall (fun c => is_digit c = true) l.
Proof.
  intros Hl. eapply Forall_impl; [exact Hl|].
  intros c Hc. cbv beta in Hc. unfold is_digit, digit_ranges. cbn [existsb fst snd].
  change (ch "0") with 48. change (ch "9") with 57.
  destruct (Z.leb_spec 48 c); [|lia]. destruct (Z.leb_spec c 57); [|lia]. reflexivity.
Qed.

Lemma skip_class_digits (l rest : list Z) :
  Forall (fun c => is_digit c = true) l ->
  skip_class digit_ranges (l ++ 10 :: rest) = 10 :: rest.
Proof.
  induction 1 as [|c l Hc _ IH]; [reflexivity|].
  cbn [app skip_class]. unfold is_digit in Hc. rewrite Hc. exact IH.
Qed.

Lemma int32_range (x : Z) : - 2 ^ 31 <= int32 x < 2 ^ 31.
Proof. unfold int32. pose proof (Z.mod_pos_bound (x + 2 ^ 31) (2 ^ 32) ltac:(lia)). lia. Qed.

(** The version that [save_p8] writes is read as a number that is not
    negative: the digits of an [int] that is not negative give it back, and
    of a negative one the sign is what [r_version] meets, so that it
    matches no digit. *)
Lemma r_version_format_d (st : p8_reader) (v : Z) (rest : list Z) :
  exists ver l2, 0 <= ver /\ Forall (fun c => c <> 10) l2
    /\ r_version st (format_d v ++ 10 :: rest) = (set_version ver st, Some (l2 ++ 10 :: rest)).
Proof.
  unfold r_version, action, digit. fold digit_ranges. rewrite star_ranges.
  unfold format_d. cbv zeta. pose proof (int32_range v) as Hr.
  destruct (Z.ltb_spec (int32 v) 0) as [Hneg | Hpos].
  - set (ds := digits 10 10 (- int32 v) []).
    assert (Hds : Forall (fun c => 48 <= c <= 57) ds)
      by (apply digits_chars; [lia | constructor]).
    exists 0, (ch "-" :: ds). split; [lia|].
    split; [constructor; [discriminate|]; eapply Forall_impl; [exact Hds|]; cbv beta; lia|].
    change ((ch "-" :: ds) ++ 10 :: rest) with (ch "-" :: ds ++ 10 :: rest).
    change (skip_class digit_ranges (ch "-" :: ds ++ 10 :: rest))
      with (ch "-" :: ds ++ 10 :: rest).
    rewrite Nat.sub_diag. reflexivity.
  - set (ds := digits 10 10 (int32 v) []).
    assert (Hds : Forall (fun c => 48 <= c <= 57) ds)
      by (apply digits_chars; [lia | constructor]).
    pose proof (is_digit_chars ds Hds) as Hd.
    pose proof (digits_value_digits 10 (int32 v) [] Hpos ltac:(constructor)) as Hle.
    fold ds in Hle. change (digits_value []) with 0 in Hle.
    change (10 ^ Z.of_nat (length (@nil Z))) with 1 in Hle.
    exists (digits_value ds), []. split; [apply digits_value_nonneg, Hd|].
    split; [constructor|].
    rewrite skip_class_digits by exact Hd.
    replace (length (ds ++ 10%Z :: rest) - length (10%Z :: rest))%nat with (length ds)
      by (rewrite length_app; lia).
    rewrite take_app_length. unfold action_version.
    rewrite atoi_small by (exact Hd || lia). reflexivity.
Qed.

Lemma r_header_text (st : p8_reader) (v : Z) (rest : list Z) :
  exists ver, 0 <= ver /\ r_header st (header_text v ++ rest) = (set_version ver st, Some rest).
Proof.
  assert (Hf : Forall (fun c => c <> 10) (format_d v))
    by (eapply Forall_impl; [apply format_d_chars|]; cbv beta; lia).
  destruct (r_version_format_d st v rest) as (ver & l2 & Hver & Hl2 & Hr).
  exists ver. split; [exact Hver|].
  unfold header_text, r_header. cbn [seq].
  replace ((str "pico-8 cartridge // http://www.pico-8.com"
            ++ 10 :: str "version " ++ format_d v ++ [10]) ++ rest)
    with (str "pico-8 cartridge"
          ++ (str " // http://www.pico-8.com" ++ 10 :: (str "version " ++ format_d v ++ 10 :: rest))).
  2:{ rewrite <- !app_assoc. cbn [app]. rewrite <- !app_assoc. reflexivity. }
  rewrite lit_app.
  rewrite until_eol_line by (vm_compute; repeat constructor; discriminate).
  rewrite lit_app, Hr. rewrite until_eol_line by exact Hl2. reflexivity.
Qed.

(** *** The file *)

Lemma section_get_prelude (k next : Z) (st : p8_reader) :
  section_get k (m_sections (action_data [] next st)) = section_get k (m_sections st).
Proof.
  unfold action_data. destruct (m_current_section st =? section_lua); [reflexivity|].
  cbn [m_sections decode_data]. rewrite section_get_insert, app_nil_r.
  destruct (Z.eqb_spec (m_current_section st) k) as [-> | _]; reflexivity.
Qed.

Lemma m_version_prelude (next : Z) (st : p8_reader) :
  m_version (action_data [] next st) = m_version st.
Proof. unfold action_data. destruct (_ =? section_lua); reflexivity. Qed.

(** The reader after the parse of a header and the sections that follow
    it: the version is not negative, and each section holds the bytes of
    its blocks, whatever [m_current_section] was at first. *)
Lemma parse_saved (garbage v : Z) (secs : list section_block) :
  Forall valid_block secs ->
  0 <= m_version (parse (new_reader garbage) (header_text v ++ render secs))
  /\ forall k, k <> section_lua ->
       section_get k (m_sections (parse (new_reader garbage) (header_text v ++ render secs)))
       = collect k secs.
Proof.
  intros Hv. unfold parse, r_file. cbn [seq].
  assert (Hbom : opt bom (new_reader garbage) (header_text v ++ render secs)
                 = (new_reader garbage, Some (header_text v ++ render secs)))
    by reflexivity.
  rewrite Hbom.
  destruct (r_header_text (new_reader garbage) v (render secs)) as (ver & Hver & Hh).
  rewrite Hh.
  rewrite (r_data_block _ [] (render secs) data_nil (data_end_render _ Hv)).
  unfold star. rewrite star_sections by (exact Hv || lia).
  cbn [eof fst]. split.
  - rewrite m_version_feed, m_version_prelude. exact Hver.
  - intros k Hk. rewrite section_get_sections, section_get_prelude by exact Hk.
    reflexivity.
Qed.

(** *** The script *)

(** The first line of a text. *)
Lemma split_lines_first (T : list Z) :
  exists l, Forall (fun c => c <> 10) l
    /\ ((T = l /\ split_lines T = [l])
        \/ exists T', T = l ++ 10 :: T' /\ split_lines T = l :: split_lines T').
Proof.
  induction T as [|c t (l & Hl & IH)].
  - exists []. split; [constructor|]. left. split; reflexivity.
  - cbn [split_lines]. destruct (Z.eqb_spec c 10) as [-> | Hc].
    + exists []. split; [constructor|]. right. exists t. split; reflexivity.
    + exists (c :: l). split; [constructor; assumption|].
      destruct IH as [ [-> ->] | (T' & -> & ->) ].
      * left. split; reflexivity.
      * right. exists T'. split; reflexivity.
Qed.

Lemma lines_data_text (T : list Z) :
  Forall (fun l => is_marker l = false) (split_lines T) -> data_text (T ++ [10]).
Proof.
  remember (length T) as n eqn:Hn. revert T Hn.
  induction n as [n IH] using lt_wf_ind. intros T Hn HT.
  destruct (split_lines_first T) as (l & Hl & [ [-> Hs] | (T' & -> & Hs) ]);
    rewrite Hs in HT; inversion HT as [|? ? Hm HT']; subst.
  - change (l ++ [10]) with (l ++ 10 :: []). constructor; [exact Hl| |constructor].
    rewrite is_marker_eq in Hm. destruct (section_line_rest (l ++ [10])); congruence.
  - rewrite <- app_assoc. cbn [app]. constructor; [exact Hl| |].
    + rewrite is_marker_eq in Hm. destruct (section_line_rest (l ++ [10])); congruence.
    + apply (IH (length T')); [rewrite length_app; cbn [length]; lia | reflexivity | exact HT'].
Qed.

Lemma split_lines_nl (T : list Z) : split_lines (T ++ [10]) = split_lines T ++ [ [] ].
Proof.
  induction T as [|c t IH]; [reflexivity|].
  cbn [app split_lines]. rewrite IH. destruct (c =? 10); [reflexivity|].
  destruct (split_lines_first t) as (l & _ & [ [_ ->] | (T' & _ & ->) ]); reflexivity.
Qed.

(** The script as [save_p8] writes it: with a line feed at its end when it
    has none. *)
Definition ensure_nl (T : list Z) : list Z :=
  if negb (default 0 (last (10 :: T)) =? 10) then T ++ [10] else T.

Lemma last_snoc_cons (a x : Z) (T : list Z) : last (a :: T ++ [x]) = Some x.
Proof. rewrite app_comm_cons. apply last_snoc. Qed.

Lemma ensure_nl_data_text (T : list Z) :
  Forall (fun l => is_marker l = false) (split_lines T) -> data_text (ensure_nl T).
Proof.
  intros HT. unfold ensure_nl.
  destruct (Z.eqb_spec (default 0 (last (10 :: T))) 10) as [Hlast | Hlast]; cbn [negb].
  - destruct T as [|c t] using rev_ind; [constructor|].
    rewrite last_snoc_cons in Hlast. simpl in Hlast. subst c.
    apply lines_data_text. rewrite split_lines_nl in HT.
    apply Forall_app in HT. tauto.
  - apply lines_data_text, HT.
Qed.

Lemma ensure_nl_last (P : list Z) (T : list Z) :
  (let ret := (P ++ [10]) ++ T in if negb (default 0 (last ret) =? 10) then ret ++ [10] else ret)
  = (P ++ [10]) ++ ensure_nl T.
Proof.
  cbv zeta. unfold ensure_nl.
  assert (Hl : last ((P ++ [10]) ++ T) = last (10 :: T)).
  { rewrite <- app_assoc. cbn [app]. destruct T as [|c t] using rev_ind.
    - rewrite last_snoc. reflexivity.
    - change (P ++ 10 :: t ++ [c]) with (P ++ (10 :: t) ++ [c]).
      rewrite app_assoc, last_snoc, last_snoc_cons. reflexivity. }
  rewrite Hl. destruct (negb _); [|reflexivity]. rewrite <- !app_assoc. reflexivity.
Qed.

(** *** The line feed that ends the file *)

Fixpoint add_tail (secs : list section_block) : list section_block :=
  match secs with
  | [] => []
  | b :: secs' =>
      match secs' with
      | [] => [(b.1, b.2 ++ [10])]
      | _ :: _ => b :: add_tail secs'
      end
  end.

Lemma render_add_tail (secs : list section_block) :
  secs <> [] -> render (add_tail secs) = render secs ++ [10].
Proof.
  induction secs as [|b secs IH]; [congruence|]. intros _.
  destruct secs as [|b' secs'].
  - unfold render. cbn [add_tail flat_map fst snd]. rewrite !app_nil_r, <- app_assoc.
    reflexivity.
  - change (add_tail (b :: b' :: secs')) with (b :: add_tail (b' :: secs')).
    unfold render in *. cbn [flat_map] in *. rewrite IH by congruence.
    rewrite <- !app_assoc. reflexivity.
Qed.

Lemma valid_add_tail (secs : list section_block) :
  Forall valid_block secs -> Forall valid_block (add_tail secs).
Proof.
  induction 1 as [|b secs [Hin HD] Hv IH]; [constructor|].
  destruct secs as [|b' secs'].
  - cbn [add_tail]. constructor; [|constructor]. split; [exact Hin|].
    cbn [snd]. apply data_text_app; [exact HD | exact data_text_nl].
  - change (add_tail (b :: b' :: secs')) with (b :: add_tail (b' :: secs')).
    constructor; [split; assumption | exact IH].
Qed.

Lemma collect_add_tail (k : Z) (secs : list section_block) :
  Forall (fun b => b.1.2 = k -> decode_block (b.1, b.2 ++ [10]) = decode_block b) secs ->
  collect k (add_tail secs) = collect k secs.
Proof.
  induction 1 as [|b secs Hb Hs IH]; [reflexivity|].
  destruct secs as [|b' secs'].
  - unfold collect. cbn [add_tail flat_map fst snd].
    destruct (Z.eqb_spec b.1.2 k) as [Hk | Hk]; [|reflexivity].
    rewrite (Hb Hk). reflexivity.
  - change (add_tail (b :: b' :: secs')) with (b :: add_tail (b' :: secs')).
    unfold collect in *. cbn [flat_map] in *. rewrite IH. reflexivity.
Qed.

Lemma render_app (s1 s2 : list section_block) : render (s1 ++ s2) = render s1 ++ render s2.
Proof. apply flat_map_app. Qed.

Lemma collect_app (k : Z) (s1 s2 : list section_block) :
  collect k (s1 ++ s2) = collect k s1 ++ collect k s2.
Proof. apply flat_map_app. Qed.

(** A text without an underscore, ended by a line feed, is a block of
    data. *)
Lemma split_lines_chars (P : Z -> Prop) (T : list Z) :
  Forall P T -> Forall (Forall P) (split_lines T).
Proof.
  induction 1 as [|c t Hc Ht IH]; [repeat constructor|].
  cbn [split_lines]. destruct (c =? 10); [constructor; [constructor|exact IH] |].
  destruct (split_lines t) as [|l ls]; [repeat constructor; exact Hc|].
  inversion IH; subst. constructor; [constructor; assumption | assumption].
Qed.

Lemma plain_data_text (T : list Z) :
  Forall (fun c => c <> 95) T -> data_text (T ++ [10]).
Proof.
  intros HT. apply lines_data_text.
  eapply Forall_impl; [apply split_lines_chars, HT|].
  intros l Hl. rewrite is_marker_eq.
  destruct Hl as [|c l Hc _]; [reflexivity|].
  cbn [app]. rewrite section_line_rest_first by exact Hc. reflexivity.
Qed.

End ParseFacts.

(** ** The text that [save_p8] writes *)

Module TextFacts.
Import Text Memory Peg P8Reader Cart ByteFacts LoopFacts PackerFacts ReaderFacts HexFacts
  BitFacts SfxFacts ParseFacts.

(** *** The number of lines of a section *)

Lemma count_lines_spec (n per : Z) (at_ : Z -> Z) :
  0 <= n -> 0 < per ->
  (count_lines n per at_ = 0 \/ exists i, 0 <= i < n /\ count_lines n per at_ = 1 + i / per)
  /\ forall i, 0 <= i < n -> per * count_lines n per at_ <= i -> at_ i = 0.
Proof.
  intros Hn Hper. unfold count_lines. pattern n. apply natlike_ind; [| |exact Hn].
  - split; [left; reflexivity|]. intros i Hi. lia.
  - clear n Hn. intros n Hn [IH1 IH2].
    change (Z.succ n) with (n + 1). rewrite seqZ_snoc, fold_left_app by exact Hn.
    cbn [fold_left].
    set (L := fold_left _ (seqZ 0 n) 0) in *.
    destruct (Z.eqb_spec (at_ n) 0) as [Hz | Hz]; cbn [negb].
    + split.
      * destruct IH1 as [IH1 | (i & Hi & IH1)]; [left; exact IH1|].
        right. exists i. split; [lia|exact IH1].
      * intros i Hi HL. destruct (Z.eq_dec i n) as [-> | Hne]; [exact Hz|].
        apply IH2; [lia|exact HL].
    + split.
      * right. exists n. split; [lia|reflexivity].
      * intros i Hi HL. exfalso.
        pose proof (Z.div_mod n per ltac:(lia)). pose proof (Z.mod_pos_bound n per Hper). nia.
Qed.

Lemma count_lines_bound (m per : Z) (at_ : Z -> Z) :
  0 <= m -> 0 < per -> 0 <= count_lines (per * m) per at_ <= m.
Proof.
  intros Hm Hper.
  destruct (count_lines_spec (per * m) per at_ ltac:(nia) Hper) as [ [-> | (i & Hi & ->)] _ ];
    [lia|].
  assert (0 <= i / per) by (apply Z.div_pos; lia).
  assert (i / per < m) by (apply Z.div_lt_upper_bound; lia).
  lia.
Qed.

Lemma count_lines_zero (m per : Z) (at_ : Z -> Z) (i : Z) :
  0 <= m -> 0 < per -> per * count_lines (per * m) per at_ <= i < per * m -> at_ i = 0.
Proof.
  intros Hm Hper Hi.
  destruct (count_lines_spec (per * m) per at_ ltac:(nia) Hper) as [_ Hz].
  pose proof (count_lines_bound m per at_ Hm Hper).
  apply Hz; nia.
Qed.

(** *** The sections *)

Lemma flat_map_ext_in {A B : Type} (f g : A -> list B) (l : list A) :
  (forall a, In a l -> f a = g a) -> flat_map f l = flat_map g l.
Proof.
  induction l as [|a l IH]; intros Hfg; [reflexivity|].
  cbn [flat_map]. rewrite (Hfg a) by (left; reflexivity).
  rewrite IH by (intros b Hb; apply Hfg; right; exact Hb). reflexivity.
Qed.

Lemma section_text_eq (name : string) (lines : Z) (line_text : Z -> list Z) :
  section_text name lines line_text
  = if 0 <? lines then str name ++ 10 :: flat_map line_text (seqZ 0 lines) else [].
Proof.
  unfold section_text. destruct (Z.ltb_spec 0 lines) as [Hl | Hl].
  - replace lines with (Z.succ (lines - 1)) by lia.
    rewrite seqZ_cons by lia. cbn [flat_map]. rewrite Z.eqb_refl.
    unfold nl. rewrite <- !app_assoc. cbn [app]. do 3 f_equal.
    replace (Z.pred (Z.succ (lines - 1))) with (lines - 1) by lia.
    apply flat_map_ext_in. intros i Hi. apply list_elem_of_In, elem_of_seqZ in Hi.
    destruct (Z.eqb_spec i 0); [lia|reflexivity].
  - rewrite seqZ_nil by lia. reflexivity.
Qed.

(** *** The lines of data *)

(** The values [at_ 0 .. at_ (n - 1)]. *)
Definition row (at_ : Z -> Z) (n : Z) : list Z := map at_ (seqZ 0 n).

Lemma flat_map_row {B : Type} (f : Z -> list B) (at_ : Z -> Z) (n : Z) :
  flat_map f (row at_ n) = flat_map (fun i => f (at_ i)) (seqZ 0 n).
Proof. unfold row. induction (seqZ 0 n) as [|a l IH]; [reflexivity|]. cbn. rewrite IH. reflexivity. Qed.

Lemma row_range (at_ : Z -> Z) (n : Z) :
  (forall i, 0 <= at_ i < 256) -> Forall (fun b => 0 <= b < 256) (row at_ n).
Proof. intros Hat. unfold row. apply Forall_map, Forall_forall. intros i _. apply Hat. Qed.

Lemma length_row (at_ : Z -> Z) (n : Z) : 0 <= n -> len (row at_ n) = n.
Proof. intros Hn. unfold len, row. rewrite length_map, length_seqZ. lia. Qed.

Lemma peek_row (at_ : Z -> Z) (n i : Z) : 0 <= i < n -> peek (row at_ n) i = at_ i.
Proof.
  intros Hi. unfold peek, row. destruct (Z.ltb_spec i 0); [lia|].
  rewrite list_lookup_fmap, lookup_seqZ_lt by lia. cbn. f_equal. lia.
Qed.

Definition plainb (c : Z) : bool := negb (c =? 0) && negb (c =? 10) && negb (c =? 95).

Lemma plainb_plain (c : Z) : plainb c = true -> plain c.
Proof.
  unfold plainb, plain. intros Hc.
  apply andb_true_iff in Hc. destruct Hc as [Hc H95].
  apply andb_true_iff in Hc. destruct Hc as [H0 H10].
  apply negb_true_iff, Z.eqb_neq in H0, H10, H95. tauto.
Qed.

Lemma hex2_plain (b : Z) : 0 <= b < 256 -> Forall plain (hex2 b).
Proof.
  intros Hb.
  assert (Hall : forallb (fun b => forallb plainb (hex2 b)) (seqZ 0 256) = true)
    by (vm_compute; reflexivity).
  pose proof (forallb_seqZ _ _ Hall b Hb) as Hp. cbv beta in Hp.
  rewrite forallb_forall in Hp. apply Forall_forall. intros c Hc.
  apply plainb_plain, Hp, list_elem_of_In, Hc.
Qed.

Lemma hex_text_plain (bytes : list Z) :
  Forall (fun b => 0 <= b < 256) bytes -> Forall plain (flat_map hex2 bytes).
Proof.
  induction 1 as [|b bytes Hb _ IH]; [constructor|].
  cbn [flat_map]. apply Forall_app. split; [apply hex2_plain, Hb | exact IH].
Qed.

Lemma plain_line_clean (l : list Z) : Forall plain l -> Forall (fun c => c <> 0) (l ++ [10]).
Proof.
  intros Hl. apply Forall_app. split.
  - eapply Forall_impl; [exact Hl|]. unfold plain. tauto.
  - constructor; [lia|constructor].
Qed.

(** A block of lines of digits. *)
Section Lines.
Variable is_swapped : bool.
Variables (f g : Z -> list Z).
Hypothesis f_plain : forall i, exists l, f i = l ++ [10] /\ Forall plain l.
Hypothesis f_decode : forall i next rest,
  decode_data is_swapped false next (f i ++ rest)
  = g i ++ decode_data is_swapped false next rest.

Lemma lines_data (idx : list Z) : data_text (flat_map f idx).
Proof.
  apply data_text_flat_map. intros i _. destruct (f_plain i) as (l & -> & Hl).
  apply data_text_plain_line, Hl.
Qed.

Lemma lines_clean (idx : list Z) : Forall (fun c => c <> 0) (flat_map f idx).
Proof.
  induction idx as [|i idx IH]; [constructor|]. cbn [flat_map].
  apply Forall_app. split; [|exact IH].
  destruct (f_plain i) as (l & -> & Hl). apply plain_line_clean, Hl.
Qed.

Lemma lines_decode (idx : list Z) (next : Z) (rest : list Z) :
  decode_data is_swapped false next (flat_map f idx ++ rest)
  = flat_map g idx ++ decode_data is_swapped false next rest.
Proof.
  induction idx as [|i idx IH]; [reflexivity|]. cbn [flat_map].
  rewrite <- !app_assoc, f_decode, IH. reflexivity.
Qed.

End Lines.

(** *** The lines of each section *)

Section LineOf.
Variable data : Z -> Z.
Hypothesis data_range : forall i, 0 <= data i < 256.

Lemma gfx_line_plain :
  exists l, gfx_line_text data = l ++ [10] /\ Forall plain l.
Proof.
  eexists. split; [reflexivity|].
  rewrite <- (flat_map_row (fun b => format_x 2 (uint8 (b * 0x101 / 0x10)))).
  induction (row data 64) as [|b l IH]; [constructor|]. cbn [flat_map].
  apply Forall_app. split; [|exact IH].
  assert (Hu : 0 <= uint8 (b * 257 / 16) < 256) by (apply Z.mod_pos_bound; lia).
  rewrite format_x_2 by exact Hu. apply hex2_plain, Hu.
Qed.

Lemma gfx_line_decode (next : Z) (rest : list Z) :
  decode_data true false next (gfx_line_text data ++ rest)
  = row data 64 ++ decode_data true false next rest.
Proof.
  unfold gfx_line_text.
  rewrite <- (flat_map_row (fun b => format_x 2 (uint8 (b * 0x101 / 0x10)))).
  rewrite <- app_assoc, decode_hex_bytes_swapped by (apply row_range, data_range).
  rewrite decode_nl. reflexivity.
Qed.

Lemma hex_line_eq : hex_line_text data = flat_map hex2 (row data 128) ++ [10].
Proof.
  unfold hex_line_text. rewrite flat_map_row. f_equal.
  apply flat_map_ext. intros i. apply format_x_2, data_range.
Qed.

Lemma hex_line_plain :
  exists l, hex_line_text data = l ++ [10] /\ Forall plain l.
Proof.
  eexists. split; [apply hex_line_eq|]. apply hex_text_plain, row_range, data_range.
Qed.

Lemma hex_line_decode (next : Z) (rest : list Z) :
  decode_data false false next (hex_line_text data ++ rest)
  = row data 128 ++ decode_data false false next rest.
Proof.
  rewrite hex_line_eq, <- app_assoc, decode_hex_bytes by (apply row_range, data_range).
  reflexivity.
Qed.

Lemma sfx_line_plain :
  exists l, sfx_line_text data = l ++ [10] /\ Forall plain l.
Proof.
  eexists. split; [apply sfx_line_text_bytes, data_range|].
  apply hex_text_plain, sfx_line_bytes_range, data_range.
Qed.

(** The flags of a song, as [save_p8] gathers them. *)
Definition music_flags : Z :=
  Z.lor (Z.lor (Z.lor (bits (data 0) 7 1) (Z.shiftl (bits (data 1) 7 1) 1))
               (Z.shiftl (bits (data 2) 7 1) 2))
        (Z.shiftl (bits (data 3) 7 1) 3).

Definition music_line_bytes : list Z :=
  [music_flags; song_sfx data 0; song_sfx data 1; song_sfx data 2; song_sfx data 3].

Lemma top_bit (d : Z) : bits d 7 1 = 0 \/ bits d 7 1 = 1.
Proof. unfold bits. pose proof (Z.mod_pos_bound (d / 2 ^ 7) (2 ^ 1) ltac:(lia)). lia. Qed.

Lemma music_flags_range : 0 <= music_flags < 16.
Proof.
  unfold music_flags.
  destruct (top_bit (data 0)) as [-> | ->], (top_bit (data 1)) as [-> | ->],
    (top_bit (data 2)) as [-> | ->], (top_bit (data 3)) as [-> | ->]; vm_compute;
    split; congruence.
Qed.

Lemma song_sfx_range (n : Z) : 0 <= song_sfx data n < 128.
Proof.
  unfold song_sfx. change 127 with (Z.ones 7). rewrite Z.land_ones by lia.
  apply Z.mod_pos_bound. lia.
Qed.

Lemma music_line_eq :
  music_line_text data
  = hex2 music_flags ++ 32 :: flat_map hex2 (row (song_sfx data) 4) ++ [10].
Proof.
  unfold music_line_text. fold music_flags.
  pose proof music_flags_range.
  pose proof (song_sfx_range 0). pose proof (song_sfx_range 1).
  pose proof (song_sfx_range 2). pose proof (song_sfx_range 3).
  rewrite !format_x_2 by lia. cbn. reflexivity.
Qed.

Lemma music_line_plain :
  exists l, music_line_text data = l ++ [10] /\ Forall plain l.
Proof.
  exists (hex2 music_flags ++ 32 :: flat_map hex2 (row (song_sfx data) 4)).
  split; [rewrite music_line_eq, <- app_assoc; reflexivity|].
  pose proof music_flags_range.
  apply Forall_app. split; [apply hex2_plain; lia|].
  constructor; [unfold plain; lia|].
  apply hex_text_plain, row_range. intros i. pose proof (song_sfx_range i). lia.
Qed.

Lemma music_line_decode (next : Z) (rest : list Z) :
  decode_data false false next (music_line_text data ++ rest)
  = music_line_bytes ++ decode_data false false next rest.
Proof.
  pose proof music_flags_range.
  rewrite music_line_eq, <- app_assoc, decode_hex2 by lia.
  cbn [app]. rewrite decode_data_skip by reflexivity.
  rewrite <- app_assoc, decode_hex_bytes
    by (apply row_range; intros i; pose proof (song_sfx_range i); lia).
  rewrite (decode_nl false). reflexivity.
Qed.

End LineOf.

(** *** The blocks of the text *)

Definition lines_block (name : string) (id lines : Z) (line_text : Z -> list Z)
    : list section_block :=
  if 0 <? lines then [(str name, id, flat_map line_text (seqZ 0 lines))] else [].

Lemma render_lines_block (name : string) (id lines : Z) (line_text : Z -> list Z) :
  render (lines_block name id lines line_text) = section_text name lines line_text.
Proof.
  rewrite section_text_eq. unfold lines_block, render.
  destruct (0 <? lines); [|reflexivity]. cbn [flat_map fst snd]. apply app_nil_r.
Qed.

Lemma collect_lines_block (k : Z) (name : string) (id lines : Z) (line_text : Z -> list Z) :
  collect k (lines_block name id lines line_text)
  = if id =? k then
      decode_data (id =? section_gfx) (id =? section_lab) 0
                  (flat_map line_text (seqZ 0 lines))
    else [].
Proof.
  unfold lines_block, collect. destruct (Z.ltb_spec 0 lines) as [Hl | Hl].
  - cbn [flat_map fst snd]. rewrite app_nil_r. reflexivity.
  - rewrite seqZ_nil by lia. cbn [flat_map]. destruct (id =? k); reflexivity.
Qed.

Definition gfx_lines (rom : list Z) : Z :=
  count_lines gfx_size 64 (fun i => peek rom (gfx_off + 64 * (i / 64) + i mod 64)).
Definition gff_lines (rom : list Z) : Z :=
  count_lines gfx_props_size 128 (fun i => peek rom (gfx_props_off + i)).
Definition map_lines (rom : list Z) : Z :=
  count_lines map_size 128 (fun i => peek rom (map_off + i)).
Definition sfx_lines (rom : list Z) : Z :=
  count_lines sfx_size sizeof_sfx_t (fun i => peek rom (sfx_off + i)).
Definition music_lines (rom : list Z) : Z :=
  count_lines song_size sizeof_song_t (fun i => peek rom (song_off + i)).

Definition gfx_block (rom : list Z) : list section_block :=
  lines_block "__gfx__" section_gfx (gfx_lines rom)
    (fun line => gfx_line_text (fun i => peek rom (gfx_off + 64 * line + i))).
Definition gff_block (rom : list Z) : list section_block :=
  lines_block "__gff__" section_gff (gff_lines rom)
    (fun line => hex_line_text (fun i => peek rom (gfx_props_off + (128 * line + i)))).
Definition map_block (rom : list Z) : list section_block :=
  lines_block "__map__" section_map (map_lines rom)
    (fun line => hex_line_text (fun i => peek rom (map_off + (128 * line + i)))).
Definition sfx_block (rom : list Z) : list section_block :=
  lines_block "__sfx__" section_sfx (sfx_lines rom)
    (fun line => sfx_line_text (fun k => peek rom (sfx_off + sizeof_sfx_t * line + k))).
Definition music_block (rom : list Z) : list section_block :=
  lines_block "__music__" section_mus (music_lines rom)
    (fun line => music_line_text (fun n => peek rom (song_off + sizeof_song_t * line + n))).

Lemma render_gfx_block (rom : list Z) : render (gfx_block rom) = gfx_text rom.
Proof. unfold gfx_block, gfx_text, gfx_lines. cbv zeta beta. apply render_lines_block. Qed.

Lemma render_gff_block (rom : list Z) : render (gff_block rom) = gff_text rom.
Proof. unfold gff_block, gff_text, gff_lines. cbv zeta beta. apply render_lines_block. Qed.

Lemma render_map_block (rom : list Z) : render (map_block rom) = map_text rom.
Proof. unfold map_block, map_text, map_lines. cbv zeta beta. apply render_lines_block. Qed.

Lemma render_sfx_block (rom : list Z) : render (sfx_block rom) = sfx_text rom.
Proof. unfold sfx_block, sfx_text, sfx_lines. cbv zeta beta. apply render_lines_block. Qed.

Lemma render_music_block (rom : list Z) : render (music_block rom) = music_text rom.
Proof. unfold music_block, music_text, music_lines. cbv zeta beta. apply render_lines_block. Qed.

Section WithExternals.
Context `{Externals}.

Definition label_body (label : list Z) : list Z :=
  flat_map (fun i =>
      let col := vec_at label i in
      vec_at (str "0123456789abcdefghijklmnopqrstuv") (Z.land col 0x1f)
      :: (if (i + 1) mod LABEL_WIDTH =? 0 then [10] else []))
    (seqZ 0 (LABEL_WIDTH * LABEL_HEIGHT)).

Definition label_block (label : list Z) : list section_block :=
  if LABEL_WIDTH * LABEL_HEIGHT <=? len label
  then [(str "__label__", section_lab, label_body label ++ [10])] else [].

Lemma render_label_block (label : list Z) : render (label_block label) = label_text label.
Proof.
  unfold label_block, label_text, render. destruct (_ <=? len label); [|reflexivity].
  cbn [flat_map fst snd]. rewrite app_nil_r. reflexivity.
Qed.

Definition lua_block (c : cart) : list section_block :=
  [(str "__lua__", section_lua, ensure_nl (pico8_to_utf8 (get_code c)))].

(** The sections of the text of a cartridge, without the line feed that
    ends the file. *)
Definition blocks (c : cart) : list section_block :=
  lua_block c ++ gfx_block (m_rom c) ++ label_block (m_label c) ++ gff_block (m_rom c)
  ++ map_block (m_rom c) ++ sfx_block (m_rom c) ++ music_block (m_rom c).

Lemma p8_text_eq (c : cart) :
  p8_text c = header_text PICO8_VERSION ++ render (add_tail (blocks c)).
Proof.
  rewrite render_add_tail by (unfold blocks, lua_block; discriminate).
  unfold blocks. rewrite !render_app.
  rewrite render_gfx_block, render_gff_block, render_map_block, render_sfx_block,
    render_music_block, render_label_block.
  unfold p8_text. cbv zeta.
  generalize (gfx_text (m_rom c)) (gff_text (m_rom c)) (map_text (m_rom c))
    (sfx_text (m_rom c)) (music_text (m_rom c)) (label_text (m_label c)).
  intros tgfx tgff tmap tsfx tmus tlab.
  set (code := pico8_to_utf8 (get_code c)).
  replace (((str "pico-8 cartridge // http://www.pico-8.com" ++ nl)
            ++ str "version " ++ format_d PICO8_VERSION ++ nl) ++ str "__lua__" ++ nl)
    with ((header_text PICO8_VERSION ++ str "__lua__") ++ [10]).
  2:{ unfold header_text, nl. rewrite <- ?app_assoc. cbn [app]. rewrite <- ?app_assoc.
      reflexivity. }
  rewrite (ensure_nl_last (header_text PICO8_VERSION ++ str "__lua__") code).
  unfold lua_block, render. cbn [flat_map fst snd]. fold code.
  unfold nl. rewrite <- ?app_assoc. cbn [app]. rewrite <- ?app_assoc. reflexivity.
Qed.

(** *** The blocks are blocks of data *)

Definition clean (T : list Z) : Prop := Forall (fun c => c <> 0) T.

Lemma cleanb (T : list Z) : forallb (fun c => negb (c =? 0)) T = true -> clean T.
Proof.
  intros HT. apply Forall_forall. intros c Hc. rewrite forallb_forall in HT.
  apply list_elem_of_In, HT, negb_true_iff, Z.eqb_neq in Hc. exact Hc.
Qed.

Lemma marker_clean (name : list Z) (id : Z) : In (name, id) markers -> clean (name ++ [10]).
Proof.
  intros Hin. pattern name, id. eapply marker_cases; [..|exact Hin];
    apply cleanb; reflexivity.
Qed.

Definition good_blocks (secs : list section_block) : Prop :=
  Forall valid_block secs /\ clean (render secs).

Lemma good_blocks_app (s1 s2 : list section_block) :
  good_blocks s1 -> good_blocks s2 -> good_blocks (s1 ++ s2).
Proof.
  intros [Hv1 Hc1] [Hv2 Hc2]. split.
  - apply Forall_app. split; assumption.
  - rewrite render_app. apply Forall_app. split; assumption.
Qed.

Lemma good_block (name : list Z) (id : Z) (D : list Z) :
  In (name, id) markers -> data_text D -> clean D -> good_blocks [(name, id, D)].
Proof.
  intros Hin HD Hc. split.
  - constructor; [split; assumption | constructor].
  - unfold render. cbn [flat_map fst snd]. rewrite app_nil_r.
    change (name ++ 10 :: D) with (name ++ [10] ++ D). rewrite app_assoc.
    apply Forall_app. split; [apply (marker_clean name id Hin) | exact Hc].
Qed.

Lemma good_lines_block (name : string) (id lines : Z) (f : Z -> list Z) :
  In (str name, id) markers ->
  (forall i, exists l, f i = l ++ [10] /\ Forall plain l) ->
  good_blocks (lines_block name id lines f).
Proof.
  intros Hin Hf. unfold lines_block. destruct (0 <? lines).
  - apply good_block; [exact Hin | apply lines_data, Hf | apply lines_clean, Hf].
  - split; constructor.
Qed.

Lemma alphabet_char (col : Z) :
  let x := vec_at (str "0123456789abcdefghijklmnopqrstuv") (Z.land col 0x1f) in
  x <> 0 /\ x <> 95.
Proof.
  change 31 with (Z.ones 5). rewrite Z.land_ones by lia.
  pose proof (Z.mod_pos_bound col (2 ^ 5) ltac:(lia)) as Hc.
  assert (Hall : forallb (fun j =>
              let x := vec_at (str "0123456789abcdefghijklmnopqrstuv") j in
              negb (x =? 0) && negb (x =? 95)) (seqZ 0 (2 ^ 5)) = true)
    by (vm_compute; reflexivity).
  pose proof (forallb_seqZ _ _ Hall _ Hc) as Hx. cbv beta zeta in Hx.
  apply andb_true_iff in Hx. destruct Hx as [H0 H95].
  apply negb_true_iff, Z.eqb_neq in H0, H95. split; assumption.
Qed.

Lemma label_body_chars (label : list Z) :
  Forall (fun c => c <> 0 /\ c <> 95) (label_body label).
Proof.
  unfold label_body. induction (seqZ 0 (LABEL_WIDTH * LABEL_HEIGHT)) as [|i l IH];
    [constructor|].
  cbn [flat_map]. cbv zeta. rewrite <- app_comm_cons. constructor; [apply alphabet_char|].
  apply Forall_app. split; [|exact IH].
  destruct (_ =? 0); repeat constructor; lia.
Qed.

Lemma good_label_block (label : list Z) : good_blocks (label_block label).
Proof.
  unfold label_block. destruct (_ <=? len label); [|split; constructor].
  pose proof (label_body_chars label) as Hb.
  apply good_block.
  - unfold markers. cbn [In]. tauto.
  - apply plain_data_text. eapply Forall_impl; [exact Hb|]. cbv beta. tauto.
  - apply Forall_app. split; [|repeat constructor; lia].
    eapply Forall_impl; [exact Hb|]. cbv beta. tauto.
Qed.

Lemma script_ok_spec (T : list Z) :
  script_ok T = true ->
  clean T /\ Forall (fun l => is_marker l = false) (split_lines T).
Proof.
  unfold script_ok. intros HT. apply andb_true_iff in HT. destruct HT as [H0 Hm].
  split; [apply cleanb, H0|].
  apply Forall_forall. intros l Hl. rewrite forallb_forall in Hm.
  apply list_elem_of_In, Hm, negb_true_iff in Hl. exact Hl.
Qed.

Lemma good_lua_block (c : cart) :
  script_ok (pico8_to_utf8 (get_code c)) = true -> good_blocks (lua_block c).
Proof.
  intros Hs. apply script_ok_spec in Hs. destruct Hs as [Hc Hm].
  apply good_block.
  - unfold markers. cbn [In]. tauto.
  - apply ensure_nl_data_text, Hm.
  - unfold ensure_nl. destruct (negb _); [|exact Hc].
    apply Forall_app. split; [exact Hc | repeat constructor; lia].
Qed.

Lemma good_blocks_cart (c : cart) :
  wf (m_rom c) -> script_ok (pico8_to_utf8 (get_code c)) = true -> good_blocks (blocks c).
Proof.
  intros [_ Hrom] Hs. unfold blocks.
  assert (Hp : forall a, 0 <= peek (m_rom c) a < 256) by (intros a; apply peek_range, Hrom).
  repeat apply good_blocks_app.
  - apply good_lua_block, Hs.
  - apply good_lines_block; [unfold markers; cbn [In]; tauto|].
    intros i. apply gfx_line_plain.
  - apply good_label_block.
  - apply good_lines_block; [unfold markers; cbn [In]; tauto|].
    intros i. apply hex_line_plain. intros j. apply Hp.
  - apply good_lines_block; [unfold markers; cbn [In]; tauto|].
    intros i. apply hex_line_plain. intros j. apply Hp.
  - apply good_lines_block; [unfold markers; cbn [In]; tauto|].
    intros i. apply sfx_line_plain. intros j. apply Hp.
  - apply good_lines_block; [unfold markers; cbn [In]; tauto|].
    intros i. apply music_line_plain.
Qed.

(** The text has no NUL character: [load_p8] parses all of it. *)
Lemma c_str_p8_text (c : cart) :
  wf (m_rom c) -> script_ok (pico8_to_utf8 (get_code c)) = true ->
  c_str (p8_text c) = p8_text c.
Proof.
  intros Hrom Hs. apply c_str_id. rewrite p8_text_eq.
  rewrite render_add_tail by (unfold blocks, lua_block; discriminate).
  destruct (good_blocks_cart c Hrom Hs) as [_ Hc].
  apply Forall_app. split; [|apply Forall_app; split; [exact Hc | repeat constructor; lia] ].
  unfold header_text.
  apply Forall_app. split; [apply cleanb; reflexivity|].
  constructor; [lia|].
  apply Forall_app. split; [apply cleanb; reflexivity|].
  apply Forall_app. split; [|repeat constructor; lia].
  eapply Forall_impl; [apply format_d_chars|]. cbv beta. lia.
Qed.

(** *** The bytes of the sections *)

Definition stable (k : Z) (secs : list section_block) : Prop :=
  Forall (fun b => b.1.2 = k -> decode_block (b.1, b.2 ++ [10]) = decode_block b) secs.

Lemma stable_lines_block (k : Z) (name : string) (id lines : Z) (f g : Z -> list Z) :
  id <> section_lab ->
  (forall i next rest,
     decode_data (id =? section_gfx) false next (f i ++ rest)
     = g i ++ decode_data (id =? section_gfx) false next rest) ->
  stable k (lines_block name id lines f).
Proof.
  intros Hid Hf. unfold lines_block. destruct (0 <? lines); [|constructor].
  constructor; [|constructor]. intros _. unfold decode_block. cbn [fst snd].
  destruct (Z.eqb_spec id section_lab); [contradiction|].
  rewrite (lines_decode _ f g Hf).
  rewrite <- (app_nil_r (flat_map f _)). rewrite (lines_decode _ f g Hf).
  reflexivity.
Qed.

Lemma decode_lines_block (id lines : Z) (f g : Z -> list Z) :
  id <> section_lab ->
  (forall i next rest,
     decode_data (id =? section_gfx) false next (f i ++ rest)
     = g i ++ decode_data (id =? section_gfx) false next rest) ->
  decode_data (id =? section_gfx) (id =? section_lab) 0 (flat_map f (seqZ 0 lines))
  = flat_map g (seqZ 0 lines).
Proof.
  intros Hid Hf. destruct (Z.eqb_spec id section_lab); [contradiction|].
  rewrite <- (app_nil_r (flat_map f _)), (lines_decode _ f g Hf). apply app_nil_r.
Qed.

Lemma stable_other (k : Z) (name : list Z) (id : Z) (D : list Z) :
  id <> k -> stable k [(name, id, D)].
Proof. intros Hk. constructor; [|constructor]. cbn [fst snd]. congruence. Qed.

Definition gfx_bytes (rom : list Z) : list Z :=
  flat_map (fun line => row (fun i => peek rom (gfx_off + 64 * line + i)) 64)
           (seqZ 0 (gfx_lines rom)).
Definition gff_bytes (rom : list Z) : list Z :=
  flat_map (fun line => row (fun i => peek rom (gfx_props_off + (128 * line + i))) 128)
           (seqZ 0 (gff_lines rom)).
Definition map_bytes (rom : list Z) : list Z :=
  flat_map (fun line => row (fun i => peek rom (map_off + (128 * line + i))) 128)
           (seqZ 0 (map_lines rom)).
Definition sfx_bytes (rom : list Z) : list Z :=
  flat_map (fun line => sfx_line_bytes (fun k => peek rom (sfx_off + sizeof_sfx_t * line + k)))
           (seqZ 0 (sfx_lines rom)).
Definition music_bytes (rom : list Z) : list Z :=
  flat_map (fun line =>
              music_line_bytes (fun n => peek rom (song_off + sizeof_song_t * line + n)))
           (seqZ 0 (music_lines rom)).

(** What the sections of the reader hold after the parse of the text of a
    cartridge. *)
Definition section_bytes (rom : list Z) (k : Z) : list Z :=
  if k =? section_gfx then gfx_bytes rom
  else if k =? section_gff then gff_bytes rom
  else if k =? section_map then map_bytes rom
  else if k =? section_sfx then sfx_bytes rom
  else if k =? section_mus then music_bytes rom
  else [].

Lemma collect_cart (c : cart) (k : Z) :
  wf (m_rom c) -> k <> section_lua -> k <> section_lab ->
  collect k (add_tail (blocks c)) = section_bytes (m_rom c) k.
Proof.
  intros [_ Hrom] Hlua Hlab.
  assert (Hp : forall a, 0 <= peek (m_rom c) a < 256) by (intros a; apply peek_range, Hrom).
  assert (Hgfx := fun line => gfx_line_decode (fun i => peek (m_rom c) (gfx_off + 64 * line + i))
                                (fun i => Hp _)).
  assert (Hgff := fun line =>
            hex_line_decode (fun i => peek (m_rom c) (gfx_props_off + (128 * line + i)))
                            (fun i => Hp _)).
  assert (Hmap := fun line =>
            hex_line_decode (fun i => peek (m_rom c) (map_off + (128 * line + i)))
                            (fun i => Hp _)).
  assert (Hsfx := fun line =>
            decode_sfx_line (fun k => peek (m_rom c) (sfx_off + sizeof_sfx_t * line + k))
                            (fun i => Hp _)).
  assert (Hmus := fun line =>
            music_line_decode (fun n => peek (m_rom c) (song_off + sizeof_song_t * line + n))).
  rewrite collect_add_tail.
  2:{ unfold blocks. repeat apply Forall_app_2.
      - apply stable_other. exact (not_eq_sym Hlua).
      - eapply (stable_lines_block k _ section_gfx); [discriminate | exact Hgfx].
      - unfold label_block. destruct (_ <=? _); [|constructor].
        apply stable_other. exact (not_eq_sym Hlab).
      - eapply (stable_lines_block k _ section_gff); [discriminate | exact Hgff].
      - eapply (stable_lines_block k _ section_map); [discriminate | exact Hmap].
      - eapply (stable_lines_block k _ section_sfx); [discriminate | exact Hsfx].
      - eapply (stable_lines_block k _ section_mus); [discriminate | exact Hmus]. }
  unfold blocks. rewrite !collect_app.
  unfold gfx_block, gff_block, map_block, sfx_block, music_block.
  rewrite !collect_lines_block.
  rewrite (decode_lines_block section_gfx _ _ _ ltac:(discriminate) Hgfx).
  rewrite (decode_lines_block section_gff _ _ _ ltac:(discriminate) Hgff).
  rewrite (decode_lines_block section_map _ _ _ ltac:(discriminate) Hmap).
  rewrite (decode_lines_block section_sfx _ _ _ ltac:(discriminate) Hsfx).
  rewrite (decode_lines_block section_mus _ _ _ ltac:(discriminate) Hmus).
  assert (Hl : collect k (lua_block c) = []).
  { unfold collect, lua_block. cbn [flat_map fst snd].
    destruct (Z.eqb_spec section_lua k); [congruence|reflexivity]. }
  assert (Hb : collect k (label_block (m_label c)) = []).
  { unfold collect, label_block. destruct (_ <=? _); [|reflexivity]. cbn [flat_map fst snd].
    destruct (Z.eqb_spec section_lab k); [congruence|reflexivity]. }
  rewrite Hl, Hb. unfold section_bytes, gfx_bytes, gff_bytes, map_bytes, sfx_bytes, music_bytes.
  rewrite !(Z.eqb_sym k). cbn [app].
  generalize (flat_map (fun line => row (fun i => peek (m_rom c) (gfx_off + 64 * line + i)) 64)
                (seqZ 0 (gfx_lines (m_rom c)))).
  generalize (flat_map
                (fun line => row (fun i => peek (m_rom c) (gfx_props_off + (128 * line + i))) 128)
                (seqZ 0 (gff_lines (m_rom c)))).
  generalize (flat_map
                (fun line => row (fun i => peek (m_rom c) (map_off + (128 * line + i))) 128)
                (seqZ 0 (map_lines (m_rom c)))).
  generalize (flat_map
                (fun line => sfx_line_bytes
                               (fun k => peek (m_rom c) (sfx_off + sizeof_sfx_t * line + k)))
                (seqZ 0 (sfx_lines (m_rom c)))).
  generalize (flat_map
                (fun line => music_line_bytes
                               (fun n => peek (m_rom c) (song_off + sizeof_song_t * line + n)))
                (seqZ 0 (music_lines (m_rom c)))).
  intros b5 b4 b3 b2 b1.
  destruct (Z.eqb_spec section_gfx k) as [<- | Hk1]; [cbn; rewrite ?app_nil_r; reflexivity|].
  destruct (Z.eqb_spec section_gff k) as [<- | Hk2]; [cbn; rewrite ?app_nil_r; reflexivity|].
  destruct (Z.eqb_spec section_map k) as [<- | Hk3]; [cbn; rewrite ?app_nil_r; reflexivity|].
  destruct (Z.eqb_spec section_sfx k) as [<- | Hk4]; [cbn; rewrite ?app_nil_r; reflexivity|].
  destruct (Z.eqb_spec section_mus k) as [<- | Hk5]; [cbn; rewrite ?app_nil_r; reflexivity|].
  reflexivity.
Qed.

(** The reader after the parse of the text of a cartridge. *)
Lemma parse_p8_text (c : cart) (garbage : Z) :
  wf (m_rom c) -> script_ok (pico8_to_utf8 (get_code c)) = true ->
  let reader := parse (new_reader garbage) (c_str (p8_text c)) in
  0 <= m_version reader
  /\ forall k, k <> section_lua -> k <> section_lab ->
       section_get k (m_sections reader) = section_bytes (m_rom c) k.
Proof.
  intros Hrom Hs. cbv zeta. rewrite c_str_p8_text, p8_text_eq by assumption.
  destruct (good_blocks_cart c Hrom Hs) as [Hv _].
  destruct (parse_saved garbage PICO8_VERSION (add_tail (blocks c)) (valid_add_tail _ Hv))
    as [Hver Hsec].
  split; [exact Hver|]. intros k Hlua Hlab. rewrite Hsec by exact Hlua.
  apply collect_cart; assumption.
Qed.

End WithExternals.

End TextFacts.

(** ** The memory that [load_p8] builds from the text of [save_p8] *)

Module RomFacts.
Import Text Memory Peg P8Reader Cart ByteFacts LoopFacts PackerFacts ReaderFacts HexFacts
  BitFacts SfxFacts ParseFacts TextFacts.

(** *** The bytes of the sections *)

Lemma length_flat_map_chunk (g : Z -> list Z) (s n : Z) :
  (forall i, len (g i) = s) -> 0 <= n -> len (flat_map g (seqZ 0 n)) = s * n.
Proof.
  intros Hg Hn. pattern n. apply natlike_ind; [unfold len; simpl; lia| |exact Hn].
  intros k Hk IHk. rewrite <- Z.add_1_r, seqZ_snoc, flat_map_app by lia.
  cbn [flat_map]. rewrite app_nil_r. unfold len in *.
  rewrite length_app, Nat2Z.inj_add, IHk, Hg. lia.
Qed.

Lemma byte_flat_map (g : Z -> list Z) (l : list Z) :
  (forall i, byte_rom (g i)) -> byte_rom (flat_map g l).
Proof.
  intros Hg. induction l as [|i l IH]; [constructor|].
  cbn [flat_map]. apply Forall_app. split; [apply Hg | exact IH].
Qed.

(** A section written line by line holds the bytes of its part of the
    memory, up to the last line that is not zero. *)
Section Rows.
Variable rom : list Z.
Hypothesis rom_wf : wf rom.
Variables (base per count lines : Z).
Hypothesis per_pos : 0 < per.
Hypothesis count_pos : 0 <= count.
Hypothesis lines_def :
  lines = count_lines (per * count) per (fun i => peek rom (base + i)).

Definition rows : list Z :=
  flat_map (fun line => row (fun i => peek rom (base + (per * line + i))) per) (seqZ 0 lines).

Lemma lines_bound : 0 <= lines <= count.
Proof. rewrite lines_def. apply count_lines_bound; assumption. Qed.

Lemma length_rows : len rows = per * lines.
Proof.
  apply length_flat_map_chunk; [|apply lines_bound].
  intros i. apply length_row. lia.
Qed.

Lemma byte_rows : byte_rom rows.
Proof.
  apply byte_flat_map. intros i. apply row_range. intros j.
  apply peek_range, rom_wf.
Qed.

Lemma peek_rows (a : Z) : 0 <= a < per * lines -> peek rows a = peek rom (base + a).
Proof.
  intros Ha. unfold rows. rewrite <- (app_nil_r (flat_map _ _)).
  pose proof (Z.div_mod a per ltac:(lia)) as Hdm.
  pose proof (Z.mod_pos_bound a per per_pos) as Hm.
  rewrite Hdm at 1.
  rewrite (peek_flat_map_chunk _ per) .
  - rewrite peek_row by exact Hm. f_equal. lia.
  - intros i. apply length_row. lia.
  - split; [apply Z.div_pos; lia | apply Z.div_lt_upper_bound; lia].
  - exact Hm.
Qed.

Lemma rows_zero (a : Z) : per * lines <= a < per * count -> peek rom (base + a) = 0.
Proof.
  intros Ha. rewrite lines_def in Ha.
  exact (count_lines_zero count per (fun i => peek rom (base + i)) a count_pos per_pos Ha).
Qed.

End Rows.

Lemma count_lines_ext (n per : Z) (f g : Z -> Z) :
  (forall i, f i = g i) -> count_lines n per f = count_lines n per g.
Proof.
  intros Hfg. unfold count_lines. generalize (seqZ 0 n) as l. intros l.
  assert (Hl : forall acc,
             fold_left (fun lines i => if negb (f i =? 0) then 1 + i / per else lines) l acc
             = fold_left (fun lines i => if negb (g i =? 0) then 1 + i / per else lines) l acc).
  { induction l as [|i l IH]; intros acc; [reflexivity|].
    cbn [fold_left]. rewrite Hfg. apply IH. }
  apply Hl.
Qed.

Lemma rows_ext (rom : list Z) (base per lines : Z) (f : Z -> Z -> Z) :
  (forall line i, f line i = peek rom (base + (per * line + i))) ->
  flat_map (fun line => row (f line) per) (seqZ 0 lines) = rows rom base per lines.
Proof.
  intros Hf. unfold rows. apply flat_map_ext. intros line. unfold row.
  apply map_ext. intros i. apply Hf.
Qed.

Lemma gfx_bytes_rows (rom : list Z) : gfx_bytes rom = rows rom gfx_off 64 (gfx_lines rom).
Proof. apply rows_ext. intros line i. f_equal; lia. Qed.

Lemma gff_bytes_rows (rom : list Z) : gff_bytes rom = rows rom gfx_props_off 128 (gff_lines rom).
Proof. reflexivity. Qed.

Lemma map_bytes_rows (rom : list Z) : map_bytes rom = rows rom map_off 128 (map_lines rom).
Proof. reflexivity. Qed.

Lemma gfx_lines_def (rom : list Z) :
  gfx_lines rom = count_lines (64 * 128) 64 (fun i => peek rom (gfx_off + i)).
Proof.
  unfold gfx_lines. apply count_lines_ext. intros i. f_equal.
  pose proof (Z.div_mod i 64 ltac:(lia)). lia.
Qed.

Lemma gff_lines_def (rom : list Z) :
  gff_lines rom = count_lines (128 * 2) 128 (fun i => peek rom (gfx_props_off + i)).
Proof. reflexivity. Qed.

Lemma map_lines_def (rom : list Z) :
  map_lines rom = count_lines (128 * 32) 128 (fun i => peek rom (map_off + i)).
Proof. reflexivity. Qed.

Lemma byte_rom_memcpy (dst : list Z) (off : Z) (src : list Z) (n : Z) :
  byte_rom dst -> byte_rom src -> byte_rom (memcpy dst off src n).
Proof.
  intros Hd Hs. unfold memcpy, byte_rom in *.
  repeat apply Forall_app_2; [apply Forall_take | apply Forall_take | apply Forall_drop];
    assumption.
Qed.

Lemma byte_rom_zero : byte_rom zero_rom.
Proof. apply Forall_replicate. lia. Qed.

Lemma peek_zero_rom (a : Z) : peek zero_rom a = 0.
Proof.
  unfold peek, zero_rom. destruct (a <? 0); [reflexivity|].
  destruct (replicate _ _ !! _) eqn:E; [|reflexivity].
  apply lookup_replicate in E. cbn. tauto.
Qed.

(** A copy of all of [src] into [dst]. *)
Lemma memcpy_all (dst : list Z) (off : Z) (src : list Z) (cap : Z) :
  0 <= off -> len src <= cap -> off + len src <= len dst ->
  len (memcpy dst off src (Z.min cap (len src))) = len dst
  /\ forall a, peek (memcpy dst off src (Z.min cap (len src))) a
       = if (off <=? a) && (a <? off + len src) then peek src (a - off) else peek dst a.
Proof.
  intros Hoff Hcap Hfit. rewrite Z.min_r by exact Hcap.
  assert (Hs : 0 <= len src) by (unfold len; lia).
  split.
  - unfold len at 1 3. rewrite length_memcpy; [reflexivity | exact Hoff |].
    rewrite Z.min_id. exact Hfit.
  - intros a. apply peek_memcpy; [exact Hoff | lia | exact Hfit].
Qed.

(** The sections that are copied as they are. *)
Lemma peek_copy_sections (sections : gmap Z (list Z)) (rom : list Z) (a : Z) :
  wf rom ->
  section_get section_gfx sections = gfx_bytes rom ->
  section_get section_gff sections = gff_bytes rom ->
  section_get section_map sections = map_bytes rom ->
  byte_rom (copy_sections sections)
  /\ peek (copy_sections sections) a
     = if (0 <=? a) && (a <? song_off) then peek rom a else 0.
Proof.
  intros Hrom Hgfx Hgff Hmap. unfold copy_sections. rewrite Hgfx, Hgff, Hmap.
  rewrite gfx_bytes_rows, gff_bytes_rows, map_bytes_rows.
  pose proof (lines_bound rom gfx_off 64 128 _ ltac:(lia) ltac:(lia) (gfx_lines_def rom)) as B1.
  pose proof (lines_bound rom gfx_props_off 128 2 _ ltac:(lia) ltac:(lia) (gff_lines_def rom))
    as B2.
  pose proof (lines_bound rom map_off 128 32 _ ltac:(lia) ltac:(lia) (map_lines_def rom)) as B3.
  pose proof (length_rows rom gfx_off 64 128 _ ltac:(lia) ltac:(lia) (gfx_lines_def rom)) as L1.
  pose proof (length_rows rom gfx_props_off 128 2 _ ltac:(lia) ltac:(lia) (gff_lines_def rom))
    as L2.
  pose proof (length_rows rom map_off 128 32 _ ltac:(lia) ltac:(lia) (map_lines_def rom)) as L3.
  pose proof (byte_rows rom Hrom gfx_off 64 (gfx_lines rom)) as Hbg.
  pose proof (byte_rows rom Hrom gfx_props_off 128 (gff_lines rom)) as Hbf.
  pose proof (byte_rows rom Hrom map_off 128 (map_lines rom)) as Hbm.
  pose proof length_zero_rom as L0.
  assert (E1 : gfx_off = 0) by reflexivity.
  assert (E2 : gfx_props_off = 12288) by reflexivity.
  assert (E3 : map_off = 8192) by reflexivity.
  assert (E4 : song_off = 12544) by reflexivity.
  assert (E5 : size = 32768) by reflexivity.
  assert (E6 : gfx_size = 8192) by reflexivity.
  assert (E7 : gfx_props_size = 256) by reflexivity.
  assert (E8 : map_size = 4096) by reflexivity.
  assert (Hm : map_off <= a < map_off + 128 * map_lines rom ->
               peek (rows rom map_off 128 (map_lines rom)) (a - map_off) = peek rom a).
  { intros Ha. rewrite (peek_rows rom map_off 128 _ ltac:(lia)) by lia. f_equal. lia. }
  assert (Hmz : map_off + 128 * map_lines rom <= a < gfx_props_off -> peek rom a = 0).
  { intros Ha. replace a with (map_off + (a - map_off)) by lia.
    apply (rows_zero rom map_off 128 32 _ ltac:(lia) ltac:(lia) (map_lines_def rom)). lia. }
  assert (Hf : gfx_props_off <= a < gfx_props_off + 128 * gff_lines rom ->
               peek (rows rom gfx_props_off 128 (gff_lines rom)) (a - gfx_props_off)
               = peek rom a).
  { intros Ha. rewrite (peek_rows rom gfx_props_off 128 _ ltac:(lia)) by lia. f_equal. lia. }
  assert (Hfz : gfx_props_off + 128 * gff_lines rom <= a < song_off -> peek rom a = 0).
  { intros Ha. replace a with (gfx_props_off + (a - gfx_props_off)) by lia.
    apply (rows_zero rom gfx_props_off 128 2 _ ltac:(lia) ltac:(lia) (gff_lines_def rom)).
    lia. }
  assert (Hg : gfx_off <= a < gfx_off + 64 * gfx_lines rom ->
               peek (rows rom gfx_off 64 (gfx_lines rom)) (a - gfx_off) = peek rom a).
  { intros Ha. rewrite (peek_rows rom gfx_off 64 _ ltac:(lia)) by lia. f_equal. lia. }
  assert (Hgz : gfx_off + 64 * gfx_lines rom <= a < map_off -> peek rom a = 0).
  { intros Ha. replace a with (gfx_off + (a - gfx_off)) by lia.
    apply (rows_zero rom gfx_off 64 128 _ ltac:(lia) ltac:(lia) (gfx_lines_def rom)). lia. }
  revert Hm Hf Hg L1 L2 L3 Hbg Hbf Hbm.
  generalize (rows rom map_off 128 (map_lines rom)) as map.
  generalize (rows rom gfx_props_off 128 (gff_lines rom)) as gff.
  generalize (rows rom gfx_off 64 (gfx_lines rom)) as gfx.
  intros gfx gff map Hm Hf Hg L1 L2 L3 Hbg Hbf Hbm. cbv zeta.
  destruct (Z.ltb_spec map_size (len map)) as [Hbig | _]; [lia|].
  destruct (memcpy_all zero_rom gfx_off gfx gfx_size) as [Lr1 P1]; [lia..|].
  destruct (memcpy_all (memcpy zero_rom gfx_off gfx (Z.min gfx_size (len gfx)))
              gfx_props_off gff gfx_props_size) as [Lr2 P2]; [lia..|].
  destruct (memcpy_all
              (memcpy (memcpy zero_rom gfx_off gfx (Z.min gfx_size (len gfx)))
                      gfx_props_off gff (Z.min gfx_props_size (len gff)))
              map_off map map_size) as [Lr3 P3]; [lia..|].
  split.
  - repeat apply byte_rom_memcpy; try assumption. apply byte_rom_zero.
  - rewrite P3, P2, P1, peek_zero_rom, L1, L2, L3.
    clear P1 P2 P3 Lr1 Lr2 Lr3 Hbg Hbf Hbm L0 L1 L2 L3.
    repeat match goal with
           | |- context [?x <=? ?y] => destruct (Z.leb_spec x y)
           | |- context [?x <? ?y] => destruct (Z.ltb_spec x y)
           end; cbn [andb]; lia.
Qed.

(** *** The songs *)

Lemma flag_bit (b0 b1 b2 b3 k : Z) :
  (b0 = 0 \/ b0 = 1) -> (b1 = 0 \/ b1 = 1) -> (b2 = 0 \/ b2 = 1) -> (b3 = 0 \/ b3 = 1) ->
  0 <= k < 4 ->
  Z.land (Z.shiftl (Z.lor (Z.lor (Z.lor b0 (Z.shiftl b1 1)) (Z.shiftl b2 2)) (Z.shiftl b3 3))
                   (7 - k)) 0x80
  = 128 * (if k =? 0 then b0 else if k =? 1 then b1 else if k =? 2 then b2 else b3).
Proof.
  intros [-> | ->] [-> | ->] [-> | ->] [-> | ->] Hk;
    assert (Hc : k = 0 \/ k = 1 \/ k = 2 \/ k = 3) by lia;
    destruct Hc as [-> | [-> | [-> | ->] ] ]; reflexivity.
Qed.

Lemma byte_of_parts (d : Z) :
  0 <= d < 256 -> uint8 (Z.lor (Z.land d 0x7f) (128 * bits d 7 1)) = d.
Proof.
  intros Hd.
  assert (Hall : forallb (fun d => uint8 (Z.lor (Z.land d 0x7f) (128 * bits d 7 1)) =? d)
                         (seqZ 0 256) = true) by (vm_compute; reflexivity).
  apply Z.eqb_eq. exact (forallb_seqZ _ _ Hall d Hd).
Qed.

(** The byte of a song that [load_p8] makes of the line that [save_p8]
    wrote for it. *)
Lemma song_byte_saved (data : Z -> Z) (k : Z) :
  (forall n, 0 <= data n < 256) -> 0 <= k < 4 ->
  uint8 (Z.lor (song_sfx data k) (Z.land (Z.shiftl (music_flags data) (7 - k)) 0x80))
  = data k.
Proof.
  intros Hd Hk. unfold music_flags.
  rewrite flag_bit by (try apply top_bit; exact Hk).
  unfold song_sfx.
  assert (Hc : k = 0 \/ k = 1 \/ k = 2 \/ k = 3) by lia.
  destruct Hc as [-> | [-> | [-> | ->] ] ]; cbn [Z.eqb Pos.eqb]; apply byte_of_parts, Hd.
Qed.

Lemma music_lines_def (rom : list Z) :
  music_lines rom = count_lines (4 * 64) 4 (fun i => peek rom (song_off + i)).
Proof. reflexivity. Qed.

Lemma sfx_lines_def (rom : list Z) :
  sfx_lines rom = count_lines (68 * 64) 68 (fun i => peek rom (sfx_off + i)).
Proof. reflexivity. Qed.

Lemma length_music_bytes (rom : list Z) : len (music_bytes rom) = 5 * music_lines rom.
Proof.
  apply length_flat_map_chunk; [reflexivity|].
  rewrite music_lines_def. apply count_lines_bound; lia.
Qed.

Lemma length_sfx_bytes (rom : list Z) : len (sfx_bytes rom) = 84 * sfx_lines rom.
Proof.
  apply length_flat_map_chunk.
  - intros i. unfold len. rewrite length_sfx_line_bytes. reflexivity.
  - rewrite sfx_lines_def. apply count_lines_bound; lia.
Qed.

Lemma song_byte_music (rom : list Z) (i k : Z) :
  wf rom -> 0 <= i < music_lines rom -> 0 <= k < 4 ->
  song_byte (music_bytes rom) i k = peek rom (song_off + sizeof_song_t * i + k).
Proof.
  intros [_ Hrom] Hi Hk. unfold song_byte, vec_at, music_bytes.
  rewrite <- (app_nil_r (flat_map _ _)).
  replace (i * 5 + (k + 1)) with (5 * i + (k + 1)) by lia.
  replace (i * 5) with (5 * i + 0) by lia.
  rewrite !(peek_flat_map_chunk _ 5) by (reflexivity || lia).
  set (data := fun n => peek rom (song_off + sizeof_song_t * i + n)).
  assert (Hd : forall n, 0 <= data n < 256) by (intros n; apply peek_range, Hrom).
  change (peek rom (song_off + sizeof_song_t * i + k)) with (data k).
  rewrite <- (song_byte_saved data k Hd Hk). unfold music_line_bytes.
  destruct (peek_list5 (music_flags data) (song_sfx data 0) (song_sfx data 1)
              (song_sfx data 2) (song_sfx data 3)) as (E0 & E1 & E2 & E3 & E4).
  rewrite E0.
  assert (Hc : k = 0 \/ k = 1 \/ k = 2 \/ k = 3) by lia.
  destruct Hc as [-> | [-> | [-> | ->] ] ]; cbn [Z.add Pos.add Pos.succ];
    rewrite ?E1, ?E2, ?E3, ?E4; reflexivity.
Qed.

(** *** The sound effects *)

Lemma sfx_byte_saved (rom : list Z) (i k : Z) :
  wf rom -> 0 <= i < sfx_lines rom -> 0 <= k < 68 ->
  sfx_byte (sfx_bytes rom) i k = peek rom (sfx_off + sizeof_sfx_t * i + k).
Proof.
  intros [_ Hrom] Hi Hk.
  set (data := fun n => peek rom (sfx_off + sizeof_sfx_t * i + n)).
  assert (Hd : forall n, 0 <= data n < 256) by (intros n; apply peek_range, Hrom).
  assert (Hline : forall r, 0 <= r < 84 ->
            vec_at (sfx_bytes rom) (84 * i + r) = peek (sfx_line_bytes data) r).
  { intros r Hr. unfold vec_at, sfx_bytes. rewrite <- (app_nil_r (flat_map _ _)).
    rewrite (peek_flat_map_chunk _ 84); [reflexivity| |lia|lia].
    intros j. unfold len. rewrite length_sfx_line_bytes. reflexivity. }
  change (peek rom (sfx_off + sizeof_sfx_t * i + k)) with (data k).
  unfold sfx_byte. destruct (Z.ltb_spec k 64) as [Hlt | Hge].
  - pose proof (Z.div_mod k 2 ltac:(lia)) as Hdm.
    pose proof (Z.mod_pos_bound k 2 ltac:(lia)) as Hm.
    rewrite (note_word_of_line (sfx_bytes rom) data i (k / 2) Hd Hline) by lia.
    pose proof (Hd (2 * (k / 2))) as H0. pose proof (Hd (2 * (k / 2) + 1)) as H1.
    destruct (Z.eqb_spec (k mod 2) 0) as [He | Hne].
    + replace (data k) with (data (2 * (k / 2))) by (f_equal; lia).
      rewrite (Z.mul_comm 256), Z.mod_add by lia. apply Z.mod_small. lia.
    + replace (data k) with (data (2 * (k / 2) + 1)) by (f_equal; lia).
      rewrite (Z.mul_comm 256), Z.div_add by lia.
      rewrite Z.div_small by lia. reflexivity.
  - replace (i * 84 + (k - 64)) with (84 * i + (k - 64)) by lia.
    rewrite Hline by lia. unfold uint8.
    assert (Hc : k = 64 \/ k = 65 \/ k = 66 \/ k = 67) by lia.
    destruct Hc as [-> | [-> | [-> | ->] ] ]; cbn; apply Z.mod_small, Hd.
Qed.

Lemma byte_rom_load_song (mus rom : list Z) (i : Z) :
  byte_rom rom -> byte_rom (load_song mus rom i).
Proof. intros Hrom. unfold load_song, byte_rom. do 4 apply poke_range. exact Hrom. Qed.

(** *** The memory *)

Lemma rom_of_saved (sections : gmap Z (list Z)) (rom : list Z) :
  wf rom ->
  (forall a, code_off <= a < size -> peek rom a = 0) ->
  (forall k, k <> section_lua -> k <> section_lab ->
     section_get k sections = section_bytes rom k) ->
  rom_of_sections sections = rom.
Proof.
  intros Hrom Hcode Hsec.
  pose proof (Hsec section_gfx ltac:(discriminate) ltac:(discriminate)) as Hgfx.
  pose proof (Hsec section_gff ltac:(discriminate) ltac:(discriminate)) as Hgff.
  pose proof (Hsec section_map ltac:(discriminate) ltac:(discriminate)) as Hmap.
  pose proof (Hsec section_sfx ltac:(discriminate) ltac:(discriminate)) as Hsfx.
  pose proof (Hsec section_mus ltac:(discriminate) ltac:(discriminate)) as Hmus.
  change (section_bytes rom section_gfx) with (gfx_bytes rom) in Hgfx.
  change (section_bytes rom section_gff) with (gff_bytes rom) in Hgff.
  change (section_bytes rom section_map) with (map_bytes rom) in Hmap.
  change (section_bytes rom section_sfx) with (sfx_bytes rom) in Hsfx.
  change (section_bytes rom section_mus) with (music_bytes rom) in Hmus.
  pose proof (count_lines_bound 64 4 (fun i => peek rom (song_off + i)) ltac:(lia) ltac:(lia))
    as Bm. rewrite <- music_lines_def in Bm.
  pose proof (count_lines_bound 64 68 (fun i => peek rom (sfx_off + i)) ltac:(lia) ltac:(lia))
    as Bs. rewrite <- sfx_lines_def in Bs.
  assert (Hlen : len (rom_of_sections sections) = size).
  { unfold rom_of_sections, len.
    rewrite !fold_length by (intros; apply length_load_sfx || apply length_load_song).
    apply length_copy_sections. }
  destruct Hrom as [Hsize Hbytes].
  apply peek_ext; [unfold len in Hlen; lia|].
  intros a Ha. unfold len in Hlen. rewrite Hlen in Ha.
  unfold rom_of_sections. rewrite Hsfx, Hmus, length_sfx_bytes, length_music_bytes.
  change (song_size / 4) with 64. change (sfx_size / (4 + 32 * 2)) with 64.
  change (4 + 32 * 5 / 2) with 84.
  replace (5 * music_lines rom / 5) with (music_lines rom)
    by (rewrite Z.mul_comm, Z.div_mul; lia).
  replace (84 * sfx_lines rom / 84) with (sfx_lines rom)
    by (rewrite Z.mul_comm, Z.div_mul; lia).
  rewrite !Z.min_r by lia.
  destruct (peek_copy_sections sections rom a (conj Hsize Hbytes) Hgfx Hgff Hmap)
    as [Hbc Hpc].
  assert (Lc : len (copy_sections sections) = size) by apply length_copy_sections.
  rewrite peek_sfxs.
  2:{ apply byte_rom_fold; [intros; apply byte_rom_load_song; assumption | exact Hbc]. }
  2:{ lia. }
  2:{ unfold len. rewrite fold_length by (intros; apply length_load_song).
      unfold len in Lc. rewrite Lc. layout. lia. }
  rewrite peek_songs by (try lia; rewrite Lc; layout; lia).
  rewrite Hpc.
  destruct (Z.leb_spec sfx_off a); cbn [andb].
  - destruct (Z.ltb_spec a (sfx_off + sizeof_sfx_t * sfx_lines rom)).
    + pose proof (Z.div_mod (a - sfx_off) sizeof_sfx_t ltac:(layout; lia)) as Hdm.
      pose proof (Z.mod_pos_bound (a - sfx_off) sizeof_sfx_t ltac:(layout; lia)) as Hm.
      rewrite sfx_byte_saved.
      * f_equal. lia.
      * split; assumption.
      * split; [apply Z.div_pos; layout; lia | apply Z.div_lt_upper_bound; layout; lia].
      * exact Hm.
    + destruct (Z.leb_spec song_off a); [|layout; lia]. cbn [andb].
      destruct (Z.ltb_spec a (song_off + sizeof_song_t * music_lines rom)); [layout; lia|].
      destruct (Z.leb_spec 0 a); [|lia]. cbn [andb].
      destruct (Z.ltb_spec a song_off); [lia|].
      symmetry. destruct (Z.ltb_spec a code_off).
      * replace a with (sfx_off + (a - sfx_off)) by lia.
        apply (count_lines_zero 64 68 (fun i => peek rom (sfx_off + i))); [lia|lia|].
        rewrite <- sfx_lines_def. layout. lia.
      * apply Hcode. lia.
  - destruct (Z.leb_spec song_off a); cbn [andb].
    + destruct (Z.ltb_spec a (song_off + sizeof_song_t * music_lines rom)).
      * pose proof (Z.div_mod (a - song_off) sizeof_song_t ltac:(layout; lia)) as Hdm.
        pose proof (Z.mod_pos_bound (a - song_off) sizeof_song_t ltac:(layout; lia)) as Hm.
        rewrite song_byte_music.
        -- f_equal. lia.
        -- split; assumption.
        -- split; [apply Z.div_pos; layout; lia | apply Z.div_lt_upper_bound; layout; lia].
        -- exact Hm.
      * destruct (Z.leb_spec 0 a); [|lia]. cbn [andb].
        destruct (Z.ltb_spec a song_off); [lia|].
        symmetry. replace a with (song_off + (a - song_off)) by lia.
        apply (count_lines_zero 64 4 (fun i => peek rom (song_off + i))); [lia|lia|].
        rewrite <- music_lines_def. layout. lia.
    + destruct (Z.leb_spec 0 a); [|lia]. cbn [andb].
      destruct (Z.ltb_spec a song_off); [reflexivity|lia].
Qed.

End RomFacts.

(** ** Saving a cartridge as text and loading it again *)

Module RoundTripFacts.
Import Text Memory Peg P8Reader Cart ByteFacts LoopFacts PackerFacts ReaderFacts HexFacts
  BitFacts SfxFacts ParseFacts TextFacts RomFacts.

Lemma wfb_wf (m : list Z) : wfb m = true -> wf m.
Proof.
  unfold wfb, wf. intros Hm. apply andb_true_iff in Hm. destruct Hm as [Hl Hb].
  apply Z.eqb_eq in Hl. split; [exact Hl|].
  apply Forall_forall. intros b Hin. rewrite forallb_forall in Hb.
  apply list_elem_of_In, Hb, andb_true_iff in Hin. destruct Hin as [H0 H1].
  apply Z.leb_le in H0. apply Z.ltb_lt in H1. lia.
Qed.

Section WithExternals.
Context `{Externals}.

(** C1: a cartridge is saved with [save_p8] and the text is loaded with
    [load_p8].  When the memory of the cartridge is zero from the code
    section on, and its script, as it is written, has no NUL character and
    no line that the grammar takes for the marker of a section, the load
    succeeds and the memory it builds is the memory of the cartridge, byte
    for byte: the lines that [save_p8] left out, all zero in the
    cartridge, are zero again.  Neither the cartridge that is loaded into
    nor the value that [m_current_section] starts with matters. *)
Theorem save_p8_load_p8_memory (w : world) (name filename : list Z) (c c0 : cart) :
  wf (m_rom c) ->
  (forall a, code_off <= a < size -> peek (m_rom c) a = 0) ->
  script_ok (pico8_to_utf8 (get_code c)) = true ->
  file_read w (get_data_path w filename) = Some (snd (snd (save_p8 name c))) ->
  fst (load_p8 w filename c0) = true
  /\ m_rom (snd (load_p8 w filename c0)) = m_rom c.
Proof.
  intros Hrom Hcode Hscript Hfile. unfold load_p8. rewrite Hfile.
  cbn [save_p8 snd].
  destruct (parse_p8_text c (stack_garbage w) Hrom Hscript) as [Hver Hsec].
  cbv zeta in Hver, Hsec.
  destruct (Z.ltb_spec (m_version (parse (new_reader (stack_garbage w)) (c_str (p8_text c)))) 0)
    as [Hneg | _]; [lia|].
  cbn [fst snd m_rom]. split; [reflexivity|].
  apply rom_of_saved; assumption.
Qed.

End WithExternals.

Import Sample.

Lemma save_p8_load_p8_memory_witness :
  let w := one_file (str "a.p8") (snd (snd (save_p8 (str "a.p8") painted_cart))) in
  fst (load_p8 w (str "a.p8") empty_cart) = true
  /\ m_rom (snd (load_p8 w (str "a.p8") empty_cart)) = m_rom painted_cart.
Proof.
  apply (save_p8_load_p8_memory
           (one_file (str "a.p8") (snd (snd (save_p8 (str "a.p8") painted_cart))))
           (str "a.p8") (str "a.p8") painted_cart empty_cart).
  - apply wfb_wf. vm_compute. reflexivity.
  - intros a Ha. unfold painted_cart. cbn [m_rom].
    rewrite !peek_poke_ne by (layout; lia). apply peek_zero_rom.
  - vm_compute. reflexivity.
  - cbn [one_file file_read get_data_path]. rewrite bool_decide_eq_true_2 by reflexivity.
    reflexivity.
Defined.

(** The text of a cartridge with nothing in its memory and no label: the
    header and the script. *)
Lemma count_lines_all_zero (n per : Z) (at_ : Z -> Z) :
  (forall i, at_ i = 0) -> count_lines n per at_ = 0.
Proof.
  intros Hz. unfold count_lines. induction (seqZ 0 n) as [|i l IH]; [reflexivity|].
  cbn [fold_left]. rewrite Hz. exact IH.
Qed.

Lemma blocks_zero_rom (code : list Z) :
  blocks (script_cart code) = lua_block (script_cart code).
Proof.
  unfold blocks, gfx_block, gff_block, map_block, sfx_block, music_block,
    gfx_lines, gff_lines, map_lines, sfx_lines, music_lines, script_cart.
  cbn [m_rom m_label].
  rewrite !count_lines_all_zero by (intros i; apply peek_zero_rom).
  apply app_nil_r.
Qed.

Lemma p8_text_script_cart (code : list Z) :
  p8_text (script_cart code)
  = header_text PICO8_VERSION ++ str "__lua__" ++ 10 :: ensure_nl code ++ [10].
Proof.
  rewrite p8_text_eq, blocks_zero_rom. f_equal.
  unfold lua_block, render. cbn [add_tail flat_map fst snd]. rewrite app_nil_r. reflexivity.
Qed.

(** C1, as the claim has it, fails.  The memory of this cartridge is all
    zero; the second line of its script reads as the marker of the gfx
    section, and the line after it as a line of pixels.  The text that
    [save_p8] writes loads, and the memory that [load_p8] builds has a
    pixel where the memory of the cartridge has none. *)
Lemma script_marker_changes_memory :
  let c := script_cart (str "x=1" ++ [10] ++ str "__gfx__" ++ [10] ++ str "10") in
  let w := one_file (str "a.p8") (snd (snd (save_p8 (str "a.p8") c))) in
  m_rom c = zero_rom
  /\ fst (load_p8 w (str "a.p8") empty_cart) = true
  /\ peek (m_rom c) 0 = 0
  /\ peek (m_rom (snd (load_p8 w (str "a.p8") empty_cart))) 0 = 1
  /\ script_ok (pico8_to_utf8 (get_code c)) = false.
Proof.
  cbv zeta. unfold load_p8. cbn [one_file file_read get_data_path save_p8 snd].
  rewrite bool_decide_eq_true_2 by reflexivity. rewrite p8_text_script_cart.
  split; [reflexivity|]. split; [vm_compute; reflexivity|].
  split; [apply peek_zero_rom|]. split; vm_compute; reflexivity.
Qed.

End RoundTripFacts.

(** ** What the parse of any text keeps of the reader *)

Module InvariantFacts.
Import Text Memory Peg P8Reader Cart ByteFacts LoopFacts PackerFacts ReaderFacts HexFacts
  ParseFacts.

(** *** The combinators *)

Section Keeps.
Context {St : Type}.
Variable P : St -> Prop.

(** A rule keeps [P] when the state it leaves has [P] whenever the state
    it starts from has, whether it matches or not. *)
Definition keeps (r : rule St) : Prop := forall st s, P st -> P (fst (r st s)).

(** A rule without an action leaves the state as it is. *)
Definition pure (r : rule St) : Prop := forall st s, fst (r st s) = st.

Lemma pure_keeps (r : rule St) : pure r -> keeps r.
Proof. intros Hr st s Hst. rewrite Hr. exact Hst. Qed.

Lemma pure_one (c : Z) : pure (one c).
Proof. intros st [|x t]; [reflexivity|]. cbn. destruct (x =? c); reflexivity. Qed.

Lemma pure_ranges (rs : list (Z * Z)) : pure (ranges rs).
Proof. intros st [|x t]; [reflexivity|]. cbn. destruct (existsb _ rs); reflexivity. Qed.

Lemma pure_lit (w : list Z) : pure (lit w).
Proof. intros st s. unfold lit. destruct (starts_with w s); reflexivity. Qed.

Lemma pure_eof : pure eof.
Proof. intros st [|x t]; reflexivity. Qed.

Lemma pure_eol : pure eol.
Proof.
  intros st [|c t]; [reflexivity|]. cbn. destruct (c =? 10); [reflexivity|].
  destruct (c =? 13); [|reflexivity]. destruct t as [|c' t']; [reflexivity|].
  destruct (c' =? 10); reflexivity.
Qed.

Lemma pure_eolf : pure eolf.
Proof. intros st [|c t]; [reflexivity|]. apply pure_eol. Qed.

Lemma pure_not_at (r : rule St) : pure (not_at r).
Proof. intros st s. unfold not_at. destruct (r st s) as [st' [s'|] ]; reflexivity. Qed.

Lemma pure_until (c : rule St) : pure c -> pure (until c).
Proof.
  intros Hc st s. revert st. induction s as [|x t IH]; intros st; cbn [until];
    pose proof (Hc st) as Hst.
  - specialize (Hst []). destruct (c st []) as [st' [s'|] ]; exact Hst.
  - specialize (Hst (x :: t)). destruct (c st (x :: t)) as [st' [s'|] ]; cbn [fst] in *.
    + exact Hst.
    + subst st'. apply IH.
Qed.

Lemma keeps_seq (rs : list (rule St)) : Forall keeps rs -> keeps (seq rs).
Proof.
  induction 1 as [|r rs Hr _ IH]; intros st s Hst; [exact Hst|].
  cbn [seq]. pose proof (Hr st s Hst) as Hst'.
  destruct (r st s) as [st' [s'|] ]; cbn [fst] in *; [apply IH, Hst' | exact Hst'].
Qed.

Lemma keeps_sor (rs : list (rule St)) : Forall keeps rs -> keeps (sor rs).
Proof.
  induction 1 as [|r rs Hr _ IH]; intros st s Hst; [exact Hst|].
  cbn [sor]. pose proof (Hr st s Hst) as Hst'.
  destruct (r st s) as [st' [s'|] ]; cbn [fst] in *; [exact Hst' | apply IH, Hst'].
Qed.

Lemma keeps_opt (r : rule St) : keeps r -> keeps (opt r).
Proof.
  intros Hr st s Hst. unfold opt. pose proof (Hr st s Hst) as Hst'.
  destruct (r st s) as [st' [s'|] ]; exact Hst'.
Qed.

Lemma keeps_star_n (r : rule St) (n : nat) (st : St) (s : list Z) :
  keeps r -> P st ->
  match star_n n r st s with Some res => P (fst res) | None => True end.
Proof.
  intros Hr. revert st s. induction n as [|n IH]; intros st s Hst; cbn [star_n];
    pose proof (Hr st s Hst) as Hst'; destruct (r st s) as [st' [s'|] ]; cbn [fst] in *;
    try exact I; try exact Hst'.
  apply IH, Hst'.
Qed.

Lemma keeps_star (r : rule St) : keeps r -> keeps (star r).
Proof.
  intros Hr st s Hst. unfold star.
  pose proof (keeps_star_n r (length s) st s Hr Hst) as Hn.
  destruct (star_n (length s) r st s); [exact Hn | exact Hst].
Qed.

Lemma keeps_action (r : rule St) (f : list Z -> Z -> St -> St) :
  keeps r -> (forall m next st, P st -> P (f m next st)) -> keeps (action r f).
Proof.
  intros Hr Hf st s Hst. unfold action. pose proof (Hr st s Hst) as Hst'.
  destruct (r st s) as [st' [s'|] ]; cbn [fst] in *; [apply Hf, Hst' | exact Hst'].
Qed.

End Keeps.

(** *** The grammar *)

Section Grammar.
Variable P : p8_reader -> Prop.
Hypothesis P_section_name : forall m next st, P st -> P (action_section_name m next st).
Hypothesis P_data : forall m next st, P st -> P (action_data m next st).

Lemma keeps_section_line : keeps P r_section_line.
Proof.
  apply keeps_seq. constructor; [|constructor; [apply pure_keeps, pure_eolf | constructor] ].
  apply keeps_action; [|exact P_section_name].
  apply keeps_sor. repeat constructor; try (apply pure_keeps, pure_lit).
  apply keeps_seq. repeat constructor; try (apply pure_keeps, pure_lit).
  apply keeps_seq. repeat constructor; try (apply pure_keeps, pure_ranges).
  apply keeps_star, pure_keeps, pure_ranges.
Qed.

Lemma keeps_data : keeps P r_data.
Proof.
  apply keeps_action; [|exact P_data]. apply keeps_star, keeps_seq.
  repeat constructor; try (apply pure_keeps, pure_not_at).
  apply pure_keeps, pure_until, pure_eolf.
Qed.

Lemma keeps_section : keeps P r_section.
Proof. apply keeps_seq. repeat constructor; [apply keeps_section_line | apply keeps_data]. Qed.

(** What follows the header. *)
Lemma keeps_body : keeps P (seq [r_data; star r_section; eof]).
Proof.
  apply keeps_seq. repeat constructor.
  - apply keeps_data.
  - apply keeps_star, keeps_section.
  - apply pure_keeps, pure_eof.
Qed.

Hypothesis P_version : forall m next st, P st -> P (action_version m next st).

Lemma keeps_header : keeps P r_header.
Proof.
  apply keeps_seq. repeat constructor; try (apply pure_keeps, pure_lit);
    try (apply pure_keeps, pure_until, pure_eol).
  apply keeps_action; [|exact P_version]. apply keeps_star, pure_keeps, pure_ranges.
Qed.

Lemma keeps_file : keeps P r_file.
Proof.
  apply keeps_seq. repeat constructor.
  - apply keeps_opt, pure_keeps, pure_lit.
  - apply keeps_header.
  - apply keeps_data.
  - apply keeps_star, keeps_section.
  - apply pure_keeps, pure_eof.
Qed.

End Grammar.

(** *** The bytes of the sections *)

Lemma decode_data_range (is_swapped is_base32 : bool) (next : Z) (s : list Z) :
  byte_rom (decode_data is_swapped is_base32 next s).
Proof.
  remember (length s) as n eqn:Hn. revert s Hn.
  induction n as [n IH] using lt_wf_ind. intros s Hn.
  destruct s as [|c0 t]; [constructor|]. cbn [decode_data].
  assert (Ht : byte_rom (decode_data is_swapped is_base32 next t))
    by (apply (IH (length t)); [subst n; cbn [length]; lia | reflexivity]).
  destruct is_base32.
  - destruct (0 <=? _); [|exact Ht]. constructor; [apply Z.mod_pos_bound; lia | exact Ht].
  - destruct (_ || _); [|exact Ht].
    destruct t as [|c1 t'].
    + constructor; [apply Z.mod_pos_bound; lia | constructor].
    + constructor; [apply Z.mod_pos_bound; lia|].
      apply (IH (length t')); [subst n; cbn [length]; lia | reflexivity].
Qed.

(** The values that the base-32 digits of a label give. *)
Lemma decode_base32_range (is_swapped : bool) (next : Z) (s : list Z) :
  Forall (fun b => 0 <= b < 32) (decode_data is_swapped true next s).
Proof.
  induction s as [|c0 t IH]; [constructor|]. cbn [decode_data].
  change (ch "0") with 48. change (ch "9") with 57. change (ch "a") with 97.
  change (ch "v") with 118. change (ch "A") with 65. change (ch "V") with 86.
  destruct (Z.leb_spec 48 c0), (Z.leb_spec c0 57); cbn [andb];
    try (rewrite (proj2 (Z.leb_le 0 (c0 - 48))) by lia;
         constructor; [unfold uint8; rewrite Z.mod_small by lia; lia | exact IH]);
    (destruct (Z.leb_spec 97 c0), (Z.leb_spec c0 118); cbn [andb];
     try (rewrite (proj2 (Z.leb_le 0 (c0 - 97 + 10))) by lia;
          constructor; [unfold uint8; rewrite Z.mod_small by lia; lia | exact IH]);
     (destruct (Z.leb_spec 65 c0), (Z.leb_spec c0 86); cbn [andb];
      try (rewrite (proj2 (Z.leb_le 0 (c0 - 65 + 10))) by lia;
           constructor; [unfold uint8; rewrite Z.mod_small by lia; lia | exact IH]);
      exact IH)).
Qed.

(** Every section of the reader is a list of bytes. *)
Definition byte_sections (st : p8_reader) : Prop :=
  forall k, byte_rom (section_get k (m_sections st)).

(** The section of the label holds values below 32. *)
Definition small_label (st : p8_reader) : Prop :=
  Forall (fun b => 0 <= b < 32) (section_get section_lab (m_sections st)).

Lemma byte_sections_new (garbage : Z) : byte_sections (new_reader garbage).
Proof. intros k. constructor. Qed.

Lemma small_label_new (garbage : Z) : small_label (new_reader garbage).
Proof. constructor. Qed.

Lemma byte_sections_data (m : list Z) (next : Z) (st : p8_reader) :
  byte_sections st -> byte_sections (action_data m next st).
Proof.
  intros Hst k. unfold action_data. destruct (_ =? section_lua); [apply Hst|].
  cbn [m_sections]. rewrite section_get_insert. destruct (_ =? k); [|apply Hst].
  apply Forall_app. split; [apply Hst | apply decode_data_range].
Qed.

Lemma small_label_data (m : list Z) (next : Z) (st : p8_reader) :
  small_label st -> small_label (action_data m next st).
Proof.
  intros Hst. unfold small_label, action_data. destruct (_ =? section_lua); [apply Hst|].
  cbn [m_sections]. rewrite section_get_insert.
  destruct (Z.eqb_spec (m_current_section st) section_lab) as [-> | Hne]; [|apply Hst].
  apply Forall_app. split; [apply Hst|].
  change (section_lab =? section_lab) with true. apply decode_base32_range.
Qed.

Lemma parse_byte_sections (garbage : Z) (s : list Z) :
  byte_sections (parse (new_reader garbage) s).
Proof.
  apply (keeps_file byte_sections); try (intros; assumption);
    [apply byte_sections_data | apply byte_sections_new].
Qed.

Lemma parse_small_label (garbage : Z) (s : list Z) :
  small_label (parse (new_reader garbage) s).
Proof.
  apply (keeps_file small_label); try (intros; assumption);
    [apply small_label_data | apply small_label_new].
Qed.

(** *** The header decides *)

(** What follows the first line feed of a text. *)
Fixpoint after_eol (s : list Z) : option (list Z) :=
  match s with
  | [] => None
  | c :: t => if c =? 10 then Some t else after_eol t
  end.

Definition strip_bom (s : list Z) : list Z :=
  if starts_with [0xef; 0xbb; 0xbf] s then drop 3 s else s.

(** The texts that [load_p8] takes: after an optional byte order mark,
    a first line that starts with the name of the format and a second line
    that starts with the word for the version. *)
Definition header_ok (s : list Z) : bool :=
  let t := strip_bom s in
  starts_with (str "pico-8 cartridge") t
  && match after_eol (drop 16 t) with
     | Some t2 => starts_with (str "version ") t2
     | None => false
     end.

Lemma until_eol_eq {St : Type} (st : St) (s : list Z) : until eol st s = (st, after_eol s).
Proof.
  induction s as [|c t IH]; [reflexivity|].
  cbn [until eol after_eol]. destruct (c =? 10); [reflexivity|].
  destruct (c =? 13); [|exact IH].
  destruct t as [|c' t']; [reflexivity|].
  destruct (c' =? 10) eqn:Hc'; [|exact IH].
  cbn [after_eol]. rewrite Hc'. reflexivity.
Qed.

(** The digits at the head of a text: what [r_version] matches. *)
Fixpoint leading_digits (s : list Z) : list Z :=
  match s with
  | c :: t => if isdigit c then c :: leading_digits t else []
  | [] => []
  end.

(** The digits of the version of a text that has the header. *)
Definition version_digits (s : list Z) : list Z :=
  match after_eol (drop 16 (strip_bom s)) with
  | Some t2 => leading_digits (drop 8 t2)
  | None => []
  end.

Lemma leading_digits_eq (s : list Z) :
  take (length s - length (skip_class digit_ranges s)) s = leading_digits s
  /\ Forall (fun c => c <> 0) (leading_digits s).
Proof.
  induction s as [|c t [IH1 IH2] ]; [split; [reflexivity | constructor]|].
  cbn [skip_class leading_digits]. unfold digit_ranges at 1. cbn [existsb fst snd].
  rewrite orb_false_r. fold (isdigit c). destruct (isdigit c) eqn:Hc.
  - pose proof (length_skip_class digit_ranges t) as Hlen.
    replace (length (c :: t) - length (skip_class digit_ranges t))%nat
      with (S (length t - length (skip_class digit_ranges t))) by (cbn [length]; lia).
    cbn [take]. rewrite IH1. split; [reflexivity|].
    constructor; [|exact IH2]. unfold isdigit in Hc. change (ch "0") with 48 in Hc.
    apply andb_true_iff in Hc. destruct Hc as [Hc _]. apply Z.leb_le in Hc. lia.
  - rewrite Nat.sub_diag. split; [reflexivity | constructor].
Qed.

Lemma leading_digits_digits (s : list Z) :
  Forall (fun c => is_digit c = true) (leading_digits s).
Proof.
  induction s as [|c t IH]; [constructor|].
  cbn [leading_digits]. destruct (isdigit c) eqn:Hc; [|constructor].
  constructor; [|exact IH]. unfold is_digit, digit_ranges. cbn [existsb fst snd].
  rewrite orb_false_r. exact Hc.
Qed.

Lemma digits_value_bound (m : list Z) :
  Forall (fun c => is_digit c = true) m -> digits_value m < 10 ^ Z.of_nat (length m).
Proof.
  induction m as [|c m IH] using rev_ind; intros Hm; [reflexivity|].
  apply Forall_app in Hm. destruct Hm as [Hm Hc]. apply Forall_inv in Hc.
  apply is_digit_range in Hc. specialize (IH Hm).
  unfold digits_value in *. rewrite fold_left_app. cbn [fold_left].
  rewrite length_app. cbn [length]. rewrite Nat2Z.inj_add, Z.pow_add_r by lia.
  change (10 ^ Z.of_nat 1) with 10. lia.
Qed.

(** A version of nine digits or less is not negative. *)
Lemma atoi_short (m : list Z) :
  Forall (fun c => is_digit c = true) m -> (length m <= 9)%nat -> 0 <= atoi m.
Proof.
  intros Hm Hlen. pose proof (digits_value_bound m Hm) as Hb.
  pose proof (digits_value_nonneg m Hm) as Hv.
  assert (Hp : 10 ^ Z.of_nat (length m) <= 10 ^ 9)
    by (apply Z.pow_le_mono_r; lia).
  rewrite <- (c_str_id m)
    by (eapply Forall_impl; [exact Hm|]; intros c Hc; apply is_digit_range in Hc; lia).
  rewrite atoi_small by (exact Hm || lia). exact Hv.
Qed.

Lemma r_version_any (st : p8_reader) (s : list Z) :
  exists s', r_version st s = (set_version (atoi (leading_digits s)) st, Some s').
Proof.
  unfold r_version, action, digit. fold digit_ranges. rewrite star_ranges.
  destruct (leading_digits_eq s) as [-> Hz].
  eexists. unfold action_version. rewrite c_str_id by exact Hz. reflexivity.
Qed.

Definition version_is (v : Z) (st : p8_reader) : Prop := m_version st = v.

Lemma version_is_section_name (v : Z) (m : list Z) (next : Z) (st : p8_reader) :
  version_is v st -> version_is v (action_section_name m next st).
Proof. intros Hst. exact Hst. Qed.

Lemma version_is_data (v : Z) (m : list Z) (next : Z) (st : p8_reader) :
  version_is v st -> version_is v (action_data m next st).
Proof. intros Hst. unfold version_is, action_data. destruct (_ =? section_lua); exact Hst. Qed.

(** The version of the reader after the parse: the one of the header,
    as [atoi] reads it into an [int], and -1 when the header is not there;
    what follows the header cannot change it. *)
Lemma parse_version (garbage : Z) (s : list Z) :
  m_version (parse (new_reader garbage) s)
  = if header_ok s then atoi (version_digits s) else -1.
Proof.
  unfold parse, r_file, header_ok, version_digits. cbn [seq].
  set (st0 := new_reader garbage).
  assert (Hbom : opt bom st0 s = (st0, Some (strip_bom s))).
  { unfold opt, bom, lit, strip_bom. destruct (starts_with _ s); reflexivity. }
  rewrite Hbom. cbv zeta. generalize (strip_bom s). clear Hbom. intros t.
  unfold r_header. cbn [seq]. unfold lit at 1.
  change (length (str "pico-8 cartridge")) with 16%nat.
  destruct (starts_with (str "pico-8 cartridge") t); [|reflexivity]. cbn [andb].
  rewrite until_eol_eq. destruct (after_eol (drop 16 t)) as [t2|]; [|reflexivity].
  unfold lit. destruct (starts_with (str "version ") t2); [|reflexivity].
  change (length (str "version ")) with 8%nat.
  destruct (r_version_any st0 (drop 8 t2)) as (s' & ->).
  rewrite until_eol_eq.
  assert (Hst : version_is (atoi (leading_digits (drop 8 t2)))
                  (set_version (atoi (leading_digits (drop 8 t2))) st0)) by reflexivity.
  destruct (after_eol s') as [s5|]; [|exact Hst].
  apply (keeps_body (version_is _) (version_is_section_name _) (version_is_data _) _ _ Hst).
Qed.

End InvariantFacts.

(** ** What [load_p8] makes of any text *)

Module TextLoadFacts.
Import Text Memory Peg P8Reader Cart ByteFacts LoopFacts PackerFacts ReaderFacts HexFacts
  BitFacts SfxFacts ParseFacts TextFacts RomFacts InvariantFacts.

(** The second chunk of the map, combined into the memory. *)
Definition or_map2 (map : list Z) (rom : list Z) (i : Z) : list Z :=
  poke rom (map2_ref i) (Z.lor (peek rom (map2_ref i)) (vec_at map (map_size + i))).

Lemma length_rom_of_sections (sections : gmap Z (list Z)) :
  len (rom_of_sections sections) = size.
Proof.
  unfold rom_of_sections, len.
  rewrite !fold_length by (intros; apply length_load_sfx || apply length_load_song).
  apply length_copy_sections.
Qed.

Lemma byte_copy_sections (sections : gmap Z (list Z)) :
  (forall k, byte_rom (section_get k sections)) -> byte_rom (copy_sections sections).
Proof.
  intros Hs. unfold copy_sections. cbv zeta.
  assert (Hc : byte_rom
            (memcpy (memcpy (memcpy zero_rom gfx_off (section_get section_gfx sections)
                               (Z.min gfx_size (len (section_get section_gfx sections))))
                       gfx_props_off (section_get section_gff sections)
                       (Z.min gfx_props_size (len (section_get section_gff sections))))
               map_off (section_get section_map sections)
               (Z.min map_size (len (section_get section_map sections)))))
    by (repeat apply byte_rom_memcpy; try apply Hs; apply byte_rom_zero).
  destruct (_ <? _); [|exact Hc].
  apply byte_rom_fold; [|exact Hc]. intros rom i Hrom. apply poke_range, Hrom.
Qed.

Lemma wf_rom_of_sections (sections : gmap Z (list Z)) :
  (forall k, byte_rom (section_get k sections)) -> wf (rom_of_sections sections).
Proof.
  intros Hs. split; [apply length_rom_of_sections|].
  unfold rom_of_sections.
  apply byte_rom_fold; [intros; apply byte_rom_load_sfx; assumption|].
  apply byte_rom_fold; [intros; apply byte_rom_load_song; assumption|].
  apply byte_copy_sections, Hs.
Qed.

(** The loops of [load_p8] write to the sections they are for only. *)
Lemma peek_sfxs_outside (sfx rom : list Z) (cnt n : Z) :
  ~ (sfx_off <= n < sfx_off + sizeof_sfx_t * cnt) ->
  peek (fold_left (load_sfx sfx) (seqZ 0 cnt) rom) n = peek rom n.
Proof.
  intros Hn. apply fold_frame with (base := sfx_off) (s := sizeof_sfx_t).
  - layout; lia.
  - intros r i k Hi Hk. unfold load_sfx. rewrite !peek_poke_ne by (layout; lia).
    apply fold_frame with (base := sfx_off + sizeof_sfx_t * i) (s := sizeof_note_t).
    + layout; lia.
    + intros r' j k' Hj Hk'. unfold load_note.
      rewrite peek_store_note_ne by (layout; lia). reflexivity.
    + layout; lia.
  - exact Hn.
Qed.

Lemma peek_songs_outside (mus rom : list Z) (cnt n : Z) :
  ~ (song_off <= n < song_off + sizeof_song_t * cnt) ->
  peek (fold_left (load_song mus) (seqZ 0 cnt) rom) n = peek rom n.
Proof.
  intros Hn. apply fold_frame with (base := song_off) (s := sizeof_song_t).
  - layout; lia.
  - intros r i k Hi Hk. unfold load_song. rewrite !peek_poke_ne by (layout; lia).
    reflexivity.
  - exact Hn.
Qed.

Lemma peek_or_map2_outside (map rom : list Z) (cnt n : Z) :
  ~ (map2_off <= n < map2_off + cnt) ->
  peek (fold_left (or_map2 map) (seqZ 0 cnt) rom) n = peek rom n.
Proof.
  intros Hn. apply fold_frame with (base := map2_off) (s := 1).
  - lia.
  - intros r i k Hi Hk. unfold or_map2. rewrite peek_poke_ne by (unfold map2_ref; lia).
    reflexivity.
  - lia.
Qed.

Lemma peek_copy_sections_after (sections : gmap Z (list Z)) (a : Z) :
  song_off <= a -> peek (copy_sections sections) a = 0.
Proof.
  intros Ha. unfold copy_sections. cbv zeta.
  set (gfx := section_get section_gfx sections).
  set (gff := section_get section_gff sections).
  set (map := section_get section_map sections).
  assert (E1 : gfx_off = 0) by reflexivity.
  assert (E2 : gfx_props_off = 12288) by reflexivity.
  assert (E3 : map_off = 8192) by reflexivity.
  assert (E4 : song_off = 12544) by reflexivity.
  assert (E5 : size = 32768) by reflexivity.
  assert (E6 : gfx_size = 8192) by reflexivity.
  assert (E7 : gfx_props_size = 256) by reflexivity.
  assert (E8 : map_size = 4096) by reflexivity.
  assert (E9 : map2_off = 4096) by reflexivity.
  assert (E10 : map2_size = 4096) by reflexivity.
  assert (L1 : 0 <= len gfx) by (unfold len; lia).
  assert (L2 : 0 <= len gff) by (unfold len; lia).
  assert (L3 : 0 <= len map) by (unfold len; lia).
  pose proof length_zero_rom as L0.
  set (r1 := memcpy zero_rom gfx_off gfx (Z.min gfx_size (len gfx))).
  assert (Lr1 : len r1 = size)
    by (unfold r1, len at 1; rewrite length_memcpy; [exact L0 | lia | lia]).
  set (r2 := memcpy r1 gfx_props_off gff (Z.min gfx_props_size (len gff))).
  assert (Lr2 : len r2 = size)
    by (unfold r2, len at 1; rewrite length_memcpy; [exact Lr1 | lia | lia]).
  assert (H3 : peek (memcpy r2 map_off map (Z.min map_size (len map))) a = 0).
  { rewrite peek_memcpy by lia.
    destruct (Z.leb_spec map_off a), (Z.ltb_spec a (map_off + Z.min map_size (len map)));
      cbn [andb]; try lia.
    unfold r2. rewrite peek_memcpy by lia.
    destruct (Z.leb_spec gfx_props_off a),
      (Z.ltb_spec a (gfx_props_off + Z.min gfx_props_size (len gff))); cbn [andb]; try lia.
    unfold r1. rewrite peek_memcpy by lia.
    destruct (Z.leb_spec gfx_off a), (Z.ltb_spec a (gfx_off + Z.min gfx_size (len gfx)));
      cbn [andb]; try lia.
    apply peek_zero_rom. }
  destruct (_ <? _); [|exact H3].
  change (fun rom i => poke rom (map2_ref i)
            (Z.lor (peek rom (map2_ref i)) (vec_at map (map_size + i))))
    with (or_map2 map).
  rewrite peek_or_map2_outside by lia. exact H3.
Qed.

Lemma peek_rom_of_sections_code (sections : gmap Z (list Z)) (a : Z) :
  code_off <= a -> peek (rom_of_sections sections) a = 0.
Proof.
  intros Ha. unfold rom_of_sections.
  assert (E1 : code_off = 17152) by reflexivity.
  assert (E2 : sfx_off = 12800) by reflexivity.
  assert (E3 : song_off = 12544) by reflexivity.
  assert (E4 : sizeof_sfx_t = 68) by reflexivity.
  assert (E5 : sizeof_song_t = 4) by reflexivity.
  assert (E6 : sfx_size / (4 + 32 * 2) = 64) by reflexivity.
  assert (E7 : song_size / 4 = 64) by reflexivity.
  rewrite peek_sfxs_outside by lia.
  rewrite peek_songs_outside by lia.
  apply peek_copy_sections_after. lia.
Qed.

(** The loop over the second chunk of the map. *)
Lemma peek_or_map2 (map rom : list Z) (cnt n : Z) :
  0 <= cnt -> map2_off + cnt <= len rom ->
  peek (fold_left (or_map2 map) (seqZ 0 cnt) rom) n
  = if (map2_off <=? n) && (n <? map2_off + cnt)
    then uint8 (Z.lor (peek rom n) (vec_at map (map_size + (n - map2_off))))
    else peek rom n.
Proof.
  intros Hcnt. revert n. pattern cnt. apply natlike_ind; [| |exact Hcnt]; clear cnt Hcnt.
  - intros n _. cbn [seqZ fold_left].
    destruct (Z.leb_spec map2_off n), (Z.ltb_spec n (map2_off + 0)); cbn [andb];
      try reflexivity; lia.
  - intros k Hk IH n Hlen. change (Z.succ k) with (k + 1) in *.
    rewrite seqZ_snoc, fold_left_app by exact Hk. cbn [fold_left].
    unfold or_map2 at 1. unfold map2_ref.
    assert (E : map2_off = 4096) by reflexivity.
    rewrite peek_poke
      by (rewrite fold_length by (intros; apply length_poke); unfold len in Hlen; lia).
    rewrite !IH by lia.
    destruct (Z.eqb_spec n (map2_off + k)) as [-> | Hne].
    + destruct (Z.leb_spec map2_off (map2_off + k)); [|lia].
      destruct (Z.ltb_spec (map2_off + k) (map2_off + k)); [lia|].
      destruct (Z.ltb_spec (map2_off + k) (map2_off + (k + 1))); [|lia]. cbn [andb].
      unfold uint8. do 3 f_equal. lia.
    + destruct (Z.leb_spec map2_off n); cbn [andb]; [|reflexivity].
      destruct (Z.ltb_spec n (map2_off + k)), (Z.ltb_spec n (map2_off + (k + 1)));
        try reflexivity; lia.
Qed.

Lemma peek_rom_map2 (sections : gmap Z (list Z)) (i : Z) :
  let gfx := section_get section_gfx sections in
  let map := section_get section_map sections in
  0 <= i < Z.min map2_size (len map - map_size) ->
  peek (rom_of_sections sections) (map2_off + i)
  = uint8 (Z.lor (vec_at gfx (map2_off + i)) (vec_at map (map_size + i))).
Proof.
  intros gfx map Hi. unfold rom_of_sections.
  assert (E1 : gfx_off = 0) by reflexivity.
  assert (E2 : gfx_props_off = 12288) by reflexivity.
  assert (E3 : map_off = 8192) by reflexivity.
  assert (E4 : song_off = 12544) by reflexivity.
  assert (E5 : size = 32768) by reflexivity.
  assert (E6 : gfx_size = 8192) by reflexivity.
  assert (E7 : gfx_props_size = 256) by reflexivity.
  assert (E8 : map_size = 4096) by reflexivity.
  assert (E9 : map2_off = 4096) by reflexivity.
  assert (E10 : map2_size = 4096) by reflexivity.
  assert (E11 : sfx_off = 12800) by reflexivity.
  assert (E12 : sizeof_sfx_t = 68) by reflexivity.
  assert (E13 : sizeof_song_t = 4) by reflexivity.
  rewrite peek_sfxs_outside by lia. rewrite peek_songs_outside by lia.
  unfold copy_sections. cbv zeta. fold gfx map.
  set (gff := section_get section_gff sections).
  assert (L1 : 0 <= len gfx) by (unfold len; lia).
  assert (L2 : 0 <= len gff) by (unfold len; lia).
  pose proof length_zero_rom as L0.
  set (r1 := memcpy zero_rom gfx_off gfx (Z.min gfx_size (len gfx))).
  assert (Lr1 : len r1 = size)
    by (unfold r1, len at 1; rewrite length_memcpy; [exact L0 | lia | lia]).
  set (r2 := memcpy r1 gfx_props_off gff (Z.min gfx_props_size (len gff))).
  assert (Lr2 : len r2 = size)
    by (unfold r2, len at 1; rewrite length_memcpy; [exact Lr1 | lia | lia]).
  set (r3 := memcpy r2 map_off map (Z.min map_size (len map))).
  assert (Lr3 : len r3 = size)
    by (unfold r3, len at 1; rewrite length_memcpy; [exact Lr2 | lia | lia]).
  destruct (Z.ltb_spec map_size (len map)) as [Hbig | Hsmall]; [|lia].
  change (fun rom i => poke rom (map2_ref i)
            (Z.lor (peek rom (map2_ref i)) (vec_at map (map_size + i))))
    with (or_map2 map).
  rewrite peek_or_map2 by lia.
  destruct (Z.leb_spec map2_off (map2_off + i)); [|lia].
  destruct (Z.ltb_spec (map2_off + i) (map2_off + Z.min map2_size (len map - map_size)));
    [|lia].
  cbn [andb]. replace (map2_off + i - map2_off) with i by lia. do 2 f_equal.
  unfold r3. rewrite peek_memcpy by lia.
  destruct (Z.leb_spec map_off (map2_off + i)); [lia|]. cbn [andb].
  unfold r2. rewrite peek_memcpy by lia.
  destruct (Z.leb_spec gfx_props_off (map2_off + i)); [lia|]. cbn [andb].
  unfold r1. rewrite peek_memcpy by lia.
  destruct (Z.leb_spec gfx_off (map2_off + i)); [|lia]. cbn [andb]. unfold vec_at.
  destruct (Z.ltb_spec (map2_off + i) (gfx_off + Z.min gfx_size (len gfx))).
  - f_equal. lia.
  - rewrite peek_zero_rom. symmetry. apply peek_outside. unfold len in *. lia.
Qed.

Section WithExternals.
Context `{Externals}.

(** X1: [load_p8] on a file that can be read succeeds when, and only
    when, the text up to its first NUL has the header (after an optional
    byte order mark, a first line that starts with [pico-8 cartridge] and a
    second line that starts with [version ]) and the version is not
    negative once [atoi] has read its digits into an [int]: a version of
    2147483648 is read as a negative number and the load fails.  A version
    of nine digits or less is never negative, so that the header decides
    alone; the digits may be missing, the second line need not end, and
    nothing that follows the header can make the load fail: the result of
    the parse is not looked at, only the version it has set. *)
Theorem load_p8_header_decides (w : world) (filename : list Z) (c : cart) (s : list Z) :
  file_read w (get_data_path w filename) = Some s ->
  fst (load_p8 w filename c)
  = header_ok (c_str s) && (0 <=? atoi (version_digits (c_str s)))
  /\ ((length (version_digits (c_str s)) <= 9)%nat ->
      fst (load_p8 w filename c) = header_ok (c_str s)).
Proof.
  intros Hs.
  assert (Hload : fst (load_p8 w filename c)
                  = header_ok (c_str s) && (0 <=? atoi (version_digits (c_str s)))).
  { unfold load_p8. rewrite Hs. cbv zeta. rewrite parse_version.
    destruct (header_ok (c_str s)); [|reflexivity]. cbn [andb].
    destruct (Z.ltb_spec (atoi (version_digits (c_str s))) 0);
      destruct (Z.leb_spec 0 (atoi (version_digits (c_str s)))); try reflexivity; lia. }
  split; [exact Hload|]. intros Hlen. rewrite Hload.
  assert (Hv : 0 <= atoi (version_digits (c_str s))).
  { apply atoi_short; [|exact Hlen]. unfold version_digits.
    destruct (after_eol _); [apply leading_digits_digits | constructor]. }
  rewrite (proj2 (Z.leb_le _ _) Hv). apply andb_true_r.
Qed.

(** X2: whatever the text holds, the memory that a successful [load_p8]
    leaves has 0x8000 bytes, each of them a byte, and is zero from the code
    section on: the script goes to [m_code] and never into the memory.
    The cache of the compiled script is emptied. *)
Theorem load_p8_memory_shape (w : world) (filename : list Z) (c : cart) :
  fst (load_p8 w filename c) = true ->
  wf (m_rom (snd (load_p8 w filename c)))
  /\ (forall a, code_off <= a -> peek (m_rom (snd (load_p8 w filename c))) a = 0)
  /\ m_lua (snd (load_p8 w filename c)) = [].
Proof.
  unfold load_p8. destruct (file_read w (get_data_path w filename)) as [s|]; [|discriminate].
  cbv zeta. destruct (_ <? 0); [discriminate|]. intros _. cbn [snd m_rom m_lua].
  split; [|split; [|reflexivity] ].
  - apply wf_rom_of_sections. apply parse_byte_sections.
  - intros a Ha. apply peek_rom_of_sections_code, Ha.
Qed.

(** X3: the label that a successful [load_p8] leaves has colours below
    32 only, and no more of them than a label has pixels. *)
Theorem load_p8_label_shape (w : world) (filename : list Z) (c : cart) :
  fst (load_p8 w filename c) = true ->
  Forall (fun b => 0 <= b < 32) (m_label (snd (load_p8 w filename c)))
  /\ len (m_label (snd (load_p8 w filename c))) <= Z.max 0 (LABEL_WIDTH * LABEL_HEIGHT).
Proof.
  unfold load_p8. destruct (file_read w (get_data_path w filename)) as [s|]; [|discriminate].
  cbv zeta. destruct (_ <? 0); [discriminate|]. intros _. cbn [snd m_label].
  split.
  - apply Forall_take. apply parse_small_label.
  - unfold len. rewrite length_take. lia.
Qed.

End WithExternals.

(** X4: a map section of more than 0x1000 bytes, as old versions of
    PICO-8 wrote it, reaches into the second half of the gfx memory: each
    byte there is the bitwise OR of the byte of the gfx section and of the
    byte of the map section for it, so that neither section wipes the
    other. *)
Theorem map_overflow_is_ored (sections : gmap Z (list Z)) (i : Z) :
  0 <= i < Z.min map2_size (len (section_get section_map sections) - map_size) ->
  peek (rom_of_sections sections) (map2_off + i)
  = uint8 (Z.lor (vec_at (section_get section_gfx sections) (map2_off + i))
                 (vec_at (section_get section_map sections) (map_size + i))).
Proof. intros Hi. apply peek_rom_map2, Hi. Qed.

Import Sample.

(** A text with a version that does not fit an [int]. *)
Definition big_version_text : list Z :=
  str "pico-8 cartridge" ++ [10] ++ str "version 2147483648" ++ [10].

Lemma load_p8_header_decides_witness :
  fst (load_p8 (one_file (str "a.p8") big_version_text) (str "a.p8") empty_cart)
  = header_ok (c_str big_version_text) && (0 <=? atoi (version_digits (c_str big_version_text)))
  /\ header_ok (c_str big_version_text) = true
  /\ atoi (version_digits (c_str big_version_text)) = -2147483648.
Proof.
  split; [|split; reflexivity].
  refine (proj1 (load_p8_header_decides (one_file (str "a.p8") big_version_text)
                   (str "a.p8") empty_cart big_version_text _)).
  reflexivity.
Defined.

Definition old_cart_text : list Z :=
  str "pico-8 cartridge" ++ [10] ++ str "version 5" ++ [10]
  ++ str "__label__" ++ [10] ++ str "0vz" ++ [10]
  ++ str "__lua__" ++ [10] ++ str "x=1" ++ [10].

Lemma load_p8_memory_shape_witness :
  wf (m_rom (snd (load_p8 (one_file (str "a.p8") old_cart_text) (str "a.p8") empty_cart))).
Proof.
  apply (load_p8_memory_shape (one_file (str "a.p8") old_cart_text) (str "a.p8") empty_cart).
  vm_compute. reflexivity.
Defined.

Lemma load_p8_label_shape_witness :
  Forall (fun b => 0 <= b < 32)
    (m_label (snd (load_p8 (one_file (str "a.p8") old_cart_text) (str "a.p8") empty_cart))).
Proof.
  apply (load_p8_label_shape (one_file (str "a.p8") old_cart_text) (str "a.p8") empty_cart).
  vm_compute. reflexivity.
Defined.

Lemma map_overflow_is_ored_witness :
  let sections : gmap Z (list Z) :=
    {[ section_gfx := replicate (Z.to_nat 0x1001) 0x0f;
       section_map := replicate (Z.to_nat 0x1001) 0x30 ]} in
  peek (rom_of_sections sections) (map2_off + 0) = 0x3f.
Proof.
  cbv zeta.
  rewrite (map_overflow_is_ored
             {[ section_gfx := replicate (Z.to_nat 0x1001) 0x0f;
                section_map := replicate (Z.to_nat 0x1001) 0x30 ]} 0);
    vm_compute; [reflexivity | split; congruence].
Defined.

End TextLoadFacts.

(** ** The loaders *)

Module LoaderFacts.
Import Text Memory Peg P8Reader Cart ByteFacts LoopFacts PackerFacts ReaderFacts HexFacts
  ParseFacts RomFacts InvariantFacts TextLoadFacts CartFacts.

(** *** The extension of the file name *)

Lemma ends_with_suffix (s w : list Z) :
  ends_with s w = true -> exists p, s = p ++ w.
Proof.
  unfold ends_with. intros Hs. apply andb_true_iff in Hs. destruct Hs as [Hlen Hw].
  apply Nat.leb_le in Hlen. apply starts_with_split in Hw.
  exists (take (length s - length w) s).
  assert (Hnil : drop (length w) (drop (length s - length w) s) = [])
    by (apply nil_length_inv; rewrite !length_drop; lia).
  rewrite Hnil, app_nil_r in Hw.
  transitivity (take (length s - length w) s ++ drop (length s - length w) s);
    [symmetry; apply take_drop | f_equal; exact Hw].
Qed.

Lemma ends_with_last (s w : list Z) (x : Z) :
  ends_with s w = true -> last w = Some x -> last s = Some x.
Proof.
  intros Hs Hw. destruct (ends_with_suffix s w Hs) as [p ->].
  rewrite last_app, Hw. reflexivity.
Qed.

(** No name has two of the four extensions. *)
Lemma one_extension (s : list Z) :
  let p8 := ends_with s (str ".p8") in
  let lua := ends_with s (str ".lua") in
  let png := ends_with s (str ".png") in
  let js := ends_with s (str ".js") in
  (p8 = true -> lua = false /\ png = false /\ js = false)
  /\ (lua = true -> png = false /\ js = false)
  /\ (png = true -> js = false).
Proof.
  cbv zeta.
  assert (Hx : forall w1 w2 x y, last w1 = Some x -> last w2 = Some y -> x <> y ->
                 ends_with s w1 = true -> ends_with s w2 = false).
  { intros w1 w2 x y H1 H2 Hxy Hs1. destruct (ends_with s w2) eqn:Hs2; [|reflexivity].
    pose proof (ends_with_last s w1 x Hs1 H1) as L1.
    pose proof (ends_with_last s w2 y Hs2 H2) as L2. congruence. }
  repeat split; eapply Hx; try eassumption; try reflexivity; discriminate.
Qed.

(** *** The array of [load_js] *)

Definition not_number (rest : list js_element) : Prop :=
  match rest with JsUint32 _ :: _ => False | _ => True end.

Lemma js_fill_from (xs : list Z) (rest : list js_element) (i : nat) (bytes : list Z) :
  not_number rest -> (i <= length bytes)%nat ->
  js_fill (map JsUint32 xs ++ rest) i bytes
  = take i bytes ++ take (length bytes - i) (map uint8 xs) ++ drop (i + length xs) bytes.
Proof.
  intros Hrest. revert i bytes. induction xs as [|x xs IH]; intros i bytes Hi.
  - cbn [map app length]. rewrite take_nil, Nat.add_0_r. cbn [app].
    rewrite take_drop. destruct rest as [|[ | |] rest']; try reflexivity. contradiction.
  - cbn [map app js_fill length]. destruct (Nat.ltb_spec i (length bytes)) as [Hlt | Hge].
    + rewrite IH by (rewrite length_insert; lia). rewrite length_insert.
      rewrite drop_insert_lt by lia.
      rewrite (insert_take_drop bytes i _ Hlt).
      rewrite take_app_ge by (rewrite length_take; lia).
      rewrite length_take, Nat.min_l by lia.
      replace (S i - i)%nat with 1%nat by lia. cbn [take].
      rewrite take_0. replace (length bytes - i)%nat with (S (length bytes - S i)) by lia.
      cbn [take]. rewrite <- app_assoc. cbn [app].
      replace (i + S (length xs))%nat with (S i + length xs)%nat by lia. reflexivity.
    + replace (length bytes - i)%nat with 0%nat by lia. rewrite take_0. cbn [app].
      rewrite take_ge, drop_ge by lia. rewrite app_nil_r. reflexivity.
Qed.

Lemma length_js_fill (elements : list js_element) (i : nat) (bytes : list Z) :
  length (js_fill elements i bytes) = length bytes.
Proof.
  revert i bytes. induction elements as [|e t IH]; intros i bytes; [reflexivity|].
  destruct e; cbn [js_fill]; try reflexivity.
  destruct (i <? length bytes)%nat; [|reflexivity]. rewrite IH. apply length_insert.
Qed.

Lemma byte_js_fill (elements : list js_element) (i : nat) (bytes : list Z) :
  byte_rom bytes -> byte_rom (js_fill elements i bytes).
Proof.
  revert i bytes. induction elements as [|e t IH]; intros i bytes Hb; [exact Hb|].
  destruct e; cbn [js_fill]; try exact Hb.
  destruct (i <? length bytes)%nat; [|exact Hb]. apply IH.
  apply Forall_insert; [exact Hb|]. apply Z.mod_pos_bound. lia.
Qed.

(** X5: the loop of [load_js] over the array.  The numbers at the head
    of the array, up to the first element that is undefined or no number,
    are stored one a byte, each cut to its low 8 bits; an array longer
    than the buffer is cut at its end, and behind a shorter one the buffer
    stays as it was. *)
Theorem js_fill_array (xs : list Z) (rest : list js_element) (bytes : list Z) :
  not_number rest ->
  js_fill (map JsUint32 xs ++ rest) 0 bytes
  = take (length bytes) (map uint8 xs) ++ drop (length xs) bytes.
Proof.
  intros Hrest. rewrite js_fill_from by (exact Hrest || lia).
  rewrite take_0, Nat.sub_0_r. reflexivity.
Qed.

Lemma js_fill_array_witness :
  js_fill (map JsUint32 [0x101; 2] ++ [JsUndefined; JsUint32 3]) 0 [9; 9; 9; 9] = [1; 2; 9; 9].
Proof. apply (js_fill_array [0x101; 2] [JsUndefined; JsUint32 3] [9; 9; 9; 9]). exact I. Defined.

Section WithExternals.
Context `{Externals}.

(** *** The memory after a load *)

Lemma wf_zero_rom : wf zero_rom.
Proof. split; [apply length_zero_rom | apply byte_rom_zero]. Qed.

Lemma wf_set_bin (bytes : list Z) (c : cart) :
  size <= len bytes -> byte_rom bytes -> wf (m_rom (set_bin bytes c)).
Proof.
  intros Hlen Hb. unfold set_bin. cbn [m_rom]. split.
  - rewrite length_take. unfold len in Hlen. assert (size = 32768) by reflexivity. lia.
  - apply Forall_take, Hb.
Qed.

Lemma wf_load_p8 (w : world) (filename : list Z) (c : cart) :
  fst (load_p8 w filename c) = true -> wf (m_rom (snd (load_p8 w filename c))).
Proof.
  unfold load_p8. destruct (file_read w (get_data_path w filename)) as [s|]; [|discriminate].
  cbv zeta. destruct (_ <? 0); [discriminate|]. intros _. cbn [snd m_rom].
  apply wf_rom_of_sections, parse_byte_sections.
Qed.

Lemma wf_load_lua (w : world) (filename : list Z) (c : cart) :
  fst (load_lua w filename c) = true -> wf (m_rom (snd (load_lua w filename c))).
Proof.
  unfold load_lua. destruct (file_read w (get_data_path w filename)); [|discriminate].
  intros _. apply wf_zero_rom.
Qed.

Lemma wf_load_png (w : world) (filename : list Z) (c : cart) :
  fst (load_png w filename c) = true -> wf (m_rom (snd (load_png w filename c))).
Proof.
  unfold load_png. destruct (lodepng_decode w filename) as [ [ [error width] height] image].
  destruct (negb (error =? 0)); [discriminate|].
  destruct (negb (uint32 (width * height) =? 160 * 205)); [discriminate|].
  intros _. cbv zeta. cbn [snd]. apply wf_set_bin.
  - unfold len. rewrite length_map, length_seqZ. assert (size = 32768) by reflexivity. lia.
  - apply Forall_map, Forall_forall. intros n _. apply Z.mod_pos_bound. lia.
Qed.

Lemma wf_load_js (w : world) (filename : list Z) (c : cart) :
  fst (load_js w filename c) = true -> wf (m_rom (snd (load_js w filename c))).
Proof.
  unfold load_js. destruct (file_read w (get_data_path w filename)) as [code|]; [|discriminate].
  cbv zeta. destruct (string_find code (str "[") _) as [start|]; [|discriminate].
  destruct (string_find code (str "]") _) as [end_|]; [|discriminate].
  destruct (JS_ParseJSON w _) as [ |elements| ]; try discriminate.
  intros _. cbn [snd]. apply wf_set_bin.
  - unfold len. rewrite length_js_fill, length_replicate.
    assert (size = 32768) by reflexivity. lia.
  - apply byte_js_fill, Forall_replicate. lia.
Qed.

(** *** The order of the loaders *)

(** The loaders that [load] tries, each with the test of its extension. *)
Definition steps (w : world) (filename : list Z) : list (bool * (cart -> bool * cart)) :=
  [(ends_with (tolower filename) (str ".p8"), load_p8 w filename);
   (ends_with (tolower filename) (str ".lua"), load_lua w filename);
   (ends_with (tolower filename) (str ".png"), load_png w filename);
   (ends_with (tolower filename) (str ".js"), load_js w filename)].

(** The chain of [if (... && ...) return true;] statements. *)
Fixpoint chain (l : list (bool * (cart -> bool * cart))) (c : cart) : bool * cart :=
  match l with
  | [] => (false, c)
  | (cond, ld) :: rest =>
      let '(ok, c') := if cond then ld c else (false, c) in
      if ok then (true, c') else chain rest c'
  end.

(** The first loader whose extension matches and that succeeds. *)
Fixpoint first_ok (l : list (bool * (cart -> bool * cart))) (c : cart) : bool * cart :=
  match l with
  | [] => (false, c)
  | (cond, ld) :: rest => if cond && fst (ld c) then ld c else first_ok rest c
  end.

Definition safe (ld : cart -> bool * cart) : Prop :=
  forall c, fst (ld c) = false -> snd (ld c) = c.

Lemma load_chain (w : world) (filename : list Z) (c : cart) :
  load w filename c = chain (steps w filename) c.
Proof. reflexivity. Qed.

Lemma chain_first_ok (l : list (bool * (cart -> bool * cart))) (c : cart) :
  Forall (fun s => safe s.2) l -> chain l c = first_ok l c.
Proof.
  induction 1 as [| [cond ld] rest Hld _ IH]; [reflexivity|].
  cbn [chain first_ok snd] in *. destruct cond; cbn [andb]; [|exact IH].
  pose proof (Hld c) as Hc. destruct (ld c) as [ok c'] eqn:E. cbn [fst snd] in *.
  destruct ok; [reflexivity|]. rewrite (Hc eq_refl). exact IH.
Qed.

Lemma safe_steps (w : world) (filename : list Z) :
  Forall (fun s => safe s.2) (steps w filename).
Proof.
  repeat constructor; intros c; cbn [snd].
  - apply load_p8_failure.
  - apply load_lua_failure.
  - apply load_png_failure.
  - apply load_js_failure.
Qed.

Lemma load_first_ok (w : world) (filename : list Z) (c : cart) :
  load w filename c = first_ok (steps w filename) c.
Proof. rewrite load_chain. apply chain_first_ok, safe_steps. Qed.

Lemma safe_result (ld : cart -> bool * cart) (c : cart) :
  safe ld -> fst (ld c) = false -> ld c = (false, c).
Proof.
  intros Hld Hf. pose proof (Hld c Hf) as Hc. destruct (ld c) as [ok c'].
  cbn [fst snd] in *. subst. reflexivity.
Qed.

Lemma wf_load (w : world) (filename : list Z) (c : cart) :
  fst (load w filename c) = true -> wf (m_rom (snd (load w filename c))).
Proof.
  rewrite load_first_ok. unfold steps. cbn [first_ok].
  destruct (_ && fst (load_p8 w filename c)) eqn:E1;
    [intros _; apply andb_true_iff in E1; apply wf_load_p8, E1|].
  destruct (_ && fst (load_lua w filename c)) eqn:E2;
    [intros _; apply andb_true_iff in E2; apply wf_load_lua, E2|].
  destruct (_ && fst (load_png w filename c)) eqn:E3;
    [intros _; apply andb_true_iff in E3; apply wf_load_png, E3|].
  destruct (_ && fst (load_js w filename c)) eqn:E4;
    [intros _; apply andb_true_iff in E4; apply wf_load_js, E4|].
  discriminate.
Qed.

(** X6: whatever the file holds, the memory that a load operation leaves
    when it succeeds has 0x8000 bytes, each of them a byte; this holds for
    [load] and for each of the four loaders. *)
Theorem successful_load_memory (loader : world -> list Z -> cart -> bool * cart)
    (w : world) (filename : list Z) (c : cart) :
  In loader loaders ->
  fst (loader w filename c) = true ->
  wf (m_rom (snd (loader w filename c))).
Proof.
  unfold loaders. cbn [In].
  intros [<- | [<- | [<- | [<- | [<- | [] ] ] ] ] ] Hok.
  - apply wf_load, Hok.
  - apply wf_load_p8, Hok.
  - apply wf_load_lua, Hok.
  - apply wf_load_png, Hok.
  - apply wf_load_js, Hok.
Qed.

(** X7: [load] runs the loader of the extension of the file name, which
    it compares without regard to the case of the letters, and gives what
    that loader gives; no name has two of the extensions, so that a loader
    that fails is the last one tried.  A name with none of the four
    extensions fails, the cartridge as it was, whatever the files hold. *)
Theorem load_by_extension (w : world) (filename : list Z) (c : cart) :
  load w filename c
  = if ends_with (tolower filename) (str ".p8") then load_p8 w filename c
    else if ends_with (tolower filename) (str ".lua") then load_lua w filename c
    else if ends_with (tolower filename) (str ".png") then load_png w filename c
    else if ends_with (tolower filename) (str ".js") then load_js w filename c
    else (false, c).
Proof.
  rewrite load_first_ok. unfold steps. cbn [first_ok].
  destruct (one_extension (tolower filename)) as (H1 & H2 & H3). cbv zeta in H1, H2, H3.
  pose proof (safe_steps w filename) as Hs. unfold steps in Hs.
  inversion Hs as [|? ? S1 Hs1]; subst. inversion Hs1 as [|? ? S2 Hs2]; subst.
  inversion Hs2 as [|? ? S3 Hs3]; subst. inversion Hs3 as [|? ? S4 _]; subst.
  cbn [snd] in S1, S2, S3, S4.
  destruct (ends_with (tolower filename) (str ".p8")).
  - destruct (H1 eq_refl) as (-> & -> & ->). cbn [andb].
    destruct (fst (load_p8 w filename c)) eqn:E; [reflexivity|].
    symmetry. apply safe_result; assumption.
  - cbn [andb]. destruct (ends_with (tolower filename) (str ".lua")).
    + destruct (H2 eq_refl) as (-> & ->). cbn [andb].
      destruct (fst (load_lua w filename c)) eqn:E; [reflexivity|].
      symmetry. apply safe_result; assumption.
    + cbn [andb]. destruct (ends_with (tolower filename) (str ".png")).
      * rewrite (H3 eq_refl). cbn [andb].
        destruct (fst (load_png w filename c)) eqn:E; [reflexivity|].
        symmetry. apply safe_result; assumption.
      * cbn [andb]. destruct (ends_with (tolower filename) (str ".js")); [|reflexivity].
        cbn [andb]. destruct (fst (load_js w filename c)) eqn:E; [reflexivity|].
        symmetry. apply safe_result; assumption.
Qed.

End WithExternals.

Import Sample.

Lemma successful_load_memory_witness :
  wf (m_rom (snd (load (one_file (str "A.LUA") (str "x=1")) (str "A.LUA") empty_cart))).
Proof.
  apply (successful_load_memory load).
  - cbn [loaders In]. auto.
  - vm_compute. reflexivity.
Defined.

End LoaderFacts.

(** ** The image of a cartridge *)

Module ImageFacts.
Import Text Memory Cart ByteFacts LoopFacts PackerFacts PngFacts CartFacts RoundTripFacts.

(** A pixel of an image: four bytes. *)
Definition byte_pixel (p : Vec.u8vec4) : Prop :=
  0 <= Vec.r p < 256 /\ 0 <= Vec.g p < 256 /\ 0 <= Vec.b p < 256 /\ 0 <= Vec.a p < 256.

(** The six high bits of each channel: what the eye sees of a pixel. *)
Definition high6 (p : Vec.u8vec4) : Z * Z * Z * Z :=
  (Vec.r p / 4, Vec.g p / 4, Vec.b p / 4, Vec.a p / 4).

Lemma channel_keeps (c x K f : Z) :
  0 <= c < 256 -> 0 <= f < 4 -> uint8 x / uint8 K = f ->
  uint8 (uint8 (uint8 (c / uint8 4) * uint8 4) + uint8 (uint8 x / uint8 K)) / 4 = c / 4.
Proof.
  intros Hc Hf Hx. rewrite Hx. unfold uint8. change (4 mod 256) with 4.
  pose proof (Z.div_mod c 4 ltac:(lia)). pose proof (Z.mod_pos_bound c 4 ltac:(lia)).
  assert (0 <= c / 4 < 64) by (split; [apply Z.div_pos; lia | apply Z.div_lt_upper_bound; lia]).
  rewrite (Z.mod_small (c / 4)) by lia.
  rewrite (Z.mod_small (c / 4 * 4)) by lia.
  rewrite (Z.mod_small f) by lia.
  rewrite (Z.mod_small (c / 4 * 4 + f)) by lia.
  rewrite Z.add_comm, Z.div_add by lia. rewrite Z.div_small by lia. reflexivity.
Qed.

Lemma embed_pixel_high6 (px : Vec.u8vec4) (byte : Z) :
  byte_pixel px -> 0 <= byte < 256 -> high6 (embed_pixel px byte) = high6 px.
Proof.
  intros (Hr & Hg & Hb & Ha) Hbyte.
  destruct (byte_fields byte Hbyte)
    as (Fr & Fg & Fb & Fa & Hr1 & Hg1 & Hb1 & Ha1 & Hr0 & Hg0 & Hb0 & Ha0).
  unfold high6, embed_pixel, Vec.mul_s, Vec.div_s, Vec.add, Vec.div, Vec.map2,
    Vec.splat, Vec.make.
  cbn [Vec.r Vec.g Vec.b Vec.a].
  rewrite (channel_keeps (Vec.a px) (Z.land byte 192) 64 (byte / 64)),
    (channel_keeps (Vec.r px) (Z.land byte 48) 16 ((byte / 16) mod 4)),
    (channel_keeps (Vec.g px) (Z.land byte 12) 4 ((byte / 4) mod 4)),
    (channel_keeps (Vec.b px) (Z.land byte 3) 1 (byte mod 4)); try assumption.
  - reflexivity.
  - apply Z.mod_pos_bound. lia.
  - unfold uint8. rewrite (Z.mod_small (Z.land byte 3)) by lia. exact Fb.
  - apply Z.mod_pos_bound. lia.
  - unfold uint8. rewrite (Z.mod_small (Z.land byte 12)) by lia. exact Fg.
  - apply Z.mod_pos_bound. lia.
  - unfold uint8. rewrite (Z.mod_small (Z.land byte 48)) by lia. exact Fr.
  - Z.div_mod_to_equations. lia.
  - unfold uint8. rewrite (Z.mod_small (Z.land byte 192)) by lia. exact Fa.
Qed.

Lemma byte_pixel_at (pixels : list Vec.u8vec4) (n : Z) :
  Forall byte_pixel pixels -> byte_pixel (pixel_at pixels n).
Proof.
  intros Hp. unfold pixel_at. destruct (n <? 0); [repeat split; cbn; lia|].
  destruct (pixels !! Z.to_nat n) as [p|] eqn:E; [|repeat split; cbn; lia].
  exact (proj1 (Forall_lookup _ _) Hp _ _ E).
Qed.

(** X8: the loop of [save_png] that writes the ROM to the image changes
    the two low bits of the channels of the first pixels, one pixel for a
    byte of the ROM, and nothing else: the six high bits of every channel
    of every pixel stay, and the pixels behind the ROM stay as they
    are. *)
Theorem write_rom_keeps_picture (rom : list Z) (pixels : list Vec.u8vec4) (n : Z) :
  byte_rom rom -> len rom <= Z.of_nat (length pixels) -> Forall byte_pixel pixels ->
  length (write_rom rom pixels) = length pixels
  /\ high6 (pixel_at (write_rom rom pixels) n) = high6 (pixel_at pixels n)
  /\ (len rom <= n -> pixel_at (write_rom rom pixels) n = pixel_at pixels n).
Proof.
  intros Hrom Hlen Hpx.
  destruct (write_rom_rounds rom pixels (len rom) ltac:(unfold len in *; lia)) as [Hl Hp].
  unfold write_rom. split; [exact Hl|]. rewrite Hp.
  destruct (Z.leb_spec 0 n), (Z.ltb_spec n (len rom)); cbn [andb];
    try (split; [reflexivity | intros _; reflexivity]).
  split; [|lia].
  apply embed_pixel_high6; [apply byte_pixel_at, Hpx | apply peek_range, Hrom].
Qed.

Lemma write_rom_keeps_picture_witness :
  high6 (pixel_at (write_rom [0xa7] [Vec.mk 0x12 0x34 0x56 0xff]) 0)
  = high6 (Vec.mk 0x12 0x34 0x56 0xff).
Proof.
  apply (write_rom_keeps_picture [0xa7] [Vec.mk 0x12 0x34 0x56 0xff] 0).
  - repeat constructor; lia.
  - vm_compute. discriminate.
  - repeat constructor; cbn; lia.
Defined.

(** *** From [save_png] to [load_png] *)

Lemma byte_rom_check (l : list Z) :
  forallb (fun b => (0 <=? b) && (b <? 256)) l = true -> byte_rom l.
Proof.
  intros Hl. apply Forall_forall. intros b Hb. rewrite forallb_forall in Hl.
  apply list_elem_of_In, Hl, andb_true_iff in Hb. destruct Hb as [H0 H1].
  apply Z.leb_le in H0. apply Z.ltb_lt in H1. lia.
Qed.

Lemma of_bytes_to_bytes (pixels : list Vec.u8vec4) : Vec.of_bytes (Vec.to_bytes pixels) = pixels.
Proof.
  induction pixels as [|p l IH]; [reflexivity|].
  cbn [Vec.to_bytes flat_map app Vec.of_bytes]. fold (Vec.to_bytes l). rewrite IH.
  destruct p; reflexivity.
Qed.

Lemma length_fold_pixels {A : Type} (f : list Vec.u8vec4 -> A -> list Vec.u8vec4)
    (l : list A) (pixels : list Vec.u8vec4) :
  (forall px i, length (f px i) = length px) ->
  length (fold_left f l pixels) = length pixels.
Proof.
  intros Hf. revert pixels. induction l as [|i l IH]; intros pixels; [reflexivity|].
  cbn [fold_left]. rewrite IH. apply Hf.
Qed.

Section WithExternals.
Context `{Externals}.

Lemma length_apply_label (label : list Z) (width : Z) (pixels : list Vec.u8vec4) :
  length (apply_label label width pixels) = length pixels.
Proof.
  unfold apply_label. destruct (_ <=? _); [|reflexivity].
  apply length_fold_pixels. intros px y. apply length_fold_pixels.
  intros px' x. apply length_set_pixel.
Qed.

Lemma length_get_bin (c : cart) : code_off <= len (m_rom c) -> len (get_bin c) = size + 1.
Proof.
  intros Hlen. rewrite get_bin_eq by exact Hlen. unfold len, resize.
  rewrite !length_app, length_take, length_replicate, length_app. cbn [length].
  assert (size = 32768) by reflexivity. lia.
Qed.

Lemma byte_get_bin (c : cart) :
  code_off <= len (m_rom c) -> byte_rom (m_rom c) -> byte_rom (code_compress (m_code c)) ->
  byte_rom (get_bin c).
Proof.
  intros Hlen Hrom Hcode. rewrite get_bin_eq by exact Hlen. unfold resize.
  repeat apply Forall_app_2.
  - apply Forall_take, Forall_app_2; [apply Forall_take, Hrom | exact Hcode].
  - apply Forall_replicate. lia.
  - constructor; [apply Z.mod_pos_bound; lia | constructor].
Qed.

Lemma take_get_bin_data (c : cart) :
  len (m_rom c) = size ->
  take (Z.to_nat code_off) (get_bin c) = take (Z.to_nat code_off) (m_rom c).
Proof.
  intros Hlen. assert (E1 : size = 32768) by reflexivity.
  assert (E2 : code_off = 17152) by reflexivity.
  rewrite get_bin_eq by (unfold len in *; lia). unfold resize, len in *.
  rewrite take_app_le
    by (rewrite length_app, length_take, length_replicate, length_app, length_take; lia).
  rewrite take_app_le by (rewrite length_take, length_app, length_take; lia).
  rewrite take_take, take_app_le by (rewrite length_take; lia).
  rewrite take_take. f_equal; lia.
Qed.

(** The bytes that the first loop of [load_png] takes from the image that
    [save_png] made. *)
Lemma png_image_bytes (c : cart) (width : Z) (blank : list Z) :
  wf (m_rom c) ->
  byte_rom (code_compress (m_code c)) ->
  size + 1 <= Z.of_nat (length (Vec.of_bytes blank)) ->
  take (Z.to_nat size)
    (map (fun n => pixel_byte (pixel_at (Vec.of_bytes (png_image c width blank)) n))
         (seqZ 0 (size + 5)))
  = take (Z.to_nat size) (get_bin c).
Proof.
  intros [Hsize Hrom] Hcode Hblank.
  assert (E1 : size = 32768) by reflexivity.
  assert (E2 : code_off = 17152) by reflexivity.
  pose proof (length_get_bin c ltac:(unfold len; lia)) as Lbin.
  pose proof (byte_get_bin c ltac:(unfold len; lia) Hrom Hcode) as Bbin.
  unfold png_image. rewrite of_bytes_to_bytes.
  set (carrier := apply_label (m_label c) width (Vec.of_bytes blank)).
  assert (Lc : length carrier = length (Vec.of_bytes blank)) by apply length_apply_label.
  destruct (write_rom_rounds (get_bin c) carrier (len (get_bin c))
              ltac:(rewrite Lc, Lbin; lia)) as [_ Hp].
  clearbody carrier.
  generalize dependent (get_bin c). intros bin Lbin Bbin Hp.
  generalize dependent size. intros sz _ Hblank E1 Lbin. subst sz.
  apply list_eq. intros i.
  destruct (decide (i < Z.to_nat 32768)%nat) as [Hi|Hi].
  2:{ rewrite !lookup_take_ge by lia. reflexivity. }
  rewrite !lookup_take_lt by lia. rewrite list_lookup_fmap.
  rewrite lookup_seqZ_lt by lia. cbn [fmap option_fmap option_map].
  unfold write_rom. rewrite Hp.
  destruct (Z.leb_spec 0 (0 + Z.of_nat i)); [|lia].
  destruct (Z.ltb_spec (0 + Z.of_nat i) (len bin)); [|lia]. cbn [andb].
  destruct (lookup_lt_is_Some_2 bin i ltac:(unfold len in Lbin; lia)) as [x Hx].
  rewrite Hx. f_equal.
  assert (Hv : vec_at bin (0 + Z.of_nat i) = x).
  { unfold vec_at, peek. destruct (Z.ltb_spec (0 + Z.of_nat i) 0); [lia|].
    replace (Z.to_nat (0 + Z.of_nat i)) with i by lia. rewrite Hx. reflexivity. }
  rewrite Hv. apply pixel_round_trip.
  exact (proj1 (Forall_lookup _ _) Bbin _ _ Hx).
Qed.

Lemma load_png_decoded (w : world) (filename : list Z) (c0 : cart)
    (width height : Z) (image : list Z) :
  lodepng_decode w filename = (0, width, height, image) ->
  uint32 (width * height) = 160 * 205 ->
  exists label,
    load_png w filename c0
    = (true, set_bin (map (fun n => pixel_byte (pixel_at (Vec.of_bytes image) n))
                          (seqZ 0 (size + 5)))
                     {| m_rom := m_rom c0; m_code := m_code c0;
                        m_label := label; m_lua := m_lua c0 |}).
Proof.
  intros Hdec Hdim. unfold load_png. rewrite Hdec.
  destruct (Z.eqb_spec 0 0) as [_ | Hne]; [|contradiction]. cbn [negb].
  destruct (Z.eqb_spec (uint32 (width * height)) (160 * 205)) as [_ | Hne];
    [|contradiction]. cbn [negb].
  eexists. reflexivity.
Qed.

(** X9: the image that [save_png] hands to the encoder, decoded and given
    to [load_png], brings the container of the cartridge back: the memory
    that [load_png] leaves is the first 0x8000 bytes of what [get_bin]
    gives, so that the memory up to the code section is the one of the
    cartridge that was saved, and the script is what the decompressor
    makes of the code section of the container.  The blank image has to
    have a pixel for each byte of the container. *)
Theorem save_png_load_png_container (w : world) (filename : list Z) (c c0 : cart)
    (width height width' : Z) (blank : list Z) :
  wf (m_rom c) ->
  byte_rom (code_compress (m_code c)) ->
  size + 1 <= Z.of_nat (length (Vec.of_bytes blank)) ->
  lodepng_decode w filename = (0, width', height, png_image c width blank) ->
  uint32 (width' * height) = 160 * 205 ->
  fst (load_png w filename c0) = true
  /\ m_rom (snd (load_png w filename c0)) = take (Z.to_nat size) (get_bin c)
  /\ take (Z.to_nat code_off) (m_rom (snd (load_png w filename c0)))
     = take (Z.to_nat code_off) (m_rom c)
  /\ m_code (snd (load_png w filename c0))
     = code_decompress (drop (Z.to_nat code_off) (take (Z.to_nat size) (get_bin c))).
Proof.
  intros Hrom Hcode Hblank Hdec Hdim.
  pose proof (png_image_bytes c width blank Hrom Hcode Hblank) as Hmem.
  destruct (load_png_decoded w filename c0 width' height _ Hdec Hdim) as [label ->].
  unfold set_bin. cbn [fst snd m_rom m_code]. rewrite Hmem.
  split; [reflexivity|]. split; [reflexivity|]. split; [|reflexivity].
  rewrite take_take.
  assert (E1 : size = 32768) by reflexivity.
  assert (E2 : code_off = 17152) by reflexivity.
  replace (Z.to_nat code_off `min` Z.to_nat size)%nat with (Z.to_nat code_off) by lia.
  apply take_get_bin_data. apply Hrom.
Qed.

(** *** What comes back of the memory *)

Lemma peek_replicate_zero (k : nat) (n : Z) : peek (replicate k 0) n = 0.
Proof.
  unfold peek. destruct (n <? 0); [reflexivity|].
  destruct (replicate k 0 !! Z.to_nat n) as [x|] eqn:E; [|reflexivity].
  apply lookup_replicate in E. destruct E as [-> _]. reflexivity.
Qed.

(** [v.resize(n)] fills with zeros: below [n], the vector reads as before,
    an element that was not there reading as 0. *)
Lemma peek_resize (v : list Z) (n a : Z) : 0 <= a < n -> peek (resize v n) a = peek v a.
Proof.
  intros Ha. unfold resize. rewrite peek_app by lia. unfold len.
  destruct (Z.ltb_spec a (Z.of_nat (length (take (Z.to_nat n) v)))) as [Hlt | Hge].
  - apply peek_take. lia.
  - rewrite peek_replicate_zero. symmetry. apply peek_outside.
    rewrite length_take in Hge. lia.
Qed.

(** The container, up to the code section: the memory. *)
Lemma peek_get_bin_data (c : cart) (a : Z) :
  len (m_rom c) = size -> 0 <= a < code_off ->
  peek (take (Z.to_nat size) (get_bin c)) a = peek (m_rom c) a.
Proof.
  intros Hlen Ha. assert (E1 : size = 32768) by reflexivity.
  assert (E2 : code_off = 17152) by reflexivity.
  rewrite peek_take by lia.
  rewrite <- (peek_take (get_bin c) (Z.to_nat code_off)) by lia.
  rewrite take_get_bin_data by exact Hlen. apply peek_take. lia.
Qed.

(** The container, from the code section on: the compressed script, and
    zeros behind it. *)
Lemma peek_get_bin_code (c : cart) (a : Z) :
  len (m_rom c) = size -> code_off <= a < size ->
  peek (take (Z.to_nat size) (get_bin c)) a
  = if a - code_off <? len (code_compress (m_code c))
    then peek (code_compress (m_code c)) (a - code_off) else 0.
Proof.
  intros Hlen Ha. assert (E1 : size = 32768) by reflexivity.
  assert (E2 : code_off = 17152) by reflexivity.
  rewrite peek_take by lia. rewrite get_bin_eq by lia.
  assert (Lr : forall v, len (resize v size) = size).
  { intros v. unfold len, resize. rewrite length_app, length_take, length_replicate. lia. }
  rewrite peek_app by lia. rewrite Lr.
  destruct (Z.ltb_spec a size); [|lia].
  rewrite peek_resize by lia. rewrite peek_app by lia.
  assert (Lt : len (take (Z.to_nat code_off) (m_rom c)) = code_off)
    by (unfold len in *; rewrite length_take; lia).
  rewrite Lt. destruct (Z.ltb_spec a code_off); [lia|].
  destruct (Z.ltb_spec (a - code_off) (len (code_compress (m_code c)))); [reflexivity|].
  apply peek_outside. unfold len in *. lia.
Qed.

(** What [load_png] makes of the image that [save_png] made. *)
Lemma load_png_saved (w : world) (filename : list Z) (c c0 : cart)
    (width height width' : Z) (blank : list Z) :
  wf (m_rom c) ->
  byte_rom (code_compress (m_code c)) ->
  size + 1 <= Z.of_nat (length (Vec.of_bytes blank)) ->
  lodepng_decode w filename = (0, width', height, png_image c width blank) ->
  uint32 (width' * height) = 160 * 205 ->
  fst (load_png w filename c0) = true
  /\ m_rom (snd (load_png w filename c0)) = take (Z.to_nat size) (get_bin c).
Proof.
  intros Hrom Hcode Hblank Hdec Hdim.
  pose proof (png_image_bytes c width blank Hrom Hcode Hblank) as Hmem.
  destruct (load_png_decoded w filename c0 width' height _ Hdec Hdim) as [label ->].
  unfold set_bin. cbn [fst snd m_rom]. rewrite Hmem. split; reflexivity.
Qed.

(** [save_png] hands [png_image] to the encoder, and succeeds when the
    encoder does. *)
Lemma save_png_encodes (w : world) (name : list Z) (c : cart)
    (width height : Z) (blank : list Z) :
  lodepng_decode w (get_data_path w (str "data/blank.png")) = (0, width, height, blank) ->
  save_png w name c = (lodepng_encode w name (png_image c width blank) width height =? 0).
Proof.
  intros Hblank. unfold save_png. rewrite Hblank.
  destruct (Z.eqb_spec 0 0) as [_ | Hne]; [|contradiction]. cbn [negb].
  destruct (lodepng_encode w name (png_image c width blank) width height =? 0); reflexivity.
Qed.

(** C7: the image codec, for a byte and for the memory.  A byte written
    in the low 2 bits of the four channels of a pixel is the byte read from
    them, for every byte and every pixel of the carrier.  But what
    [save_png] writes to the carrier is the container that [get_bin] makes,
    not the memory: when [load_png] decodes the image that [save_png]
    handed to the encoder, the memory comes back up to the code section
    only, and from the code section on it holds the compressed script and
    zeros behind it, whatever the memory of the saved cartridge held
    there.  The blank image is the one that [save_png] opens; it has the
    size of a cartridge and a pixel for each byte of the container. *)
Theorem save_png_load_png_memory (w : world) (name filename : list Z) (c c0 : cart)
    (width height : Z) (blank : list Z) (px : Vec.u8vec4) (byte a : Z) :
  0 <= byte < 256 ->
  wf (m_rom c) ->
  byte_rom (code_compress (m_code c)) ->
  lodepng_decode w (get_data_path w (str "data/blank.png")) = (0, width, height, blank) ->
  uint32 (width * height) = 160 * 205 ->
  size + 1 <= Z.of_nat (length (Vec.of_bytes blank)) ->
  lodepng_decode w filename = (0, width, height, png_image c width blank) ->
  save_png w name c = (lodepng_encode w name (png_image c width blank) width height =? 0)
  /\ pixel_byte (embed_pixel px byte) = byte
  /\ fst (load_png w filename c0) = true
  /\ (0 <= a < code_off ->
      peek (m_rom (snd (load_png w filename c0))) a = peek (m_rom c) a)
  /\ (code_off <= a < size ->
      peek (m_rom (snd (load_png w filename c0))) a
      = if a - code_off <? len (code_compress (m_code c))
        then peek (code_compress (m_code c)) (a - code_off) else 0).
Proof.
  intros Hbyte Hrom Hcode Hblank Hdim Hpixels Hdec.
  split; [apply save_png_encodes, Hblank|].
  split; [apply pixel_round_trip, Hbyte|].
  destruct (load_png_saved w filename c c0 width height width blank
              Hrom Hcode Hpixels Hdec Hdim) as [Hok Hmem].
  split; [exact Hok|]. rewrite Hmem. destruct Hrom as [Hlen _].
  split; intros Ha.
  - apply peek_get_bin_data; [exact Hlen | exact Ha].
  - apply peek_get_bin_code; [exact Hlen | exact Ha].
Qed.

End WithExternals.

Import Sample.

(** A world with the blank image of a cartridge, in which the encoder
    succeeds and every other image decodes to [image]. *)
Definition png_world (blank image : list Z) : world :=
  {| get_data_path := fun f => f;
     file_read := fun _ => None;
     lodepng_decode := fun f =>
       if bool_decide (f = str "data/blank.png") then (0, 160, 205, blank)
       else (0, 160, 205, image);
     lodepng_encode := fun _ _ _ _ => 0;
     JS_ParseJSON := fun _ => JsException;
     stack_garbage := 0 |}.

Definition blank_image : list Z := replicate (Z.to_nat (4 * 160 * 205)) 0xff.

(** A cartridge with a byte in the memory behind the code section. *)
Definition upper_cart : cart :=
  {| m_rom := poke zero_rom 0x5e00 0x33; m_code := str "x=1"; m_label := []; m_lua := [] |}.

Lemma save_png_load_png_memory_witness :
  peek (m_rom (snd (load_png (png_world blank_image (png_image painted_cart 160 blank_image))
                             (str "a.png") empty_cart))) 65
  = peek (m_rom painted_cart) 65.
Proof.
  refine (proj1 (proj2 (proj2 (proj2
           (save_png_load_png_memory
              (png_world blank_image (png_image painted_cart 160 blank_image))
              (str "a.png") (str "a.png") painted_cart empty_cart 160 205 blank_image
              (Vec.mk 0x12 0x34 0x56 0xff) 0xa7 65 _ _ _ _ _ _ _)))) _).
  - lia.
  - apply wfb_wf. vm_compute. reflexivity.
  - apply byte_rom_check. reflexivity.
  - reflexivity.
  - reflexivity.
  - vm_compute. discriminate.
  - reflexivity.
  - vm_compute. split; [discriminate | reflexivity].
Defined.

(** The memory behind the code section does not come back: the byte 0x33
    at 0x5e00 of a cartridge that is saved as an image and loaded from it
    is 0. *)
Lemma image_drops_upper_memory :
  save_png (png_world blank_image (png_image upper_cart 160 blank_image))
           (str "a.png") upper_cart = true
  /\ fst (load_png (png_world blank_image (png_image upper_cart 160 blank_image))
                   (str "a.png") empty_cart) = true
  /\ peek (m_rom upper_cart) 0x5e00 = 0x33
  /\ peek (m_rom (snd (load_png (png_world blank_image (png_image upper_cart 160 blank_image))
                                (str "a.png") empty_cart))) 0x5e00 = 0.
Proof.
  assert (Hwf : wf (m_rom upper_cart)) by (apply wfb_wf; vm_compute; reflexivity).
  destruct (load_png_saved (png_world blank_image (png_image upper_cart 160 blank_image))
              (str "a.png") upper_cart empty_cart 160 205 160 blank_image Hwf
              ltac:(apply byte_rom_check; reflexivity)
              ltac:(vm_compute; discriminate) eq_refl eq_refl) as [Hok Hmem].
  split; [reflexivity|]. split; [exact Hok|]. split; [vm_compute; reflexivity|].
  rewrite Hmem. rewrite peek_get_bin_code; [reflexivity | apply Hwf | vm_compute].
  split; [discriminate | reflexivity].
Qed.

Lemma save_png_load_png_container_witness :
  let blank := replicate (Z.to_nat (4 * 160 * 205)) 0xff in
  let w := one_image 160 205 (png_image painted_cart 160 blank) in
  take (Z.to_nat code_off) (m_rom (snd (load_png w (str "a.png") empty_cart)))
  = take (Z.to_nat code_off) (m_rom painted_cart).
Proof.
  cbv zeta.
  refine (proj1 (proj2 (proj2
           (save_png_load_png_container
              (one_image 160 205
                 (png_image painted_cart 160 (replicate (Z.to_nat (4 * 160 * 205)) 0xff)))
              (str "a.png") painted_cart empty_cart 160 205 160
              (replicate (Z.to_nat (4 * 160 * 205)) 0xff) _ _ _ _ _)))).
  - apply wfb_wf. vm_compute. reflexivity.
  - apply byte_rom_check. reflexivity.
  - vm_compute. discriminate.
  - reflexivity.
  - reflexivity.
Defined.

End ImageFacts.

(** ** The script and the label, saved as text and loaded again *)

Module ScriptFacts.
Import Text Memory Peg P8Reader Cart ByteFacts LoopFacts PackerFacts ReaderFacts HexFacts
  BitFacts SfxFacts ParseFacts TextFacts RomFacts RoundTripFacts InvariantFacts.

(** *** The script that the reader gathers *)










Lemma ids_lines_block (P : Z -> Prop) (name : string) (id lines : Z) (f : Z -> list Z) :
  P id -> Forall (fun b : section_block => P b.1.2) (lines_block name id lines f).
Proof.
  intros Hid. unfold lines_block. destruct (0 <? lines); repeat constructor. exact Hid.
Qed.

(** *** The label that the reader gathers *)

Lemma decode_base32_app (A B : list Z) :
  decode_data false true 0 (A ++ B) = decode_data false true 0 A ++ decode_data false true 0 B.
Proof.
  induction A as [|c0 t IH]; [reflexivity|]. cbn [app decode_data].
  destruct (0 <=? _); rewrite IH; reflexivity.
Qed.

Lemma decode_base32_digit (col : Z) (tail : list Z) :
  tail = [] \/ tail = [10] ->
  decode_data false true 0
    (vec_at (str "0123456789abcdefghijklmnopqrstuv") (Z.land col 0x1f) :: tail)
  = [Z.land col 0x1f].
Proof.
  intros Htail. change 31 with (Z.ones 5). rewrite Z.land_ones by lia.
  pose proof (Z.mod_pos_bound col (2 ^ 5) ltac:(lia)) as Hc.
  assert (Hall : forallb (fun v =>
              bool_decide (decode_data false true 0
                             [vec_at (str "0123456789abcdefghijklmnopqrstuv") v] = [v])
              && bool_decide (decode_data false true 0
                                [vec_at (str "0123456789abcdefghijklmnopqrstuv") v; 10] = [v]))
            (seqZ 0 (2 ^ 5)) = true)
    by (vm_compute; reflexivity).
  pose proof (forallb_seqZ _ _ Hall _ Hc) as Hv. cbv beta in Hv.
  apply andb_true_iff in Hv. destruct Hv as [H1 H2].
  apply bool_decide_eq_true in H1, H2. destruct Htail as [-> | ->]; assumption.
Qed.

Section WithExternals.
Context `{Externals}.








(** *** The label *)

Lemma decode_label_body (label : list Z) (tail : list Z) :
  decode_data false true 0 tail = [] ->
  decode_data false true 0 (label_body label ++ tail)
  = map (fun i => Z.land (vec_at label i) 0x1f) (seqZ 0 (LABEL_WIDTH * LABEL_HEIGHT)).
Proof.
  intros Ht. rewrite decode_base32_app.
  rewrite Ht, app_nil_r. unfold label_body.
  induction (seqZ 0 (LABEL_WIDTH * LABEL_HEIGHT)) as [|i l IH]; [reflexivity|].
  cbn [flat_map map]. cbv zeta. rewrite decode_base32_app, IH. cbn [app].
  rewrite decode_base32_digit by (destruct (_ =? 0); auto). reflexivity.
Qed.

Definition saved_label (label : list Z) : list Z :=
  if LABEL_WIDTH * LABEL_HEIGHT <=? len label
  then map (fun i => Z.land (vec_at label i) 0x1f) (seqZ 0 (LABEL_WIDTH * LABEL_HEIGHT))
  else [].

Lemma collect_label (c : cart) :
  collect section_lab (add_tail (blocks c)) = saved_label (m_label c).
Proof.
  assert (Hother : forall secs,
             Forall (fun b : section_block => b.1.2 <> section_lab) secs ->
             collect section_lab secs = []).
  { induction 1 as [|b secs Hb _ IH]; [reflexivity|].
    unfold collect in *. cbn [flat_map]. rewrite IH.
    destruct (Z.eqb_spec b.1.2 section_lab); [contradiction | reflexivity]. }
  assert (Hlines : forall name id lines f, id <> section_lab ->
             Forall (fun b : section_block => b.1.2 <> section_lab)
                    (lines_block name id lines f))
    by (intros; apply (ids_lines_block (fun id => id <> section_lab)); assumption).
  rewrite collect_add_tail.
  2:{ unfold blocks, gfx_block, gff_block, map_block, sfx_block, music_block.
      repeat apply Forall_app_2;
        try (eapply Forall_impl; [apply Hlines; discriminate|]; cbv beta; intros; contradiction).
      - unfold lua_block. repeat constructor. cbn [fst snd]. discriminate.
      - unfold label_block. destruct (_ <=? _); repeat constructor. intros _.
        unfold decode_block. cbn [fst snd]. change (section_lab =? section_gfx) with false.
        change (section_lab =? section_lab) with true.
        rewrite <- app_assoc, !decode_label_body by reflexivity. reflexivity. }
  unfold blocks. rewrite !collect_app.
  rewrite (Hother (lua_block c)) by (unfold lua_block; repeat constructor; discriminate).
  unfold gfx_block, gff_block, map_block, sfx_block, music_block.
  rewrite (Hother (lines_block _ section_gfx _ _)), (Hother (lines_block _ section_gff _ _)),
    (Hother (lines_block _ section_map _ _)), (Hother (lines_block _ section_sfx _ _)),
    (Hother (lines_block _ section_mus _ _)) by (apply Hlines; discriminate).
  cbn [app]. rewrite ?app_nil_r. unfold label_block, saved_label.
  destruct (_ <=? _); [|reflexivity].
  unfold collect. cbn [flat_map fst snd]. rewrite app_nil_r. unfold decode_block.
  cbn [fst snd]. change (section_lab =? section_gfx) with false.
  change (section_lab =? section_lab) with true. apply decode_label_body. reflexivity.
Qed.

(** X11: the label of a cartridge that is saved with [save_p8] and
    loaded with [load_p8].  A label that has a colour for each of its
    pixels comes back with each colour cut to its low 5 bits, and what it
    had beyond its pixels is gone; a label that is shorter is not written
    and the loaded cartridge has an empty label. *)
Theorem save_p8_load_p8_label (w : world) (name filename : list Z) (c c0 : cart) :
  wf (m_rom c) ->
  script_ok (pico8_to_utf8 (get_code c)) = true ->
  file_read w (get_data_path w filename) = Some (snd (snd (save_p8 name c))) ->
  m_label (snd (load_p8 w filename c0))
  = if LABEL_WIDTH * LABEL_HEIGHT <=? len (m_label c)
    then map (fun i => Z.land (vec_at (m_label c) i) 0x1f) (seqZ 0 (LABEL_WIDTH * LABEL_HEIGHT))
    else [].
Proof.
  intros Hrom Hscript Hfile. unfold load_p8. rewrite Hfile. cbn [save_p8 snd].
  destruct (parse_p8_text c (stack_garbage w) Hrom Hscript) as [Hver _]. cbv zeta in Hver.
  destruct (Z.ltb_spec (m_version (parse (new_reader (stack_garbage w)) (c_str (p8_text c)))) 0)
    as [Hneg | _]; [lia|].
  cbn [snd m_label].
  rewrite c_str_p8_text, p8_text_eq by assumption.
  destruct (good_blocks_cart c Hrom Hscript) as [Hv _].
  destruct (parse_saved (stack_garbage w) PICO8_VERSION (add_tail (blocks c))
              (valid_add_tail _ Hv)) as [_ Hsec].
  rewrite (Hsec section_lab) by discriminate. rewrite collect_label.
  fold (saved_label (m_label c)). apply take_ge.
  unfold saved_label, len. destruct (_ <=? _); [|cbn [length]; lia].
  rewrite length_map, length_seqZ. lia.
Qed.

End WithExternals.

Import Sample.


(** A cartridge with a label of one colour, 0x25, which is beyond the 32
    colours of a label. *)
Definition labelled_cart : cart :=
  {| m_rom := zero_rom; m_code := str "x=1";
     m_label := replicate (Z.to_nat (128 * 128)) 0x25; m_lua := [] |}.

Lemma save_p8_load_p8_label_witness :
  let w := one_file (str "a.p8") (snd (snd (save_p8 (str "a.p8") labelled_cart))) in
  m_label (snd (load_p8 w (str "a.p8") empty_cart))
  = if LABEL_WIDTH * LABEL_HEIGHT <=? len (m_label labelled_cart)
    then map (fun i => Z.land (vec_at (m_label labelled_cart) i) 0x1f)
             (seqZ 0 (LABEL_WIDTH * LABEL_HEIGHT))
    else [].
Proof.
  apply (save_p8_load_p8_label
           (one_file (str "a.p8") (snd (snd (save_p8 (str "a.p8") labelled_cart))))
           (str "a.p8") (str "a.p8") labelled_cart empty_cart).
  - apply wfb_wf. vm_compute. reflexivity.
  - vm_compute. reflexivity.
  - cbn [one_file file_read get_data_path]. rewrite bool_decide_eq_true_2 by reflexivity.
    reflexivity.
Defined.

End ScriptFacts.

(** ** The pixel accessor of the memory *)

Module DisplayFacts.
Import Text Memory Display ByteFacts.

Lemma quot_half (x : Z) : 0 <= x < 128 -> 0 <= Z.quot x 2 < 128.
Proof.
  intros Hx. rewrite Z.quot_div_nonneg by lia.
  split; [apply Z.div_pos; lia | apply Z.div_lt_upper_bound; lia].
Qed.

(** The coordinates that the screen is read at are coordinates of the
    screen, in every screen mode. *)
Lemma screen_coords_inside (mode x y : Z) :
  0 <= x < 128 -> 0 <= y < 128 ->
  0 <= (screen_coords mode x y).1 < 128 /\ 0 <= (screen_coords mode x y).2 < 128.
Proof.
  intros Hx Hy. pose proof (quot_half x Hx). pose proof (quot_half y Hy).
  unfold screen_coords.
  destruct (Z.land mode 188 =? 132).
  - destruct (negb (Z.land mode 1 =? 0)), (negb (Z.land mode 2 =? 0)),
      (negb (Z.land (mode + 1) 2 =? 0)); cbn [fst snd]; lia.
  - destruct (Z.land mode 189 =? 5), (Z.land mode 189 =? 1), (Z.land mode 189 =? 129),
      (Z.land mode 190 =? 6), (Z.land mode 190 =? 2), (Z.land mode 190 =? 130);
      cbn [fst snd]; lia.
Qed.

Lemma gradient_index_inside (bit : bool) (y : Z) :
  0 <= y < 128 -> 0 <= gradient_index bit y < 16.
Proof.
  intros Hy. unfold gradient_index.
  assert (Hq : 0 <= Z.quot y 8 < 16).
  { rewrite Z.quot_div_nonneg by lia.
    split; [apply Z.div_pos; lia | apply Z.div_lt_upper_bound; lia]. }
  rewrite Z.rem_mod_nonneg by (destruct bit; lia).
  apply Z.mod_pos_bound. lia.
Qed.

(** X12: [pixel] reads the screen, and the bits of the raster mode, at
    coordinates of the screen only, for a pixel of the screen and whatever
    the screen mode and the raster mode are: two screen accessors that
    agree on the 128 by 128 pixels give the same pixel. *)
Theorem pixel_reads_inside (get get' : list Z -> Z -> Z -> Z) (bit bit' : list Z -> Z -> bool)
    (m : list Z) (x y : Z) :
  0 <= x < 128 -> 0 <= y < 128 ->
  (forall x' y', 0 <= x' < 128 -> 0 <= y' < 128 -> get m x' y' = get' m x' y') ->
  (forall y', 0 <= y' < 128 -> bit m y' = bit' m y') ->
  pixel get bit m x y = pixel get' bit' m x y.
Proof.
  intros Hx Hy Hget Hbit. unfold pixel.
  destruct (screen_coords_inside (peek m screen_mode_off) x y Hx Hy) as [Hx' Hy'].
  destruct (screen_coords (peek m screen_mode_off) x y) as [x' y']. cbn [fst snd] in *.
  cbv zeta. rewrite (Hget x' y' Hx' Hy'), (Hbit y' Hy'). reflexivity.
Qed.

(** X13: what [pixel] gives is an entry of the screen palette or of the
    raster palette, when the screen holds colours below 16: the index in
    the gradient mode is below 16 on every line. *)
Theorem pixel_is_palette_entry (get : list Z -> Z -> Z -> Z) (bit : list Z -> Z -> bool)
    (m : list Z) (x y : Z) :
  0 <= x < 128 -> 0 <= y < 128 ->
  (forall x' y', 0 <= get m x' y' < 16) ->
  exists i, 0 <= i < 16
    /\ (pixel get bit m x y = peek m (screen_palette_off + i)
        \/ pixel get bit m x y = peek m (raster_palette_off + i)).
Proof.
  intros Hx Hy Hget. unfold pixel.
  destruct (screen_coords_inside (peek m screen_mode_off) x y Hx Hy) as [Hx' Hy'].
  destruct (screen_coords (peek m screen_mode_off) x y) as [x' y']. cbn [fst snd] in *.
  cbv zeta. pose proof (Hget x' y') as Hc.
  pose proof (gradient_index_inside (bit m y') y' Hy') as Hg.
  destruct (peek m raster_mode_off =? 16).
  - destruct (bit m y'); eauto.
  - destruct (Z.land (peek m raster_mode_off) 48 =? 48); [|eauto].
    destruct (Z.land (peek m raster_mode_off) 15 =? get m x' y'); eauto.
Qed.

(** X14: the four rotation modes are the quarter turns of the screen.
    Mode 0x84 leaves the coordinates as they are, and each of the modes
    0x85, 0x86 and 0x87 is the mode before it followed by the turn of mode
    0x85; four turns come back to where they began. *)
Theorem rotation_modes_compose (x y : Z) :
  let turn (p : Z * Z) := screen_coords 0x85 p.1 p.2 in
  screen_coords 0x84 x y = (x, y)
  /\ screen_coords 0x85 x y = (y, 127 - x)
  /\ screen_coords 0x86 x y = turn (screen_coords 0x85 x y)
  /\ screen_coords 0x87 x y = turn (screen_coords 0x86 x y)
  /\ turn (screen_coords 0x87 x y) = (x, y).
Proof.
  cbv zeta. unfold screen_coords.
  repeat match goal with
         | |- context [Z.land ?a ?b =? ?c] =>
             let v := eval vm_compute in (Z.land a b =? c) in
             change (Z.land a b =? c) with v
         end.
  cbn [negb fst snd]. repeat split; f_equal; lia.
Qed.

Lemma pixel_reads_inside_witness :
  pixel (fun m x y => x + 128 * y) (fun _ _ => true) (poke Cart.zero_rom screen_mode_off 0x85) 3 5
  = pixel (fun m x y => if (0 <=? x) && (x <? 128) then x + 128 * y else 0)
          (fun _ _ => true) (poke Cart.zero_rom screen_mode_off 0x85) 3 5.
Proof.
  apply pixel_reads_inside; try lia.
  intros x' y' Hx' Hy'. destruct (Z.leb_spec 0 x'), (Z.ltb_spec x' 128); cbn [andb]; lia.
Defined.

Lemma pixel_is_palette_entry_witness :
  exists i, 0 <= i < 16
    /\ (pixel (fun _ _ _ => 7) (fun _ _ => true) Cart.zero_rom 3 5
        = peek Cart.zero_rom (screen_palette_off + i)
        \/ pixel (fun _ _ _ => 7) (fun _ _ => true) Cart.zero_rom 3 5
           = peek Cart.zero_rom (raster_palette_off + i)).
Proof. apply pixel_is_palette_entry; lia. Defined.

End DisplayFacts.

(** ** The ends of the lines of a script *)

Module CrlfFacts.
Import Text.

(** The lines [ls], each followed by [sep] but the last. *)
Fixpoint join (sep : list Z) (ls : list (list Z)) : list Z :=
  match ls with
  | [] => []
  | [l] => l
  | l :: rest => l ++ sep ++ join sep rest
  end.

Lemma remove_crlf_plain (s : list Z) : Forall (fun c => c <> 13) s -> remove_crlf s = s.
Proof.
  induction 1 as [|c t Hc Ht IH]; [reflexivity|].
  cbn [remove_crlf]. destruct t as [|c' t']; [reflexivity|].
  destruct (Z.eqb_spec c 13); [contradiction|]. cbn [andb]. rewrite IH. reflexivity.
Qed.

Lemma remove_crlf_cons (c : Z) (t : list Z) :
  c <> 13 -> remove_crlf (c :: t) = c :: remove_crlf t.
Proof.
  intros Hc. cbn [remove_crlf]. destruct t as [|c' t']; [reflexivity|].
  destruct (Z.eqb_spec c 13); [contradiction | reflexivity].
Qed.

Lemma remove_crlf_line (l rest : list Z) :
  Forall (fun c => c <> 13) l ->
  remove_crlf (l ++ 13 :: 10 :: rest) = l ++ 10 :: remove_crlf rest.
Proof.
  induction 1 as [|c t Hc Ht IH].
  - cbn [app remove_crlf]. rewrite !Z.eqb_refl. cbn [andb].
    destruct rest as [|c' t']; [reflexivity|].
    change (10 =? 13) with false. cbn [andb]. reflexivity.
  - cbn [app]. rewrite remove_crlf_cons by exact Hc. rewrite IH. reflexivity.
Qed.

(** X15: the replacement of each carriage return and line feed by a
    line feed, which [load_lua] and the reader of the [.p8] format apply
    to a script, turns the text whose lines end with a carriage return and
    a line feed into the text of the same lines that end with a line feed;
    the lines have no carriage return of their own. *)
Theorem remove_crlf_lines (ls : list (list Z)) :
  Forall (Forall (fun c => c <> 13)) ls ->
  remove_crlf (join [13; 10] ls) = join [10] ls.
Proof.
  induction 1 as [|l rest Hl Hrest IH]; [reflexivity|].
  destruct rest as [|l' rest'].
  - cbn [join]. apply remove_crlf_plain, Hl.
  - change (join [13; 10] (l :: l' :: rest')) with (l ++ 13 :: 10 :: join [13; 10] (l' :: rest')).
    change (join [10] (l :: l' :: rest')) with (l ++ 10 :: join [10] (l' :: rest')).
    rewrite remove_crlf_line by exact Hl. rewrite IH. reflexivity.
Qed.

Lemma remove_crlf_lines_witness :
  remove_crlf (join [13; 10] [str "x=1"; str "y=2"; []]) = join [10] [str "x=1"; str "y=2"; []].
Proof.
  apply (remove_crlf_lines [str "x=1"; str "y=2"; []]).
  repeat constructor; discriminate.
Defined.

End CrlfFacts.
